(** * gbvm-benchmark: symbol regions, call-stack tracker and window reports

    A shallow embedding of [src/gbvm-benchmark.js]: the [.noi] symbol parser
    ([parseNoi]), the region builder ([generateFunctionRegions]), the region
    lookup with its one-entry cache ([getCurrentFunctionRegion]), the
    call-stack tracker ([onAfterInstruction], [pushFrame], [popFrame],
    [fnStackContains]), the per-window report ([eventsBetween],
    [logFrameReport]), and of the script around them the path of the
    symbol file ([noiPath]), the two start-up tables, [endValue] and the
    names of the capture files ([captureFilename]).

    Conventions of the embedding.
    - JS numbers that the program only uses as integers (addresses, banks,
      cycle counts) are [Z]; [Infinity] appears only as the end of an
      interval and is the constructor [Inf] of [ExtZ].
    - JS strings are [string] (code units below 256).
    - A JS array used as a stack ([fnStack], the per-frame stacks of
      [eventsBetween]) is a list whose HEAD is the last array element, so
      [push]/[pop] are cons/uncons; every other array is a list in array
      order.
    - JS object identity ([===] on region objects) is the position of the
      object in [functionRegions]: a region object is a pair of that
      position and the (immutable, once built) record.
    - Console output ([log], verbose mode) is not part of the model; the
      frame fields that drive it ([childPushed], [openPrinted], [indent],
      [prefix]) are, and so is the bar of a report row ([bar]), whose
      formatting can throw whether or not anything is printed. *)

From Stdlib Require Import ZArith Lia Bool Ascii.
From stdpp Require Import gmap strings list fin_maps sorting pretty.

Local Open Scope Z_scope.

(** ** JavaScript string primitives used by [parseNoi] *)

Module JS.

(** [\s] and [String.prototype.trim]: TAB, LF, VT, FF, CR, SPACE, NBSP. *)
Definition isWhite (c : ascii) : bool :=
  let n := N_of_ascii c in
  ((9 <=? n) && (n <=? 13) || (n =? 32) || (n =? 160))%N.

(** Characters the regex [.] does not match (LF and CR here). *)
Definition isLineTerminator (c : ascii) : bool :=
  let n := N_of_ascii c in ((n =? 10) || (n =? 13))%N.

Fixpoint startsWith (p s : string) : bool :=
  match p, s with
  | EmptyString, _ => true
  | String a p', String b s' => Ascii.eqb a b && startsWith p' s'
  | String _ _, EmptyString => false
  end.

Fixpoint includes (p s : string) : bool :=
  startsWith p s ||
  match s with
  | EmptyString => false
  | String _ s' => includes p s'
  end.

Fixpoint dropPrefix (p s : string) : option string :=
  match p, s with
  | EmptyString, _ => Some s
  | String a p', String b s' => if Ascii.eqb a b then dropPrefix p' s' else None
  | String _ _, EmptyString => None
  end.

Definition consHead (c : ascii) (l : list string) : list string :=
  match l with
  | t :: ts => String c t :: ts
  | [] => [String c EmptyString]
  end.

(** [s.split("\n")] *)
Fixpoint splitLines (s : string) : list string :=
  match s with
  | EmptyString => [EmptyString]
  | String c s' =>
      if Ascii.eqb c "010" then EmptyString :: splitLines s'
      else consHead c (splitLines s')
  end.

Fixpoint trimStart (s : string) : string :=
  match s with
  | EmptyString => EmptyString
  | String c s' => if isWhite c then trimStart s' else s
  end.

Fixpoint trimEnd (s : string) : string :=
  match s with
  | EmptyString => EmptyString
  | String c s' =>
      match trimEnd s' with
      | EmptyString => if isWhite c then EmptyString else String c EmptyString
      | t => String c t
      end
  end.

Definition trim (s : string) : string := trimEnd (trimStart s).

(** [s.split(/\s+/)]: [inWhite] tells that the previous character was
    part of the separator being skipped. *)
Fixpoint splitWhite_go (inWhite : bool) (s : string) : list string :=
  match s with
  | EmptyString => [EmptyString]
  | String c s' =>
      if isWhite c then
        if inWhite then splitWhite_go true s'
        else EmptyString :: splitWhite_go true s'
      else consHead c (splitWhite_go false s')
  end.

Definition splitWhite (s : string) : list string := splitWhite_go false s.

Definition hexDigit (c : ascii) : option Z :=
  let n := Z.of_N (N_of_ascii c) in
  if (48 <=? n) && (n <=? 57) then Some (n - 48)
  else if (97 <=? n) && (n <=? 102) then Some (n - 87)
  else if (65 <=? n) && (n <=? 70) then Some (n - 55)
  else None.

(** The longest prefix of hexadecimal digits, read most significant
    first; [None] when there is no digit at all. *)
Fixpoint hexDigits (acc : option Z) (s : string) : option Z :=
  match s with
  | EmptyString => acc
  | String c s' =>
      match hexDigit c with
      | Some d => hexDigits (Some (16 * default 0 acc + d)) s'
      | None => acc
      end
  end.

Definition stripHexPrefix (s : string) : string :=
  match s with
  | String "0" (String "x" r) => r
  | String "0" (String "X" r) => r
  | _ => s
  end.

(** [parseInt(s, 16)] as a mathematical integer; [None] is [NaN].
    [undefined] is first converted to the string ["undefined"]. *)
Definition parseInt16 (arg : option string) : option Z :=
  let s := trimStart (default "undefined" arg) in
  let '(neg, s) :=
    match s with
    | String "-" r => (true, r)
    | String "+" r => (false, r)
    | _ => (false, s)
    end in
  match hexDigits None (stripHexPrefix s) with
  | Some n => Some (if neg : bool then - n else n)
  | None => None
  end.

(** The Number nearest to an integer (ties to even, 53-bit mantissa).
    Integers that round to [Infinity] would have exponent above 32, so
    their image keeps the same [ToInt32], which is all the program uses. *)
Definition roundToDouble (n : Z) : Z :=
  let a := Z.abs n in
  if a <? 2 ^ 53 then n
  else
    let e := Z.log2 a - 52 in
    let q := Z.shiftr a e in
    let r := Z.land a (Z.ones e) in
    let half := Z.shiftl 1 (e - 1) in
    let q' := if (half <? r) || ((r =? half) && Z.odd q) then q + 1 else q in
    Z.sgn n * Z.shiftl q' e.

(** [ToInt32], applied by [&] and [>>] to their operands; [NaN] gives 0. *)
Definition toInt32 (x : option Z) : Z :=
  match x with
  | None => 0
  | Some n => (roundToDouble n + 2 ^ 31) mod 2 ^ 32 - 2 ^ 31
  end.

(** Text following the first ["$"], if there is one. *)
Fixpoint afterDollar (s : string) : option string :=
  match s with
  | EmptyString => None
  | String c s' => if Ascii.eqb c "$" then Some s' else afterDollar s'
  end.

(** [s.replace(/^F([^$]+)\$/, "")] *)
Definition stripFilePrefix (s : string) : string :=
  match s with
  | String "F" (String c r) =>
      if Ascii.eqb c "$" then s
      else match afterDollar r with
           | Some rest => rest
           | None => s
           end
  | _ => s
  end.

Fixpoint fromLineTerminator (s : string) : string :=
  match s with
  | EmptyString => EmptyString
  | String c s' => if isLineTerminator c then s else fromLineTerminator s'
  end.

Fixpoint untilLineTerminator (s : string) : string :=
  match s with
  | EmptyString => EmptyString
  | String c s' =>
      if isLineTerminator c then EmptyString
      else String c (untilLineTerminator s')
  end.

(** [s.replace(/\$.*/, "")] *)
Fixpoint stripDollarSuffix (s : string) : string :=
  match s with
  | EmptyString => EmptyString
  | String c s' =>
      if Ascii.eqb c "$" then fromLineTerminator s'
      else String c (stripDollarSuffix s')
  end.

End JS.

(** ** The symbol table: [parseNoi] *)

Record Sym := mkSym { symbol : string; addr : Z; bank : Z }.

Global Instance Sym_eq_dec : EqDecision Sym.
Proof. solve_decision. Defined.

(** The dictionary key [`b${bank}_${addr}`] is an injective rendering of
    the pair of integers; [usedAddr] is keyed by the pair. *)
Definition symKey (s : Sym) : Z * Z := (bank s, addr s).

(** [/^DEF (_|F|\..*ISR|\.remove_|\.add_|\.mod|\.div)/.test(line)] *)
Definition isCodeDef (line : string) : bool :=
  match JS.dropPrefix "DEF " line with
  | None => false
  | Some r =>
      JS.startsWith "_" r || JS.startsWith "F" r
      || match r with
         | String "." r' => JS.includes "ISR" (JS.untilLineTerminator r')
         | _ => false
         end
      || JS.startsWith ".remove_" r || JS.startsWith ".add_" r
      || JS.startsWith ".mod" r || JS.startsWith ".div" r
  end.

(** The eight exclusion tests of the loop body, in source order. *)
Definition isExcluded (line : string) : bool :=
  JS.includes "_REG" line || JS.includes "_rRAM" line
  || JS.includes "_rROM" line || JS.includes "_rMBC" line
  || JS.includes "__start_save" line || JS.includes "___bank_" line
  || JS.includes "___func_" line || JS.includes "___mute_mask_" line.

(** The record a retained line stands for (the loop body up to the
    [usedAddr] test). A line that passes [isCodeDef] always has a second
    field; the [default] is never used. *)
Definition lineSym (line : string) : Sym :=
  let fields := JS.splitWhite (JS.trim line) in
  let symbol := default "" (fields !! 1%nat) in
  let addrStr := fields !! 2%nat in
  let fullAddr := JS.parseInt16 addrStr in
  let addr := Z.land (JS.toInt32 fullAddr) 65535 in
  let bank :=
    if addr <? 16384 then 0 else Z.land (Z.shiftr (JS.toInt32 fullAddr) 16) 255 in
  let symbolClean := JS.stripDollarSuffix (JS.stripFilePrefix symbol) in
  mkSym symbolClean addr bank.

Definition parseNoi_step (st : list Sym * gset (Z * Z)) (line : string)
  : list Sym * gset (Z * Z) :=
  let '(result, usedAddr) := st in
  if negb (isCodeDef line) then st
  else if isExcluded line then st
  else
    let s := lineSym line in
    if decide (symKey s ∈ usedAddr) then st
    else (result ++ [s], {[symKey s]} ∪ usedAddr).

Definition parseNoi (text : string) : list Sym :=
  fst (foldl parseNoi_step ([], ∅) (JS.splitLines text)).

(** A line the loop body does not skip. *)
Definition keptLine (line : string) : Prop :=
  isCodeDef line && negb (isExcluded line) = true.

(** The records of the retained lines, before deduplication. *)
Definition rawSyms (text : string) : list Sym :=
  lineSym <$> filter keptLine (JS.splitLines text).

(** ** The region builder: [generateFunctionRegions] *)

(** A region is a copy of its symbol record ([{ ...fn }]) with the [end]
    field the builder assigns. *)
Record Region := mkRegion { fn : Sym; rend : Z }.

Global Instance Region_eq_dec : EqDecision Region.
Proof. solve_decision. Defined.

(** [bankGroups] is a [Map], iterated in insertion order: an association
    list, a new bank going to the end. *)
Fixpoint groupPush (s : Sym) (groups : list (Z * list Sym)) : list (Z * list Sym) :=
  match groups with
  | [] => [(bank s, [s])]
  | (b, l) :: rest =>
      if decide (b = bank s) then (b, l ++ [s]) :: rest
      else (b, l) :: groupPush s rest
  end.

Definition groupByBank (noiLookup : list Sym) : list (Z * list Sym) :=
  foldl (λ groups s, groupPush s groups) [] noiLookup.

(** [symbols.sort((a, b) => a.addr - b.addr)]: ascending and stable. *)
Fixpoint insertByAddr (x : Sym) (l : list Sym) : list Sym :=
  match l with
  | [] => [x]
  | y :: l' => if addr x <? addr y then x :: l else y :: insertByAddr x l'
  end.

Definition sortByAddr (l : list Sym) : list Sym :=
  foldl (λ acc x, insertByAddr x acc) [] l.

Definition bankAddrMax (b : Z) : Z := if decide (b = 0) then 16383 else 32767.

(** The two assignments of [end]: up to the next symbol (capped at the
    bank's last address) for all but the last, the bank's last address for
    the last. *)
Fixpoint assignEnds (addrMax : Z) (sorted : list Sym) : list Region :=
  match sorted with
  | [] => []
  | x :: rest =>
      match rest with
      | [] => [mkRegion x addrMax]
      | y :: _ => mkRegion x (Z.min addrMax (addr y - 1)) :: assignEnds addrMax rest
      end
  end.

Definition bankRegions (g : Z * list Sym) : list Region :=
  assignEnds (bankAddrMax g.1) (sortByAddr g.2).

Definition generateFunctionRegions (noiLookup : list Sym) : list Region :=
  concat (bankRegions <$> groupByBank noiLookup).

(** ** Region objects and the lookup tables built at start-up *)

(** A region object: its position in [functionRegions] (its identity) and
    its record. *)
Abbreviation RegionObj := (nat * Region)%type.

Definition rsymbol (o : RegionObj) : string := symbol (fn o.2).
Definition raddr (o : RegionObj) : Z := addr (fn o.2).
Definition rbank (o : RegionObj) : Z := bank (fn o.2).
Definition rlast (o : RegionObj) : Z := rend o.2.

Definition functionRegions (noiLookup : list Sym) : list RegionObj :=
  imap (λ i r, (i, r)) (generateFunctionRegions noiLookup).

(** [regionsByBank[region.bank].push(region)], creating the array first
    when the bank has none. *)
Definition addRegion (m : gmap Z (list RegionObj)) (o : RegionObj)
  : gmap Z (list RegionObj) :=
  <[rbank o := default [] (m !! rbank o) ++ [o]]> m.

Definition buildRegionsByBank (objs : list RegionObj) : gmap Z (list RegionObj) :=
  foldl addRegion ∅ objs.

(** [noiIndex[noiLookup[i].symbol] = i] for [i] ascending. *)
Definition buildNoiIndex (noiLookup : list Sym) : gmap string nat :=
  foldl (λ m p, <[symbol p.2 := p.1]> m) ∅ (imap (λ i s, (i, s)) noiLookup).

(** Reading [noiIndex[name]]. The object is a plain [{}]: the key
    ["__proto__"] is never stored and reads as the prototype object, which
    like [undefined] is not an index; both are [None]. With the tables the
    program builds every region's symbol is a key of [noiIndex], so only
    the former can occur. *)
Definition noiIndexGet (noiIndex : gmap string nat) (name : string) : option nat :=
  if decide (name = "__proto__") then None else noiIndex !! name.

(** [speedscope.shared.frames]: the names, in symbol-table order. *)
Definition sharedFrames (noiLookup : list Sym) : list string := symbol <$> noiLookup.

(** ** The region index: [getCurrentFunctionRegion] *)

Definition inRegion (pc : Z) (o : RegionObj) : bool :=
  (raddr o <=? pc) && (pc <=? rlast o).

(** The search below the cache test. *)
Definition searchRegion (regionsByBank : gmap Z (list RegionObj)) (pc bank : Z)
  : option RegionObj :=
  let targetBank := if pc <? 16384 then 0 else bank in
  match regionsByBank !! targetBank with
  | None => None
  | Some l => List.find (inRegion pc) l
  end.

Definition getCurrentFunctionRegion (regionsByBank : gmap Z (list RegionObj))
    (currentFnRegion : option RegionObj) (pc bank : Z) : option RegionObj :=
  match currentFnRegion with
  | Some o =>
      if inRegion pc o && ((pc <? 16384) || bool_decide (rbank o = bank))
      then Some o
      else searchRegion regionsByBank pc bank
  | None => searchRegion regionsByBank pc bank
  end.

(** ** The call-stack tracker *)

Inductive EventType := EvO | EvC.

Global Instance EventType_eq_dec : EqDecision EventType.
Proof. solve_decision. Defined.

(** A trace event [{ type, at, frame }]; a close also carries [start], the
    opening time of the frame it closes. *)
Record Event := mkEvent {
  etype : EventType;
  eat : Z;
  eframe : option nat;
  estart : option Z
}.

Global Instance Event_eq_dec : EqDecision Event.
Proof. solve_decision. Defined.

Record Frame := mkFrame {
  fsymbol : string;
  faddr : Z;
  fclock : Z;
  childPushed : bool;
  openPrinted : bool;
  indent : nat;
  prefix : string
}.

Global Instance Frame_eq_dec : EqDecision Frame.
Proof. solve_decision. Defined.

(** The mutable globals the tracker owns. *)
Record Tracker := mkTracker {
  currentFnRegion : option RegionObj;
  fnStack : list Frame;
  events : list Event
}.

Definition initTracker : Tracker := mkTracker None [] [].

(** One executed instruction as the callback sees it: [gb.cpu.r.pc], the
    mapped ROM bank and [getGBTime()]. *)
Record Obs := mkObs { opc : Z; obank : Z; otime : Z }.

Section Tracker.

Variable regionsByBank : gmap Z (list RegionObj).
Variable noiIndex : gmap string nat.

Definition openEvent (name : string) (clockNow : Z) : Event :=
  mkEvent EvO clockNow (noiIndexGet noiIndex name) None.

Definition closeEvent (clockNow : Z) (popped : Frame) : Event :=
  mkEvent EvC clockNow (noiIndexGet noiIndex (fsymbol popped)) (Some (fclock popped)).

(** What [pushFrame] does to the frame below the new one. *)
Definition markParent (stack : list Frame) : list Frame :=
  match stack with
  | [] => []
  | parent :: rest =>
      mkFrame (fsymbol parent) (faddr parent) (fclock parent) true true
              (indent parent) (prefix parent) :: rest
  end.

Definition newFrame (o : RegionObj) (clockNow : Z) (depth : nat) : Frame :=
  mkFrame (rsymbol o) (raddr o) clockNow false false depth
          (if JS.startsWith "INT_" (rsymbol o) then "[INT]" else "-").

Definition pushFrame (o : RegionObj) (clockNow : Z) (t : Tracker) : Tracker :=
  mkTracker (currentFnRegion t)
            (newFrame o clockNow (length (fnStack t)) :: markParent (fnStack t))
            (events t ++ [openEvent (rsymbol o) clockNow]).

Definition fnStackContains (o : RegionObj) (stack : list Frame) : bool :=
  existsb (λ f, bool_decide (fsymbol f = rsymbol o)) stack.

(** The [while] loop of [popFrame]; [target] is [fn?.symbol], [None]
    for the call without argument at the end of the run. *)
Fixpoint popLoop (target : option string) (clockNow : Z)
    (stack : list Frame) (evs : list Event) : list Frame * list Event :=
  match stack with
  | [] => ([], evs)
  | top :: rest =>
      if decide (Some (fsymbol top) = target) then (stack, evs)
      else popLoop target clockNow rest (evs ++ [closeEvent clockNow top])
  end.

Definition popFrame (target : option RegionObj) (clockNow : Z) (t : Tracker) : Tracker :=
  let r := popLoop (rsymbol <$> target) clockNow (fnStack t) (events t) in
  mkTracker (currentFnRegion t) r.1 r.2.

Definition setCurrent (o : RegionObj) (t : Tracker) : Tracker :=
  mkTracker (Some o) (fnStack t) (events t).

(** The callback. [newFn === currentFnRegion] compares objects: same
    position, hence same record. Each of the three [if]s after the lookup
    returns and together they cover every case, so the assignment
    [currentFnRegion = null] that ends the source function is never
    reached and has no counterpart here. *)
Definition onAfterInstruction (t : Tracker) (ob : Obs) : Tracker :=
  let pc := opc ob in
  if pc <? 336 then t
  else
    match getCurrentFunctionRegion regionsByBank (currentFnRegion t) pc (obank ob) with
    | None => t
    | Some newFn =>
        if decide (Some newFn = currentFnRegion t) then t
        else if pc =? raddr newFn then
          setCurrent newFn (pushFrame newFn (otime ob) t)
        else if fnStackContains newFn (fnStack t) then
          setCurrent newFn (popFrame (Some newFn) (otime ob) t)
        else
          setCurrent newFn (pushFrame newFn (otime ob) t)
    end.

(** The emulator runs; every instruction calls the tracker. *)
Definition run (t : Tracker) (stream : list Obs) : Tracker :=
  foldl onAfterInstruction t stream.

(** The [popFrame()] after the frame loop of [main]. *)
Definition finish (clockNow : Z) (t : Tracker) : Tracker :=
  popFrame None clockNow t.

End Tracker.

(** The tracker over the tables built from a symbol table. *)
Definition trackerRun (noiLookup : list Sym) (stream : list Obs) : Tracker :=
  run (buildRegionsByBank (functionRegions noiLookup)) (buildNoiIndex noiLookup)
      initTracker stream.

Definition trackerFinish (noiLookup : list Sym) (clockNow : Z) (t : Tracker) : Tracker :=
  finish (buildNoiIndex noiLookup) clockNow t.

(** ** The window aggregator: [eventsBetween] and [logFrameReport] *)

(** The end of an interval: a time, or [Infinity] for a frame not closed. *)
Inductive ExtZ := Fin (z : Z) | Inf.

Record Active := mkActive { astart : Z; aend : ExtZ; aframe : option nat }.

(** Property order of the [stack] object, which [Object.entries] follows:
    integer keys ascending, then the key of a frame that is not an index
    ([None], see [noiIndexGet]). *)
Definition keyBefore (k k' : option nat) : bool :=
  match k, k' with
  | Some a, Some b => (a <? b)%nat
  | Some _, None => true
  | None, _ => false
  end.

(** [if (!stack[frame]) stack[frame] = []; stack[frame].push(at)] *)
Fixpoint framePush (k : option nat) (t : Z) (stack : list (option nat * list Z))
  : list (option nat * list Z) :=
  match stack with
  | [] => [(k, [t])]
  | (k', ts) :: rest =>
      if decide (k' = k) then (k', t :: ts) :: rest
      else if keyBefore k k' then (k, [t]) :: stack
      else (k', ts) :: framePush k t rest
  end.

(** [stack[frame].pop()] when [stack[frame]] exists and is not empty. *)
Fixpoint framePop (k : option nat) (stack : list (option nat * list Z))
  : option (Z * list (option nat * list Z)) :=
  match stack with
  | [] => None
  | (k', ts) :: rest =>
      if decide (k' = k) then
        match ts with
        | t :: ts' => Some (t, (k', ts') :: rest)
        | [] => None
        end
      else
        match framePop k rest with
        | Some (t, rest') => Some (t, (k', ts) :: rest')
        | None => None
        end
  end.

(** The first loop: match O/C pairs per frame index. *)
Fixpoint matchEvents (evs : list Event) (stack : list (option nat * list Z))
    (active : list Active) : list (option nat * list Z) * list Active :=
  match evs with
  | [] => (stack, active)
  | e :: rest =>
      match etype e with
      | EvO => matchEvents rest (framePush (eframe e) (eat e) stack) active
      | EvC =>
          match framePop (eframe e) stack with
          | Some (startTime, stack') =>
              matchEvents rest stack'
                (active ++ [mkActive startTime (Fin (eat e)) (eframe e)])
          | None => matchEvents rest stack active
          end
      end
  end.

(** The second loop: what is still open is ongoing, its frame read back
    from the key with [parseInt]. *)
Definition ongoing (stack : list (option nat * list Z)) : list Active :=
  flat_map (λ p, (λ t, mkActive t Inf p.1) <$> rev p.2) stack.

Definition activeEvents (evs : list Event) : list Active :=
  let r := matchEvents evs [] [] in r.2 ++ ongoing r.1.

Definition extGt (e : ExtZ) (x : Z) : bool :=
  match e with Fin z => x <? z | Inf => true end.

Definition extMin (e : ExtZ) (x : Z) : Z :=
  match e with Fin z => Z.min z x | Inf => x end.

Definition overlaps (wstart wend : Z) (a : Active) : bool :=
  extGt (aend a) wstart && (astart a <? wend).

Definition eventsBetween (evs : list Event) (wstart wend : Z) : list Active :=
  filter (λ a, overlaps wstart wend a = true) (activeEvents evs).

(** [Math.min(e.end, end) - Math.max(e.start, start)] *)
Definition duration (wstart wend : Z) (a : Active) : Z :=
  extMin (aend a) wend - Z.max (astart a) wstart.

(** [frameMap], a [Map] from name to summed duration, in insertion order. *)
Fixpoint addDuration (name : string) (d : Z) (frameMap : list (string * Z))
  : list (string * Z) :=
  match frameMap with
  | [] => [(name, 0 + d)]
  | (n, total) :: rest =>
      if decide (n = name) then (n, total + d) :: rest
      else (n, total) :: addDuration name d rest
  end.

(** [speedscope.shared.frames[e.frame].name]; [None] is the [TypeError]
    of reading [.name] on [undefined]. *)
Definition frameName (frames : list string) (k : option nat) : option string :=
  match k with
  | Some i => frames !! i
  | None => None
  end.

Fixpoint accumulate (frames : list string) (wstart wend : Z) (acts : list Active)
    (frameMap : list (string * Z)) : option (list (string * Z)) :=
  match acts with
  | [] => Some frameMap
  | e :: rest =>
      match frameName frames (aframe e) with
      | Some name =>
          accumulate frames wstart wend rest
            (addDuration name (duration wstart wend e) frameMap)
      | None => None
      end
  end.

(** [.sort((a, b) => b.duration - a.duration)]: descending and stable. *)
Fixpoint insertByDuration (x : string * Z) (l : list (string * Z)) : list (string * Z) :=
  match l with
  | [] => [x]
  | y :: l' => if y.2 <? x.2 then x :: l else y :: insertByDuration x l'
  end.

Definition sortByDuration (l : list (string * Z)) : list (string * Z) :=
  foldl (λ acc x, insertByDuration x acc) [] l.

(** [frameStats], the rows of a report: the first half of
    [logFrameReport(start, end, _)]; [None] when reading a name throws. *)
Definition frameStats (frames : list string) (evs : list Event)
    (wstart wend : Z) : option (list (string * Z)) :=
  sortByDuration <$> accumulate frames wstart wend (eventsBetween evs wstart wend) [].

Definition CYCLES_PER_FRAME : Z := 70256.
Definition BAR_WIDTH : Z := 30.

(** [Math.round(p / q)] for integers [p] and [q > 0]: the nearest
    integer, a half going up. *)
Definition mathRound (p q : Z) : Z := (2 * p + q) / (2 * q).

(** [Math.round((clampedDuration / CYCLES_PER_FRAME) * BAR_WIDTH)]. The
    source divides and multiplies in doubles. For an integer duration
    the exact value [30 * c / 70256] is a half-integer only when [c] is
    an odd multiple of 17564, where the quotient (a multiple of 1/4) and
    the product are exact; otherwise it is at least 1/35128 away from
    every half-integer, far more than the rounding error of the two
    operations as long as the result is between -1 and 30. So the double
    rounds to a negative integer exactly when the exact value does, and
    to the same integer whenever that is not negative. *)
Definition filledLength (duration : Z) : Z :=
  let clampedDuration := Z.min duration CYCLES_PER_FRAME in
  mathRound (clampedDuration * BAR_WIDTH) CYCLES_PER_FRAME.

(** [s.repeat(n)] for an integer [n]; [None] is the [RangeError] thrown
    for a negative count. *)
Fixpoint repeatNat (s : string) (n : nat) : string :=
  match n with
  | O => EmptyString
  | S n' => s +:+ repeatNat s n'
  end.

Definition repeatString (s : string) (n : Z) : option string :=
  if n <? 0 then None else Some (repeatNat s (Z.to_nat n)).

(** The bar of a row, up to its closing ["|"]. What the source puts
    around it in the printed line (the padded name, the duration and the
    frame number) is string formatting that cannot throw, and is left
    out. *)
Definition bar (duration : Z) : option string :=
  filled ← repeatString "#" (filledLength duration);
  rest ← repeatString "-" (BAR_WIDTH - filledLength duration);
  Some ("|" +:+ filled +:+ rest +:+ "|").

(** [logFrameReport(start, end, _)]: the rows are built, then the line
    of each row is formatted for [log], with or without [--verbose].
    The result is the rows printed; [None] when the function throws,
    either the [TypeError] of [frameStats] or the [RangeError] of a bar
    of negative length. *)
Definition logFrameReport (frames : list string) (evs : list Event)
    (wstart wend : Z) : option (list (string * Z)) :=
  stats ← frameStats frames evs wstart wend;
  _ ← mapM (λ row, bar row.2) stats;
  Some stats.

(** The duration a report shows for a symbol; none shown counts as 0. *)
Definition reported (name : string) (stats : list (string * Z)) : Z :=
  default 0 (snd <$> List.find (λ p, bool_decide (p.1 = name)) stats).

(** ** Start-up: the path of the symbol file *)

(** The [i] flag of a regular expression compares characters by their
    upper case. Only the characters ".", "G", "B" and "C" are ever the
    target of the comparison, and among the code units below 256 only
    the ASCII letters have an upper case in that set, so the upper case
    of the other characters is left out. *)
Definition upperAscii (c : ascii) : ascii :=
  let n := N_of_ascii c in
  if ((97 <=? n) && (n <=? 122))%N then ascii_of_N (n - 32) else c.

(** What follows a match of [p] at the start of [s], letters compared
    without case; [p] is written in upper case. *)
Fixpoint dropPrefixNoCase (p s : string) : option string :=
  match p, s with
  | EmptyString, _ => Some s
  | String a p', String b s' =>
      if Ascii.eqb a (upperAscii b) then dropPrefixNoCase p' s' else None
  | String _ _, EmptyString => None
  end.

(** [options.rom.replace(/\.(gbc|gb)/i, ".noi")], the path the symbol
    file is read from: the leftmost match is replaced, and at a position
    [gbc] is tried before [gb]. *)
Fixpoint noiPath (rom : string) : string :=
  match rom with
  | EmptyString => EmptyString
  | String c r =>
      match dropPrefixNoCase ".GBC" rom with
      | Some rest => ".noi" +:+ rest
      | None =>
          match dropPrefixNoCase ".GB" rom with
          | Some rest => ".noi" +:+ rest
          | None => String c (noiPath r)
          end
      end
  end.

(** ** The end of the run: [endValue] and the capture files *)

(** The result of [Math.max]: [-Infinity] when it is given no argument. *)
Inductive MaxZ := NegInf | Num (z : Z).

Definition mathMax (l : list Z) : MaxZ :=
  foldl (λ m x, match m with NegInf => Num x | Num y => Num (Z.max y x) end) NegInf l.

(** [speedscope.profiles[0].endValue] as [main] sets it after the last
    [popFrame()]: the latest time of a Close event. The times are spread
    into the arguments of one call; the limit an engine puts on their
    number is not modelled. *)
Definition endValue (evs : list Event) : MaxZ :=
  mathMax (eat <$> filter (λ e, etype e = EvC) evs).

Fixpoint zeros (n : nat) : string :=
  match n with
  | O => EmptyString
  | S n' => String "0" (zeros n')
  end.

(** [s.padStart(n, "0")] *)
Definition padStart0 (n : nat) (s : string) : string :=
  zeros (n - String.length s) +:+ s.

(** [`frame_${String(i).padStart(4, "0")}.png`] for the counter [i] of
    the frame loop; [String(i)] is the decimal numeral of [i]. *)
Definition captureFilename (i : nat) : string :=
  "frame_" +:+ padStart0 4 (pretty i) +:+ ".png".

(** ** The scenario of the specification, executed *)

Definition scenarioSyms : list Sym := [mkSym "main" 336 0; mkSym "helper" 512 0].
Definition scenarioStream : list Obs := [mkObs 336 0 0; mkObs 512 0 10; mkObs 336 0 20].

(** ** Notions used to state the properties *)

Definition countEvents (ty : EventType) (evs : list Event) : nat :=
  length (filter (λ e, etype e = ty) evs).

(** Replaying a trace on one stack of open occurrences, each the frame
    index and the time of its Open: a Close must meet, on top, the
    occurrence it names (same frame index, opened at its [start]).
    [None] reports a Close that does not. *)
Fixpoint replay (evs : list Event) (opened : list (option nat * Z))
  : option (list (option nat * Z)) :=
  match evs with
  | [] => Some opened
  | e :: rest =>
      match etype e with
      | EvO => replay rest ((eframe e, eat e) :: opened)
      | EvC =>
          match opened with
          | top :: below =>
              if decide (top.1 = eframe e ∧ Some top.2 = estart e)
              then replay rest below
              else None
          | [] => None
          end
      end
  end.

(** The cache values the lookup can meet: nothing before the first hit,
    afterwards a region some earlier lookup returned. *)
Inductive reachableCache (regionsByBank : gmap Z (list RegionObj))
  : option RegionObj → Prop :=
| cache_empty : reachableCache regionsByBank None
| cache_result c pc bank o :
    reachableCache regionsByBank c →
    getCurrentFunctionRegion regionsByBank c pc bank = Some o →
    reachableCache regionsByBank (Some o).

(** A symbol table deduplicated by (bank, address). *)
Definition deduplicated (noiLookup : list Sym) : Prop :=
  NoDup (symKey <$> noiLookup).

(** Bank 0 symbols below 0x4000, the others in 0x4000..0x7FFF. *)
Definition bankedAddress (s : Sym) : Prop :=
  if decide (bank s = 0) then addr s < 16384 else 16384 ≤ addr s ≤ 32767.

(** The addresses two regions cover have nothing in common. *)
Definition disjointRegions (r1 r2 : Region) : Prop :=
  ∀ x, ¬ (addr (fn r1) ≤ x ≤ rend r1 ∧ addr (fn r2) ≤ x ≤ rend r2).

Definition nonDecreasing (evs : list Event) : Prop :=
  StronglySorted Z.le (eat <$> evs).

(** Every event names an entry of the frame table. *)
Definition validFrames (frames : list string) (evs : list Event) : Prop :=
  Forall (λ e, is_Some (frameName frames (eframe e))) evs.

(** What an interval adds to the report of a window. *)
Definition contribution (wstart wend : Z) (a : Active) : Z :=
  if overlaps wstart wend a then duration wstart wend a else 0.

(** The tracker resolves an observation to a region: the callback gets
    past its threshold test (pc is not below 336, where it returns at
    once) and [newFn] is that region. *)
Definition resolvesTo (regionsByBank : gmap Z (list RegionObj)) (t : Tracker)
    (ob : Obs) (R : RegionObj) : Prop :=
  336 ≤ opc ob
  ∧ getCurrentFunctionRegion regionsByBank (currentFnRegion t) (opc ob) (obank ob)
    = Some R.


(** The occurrences a stack holds open, innermost first. *)
Definition openOccurrences (noiIndex : gmap string nat) (stack : list Frame)
  : list (option nat * Z) :=
  (λ f, (noiIndexGet noiIndex (fsymbol f), fclock f)) <$> stack.

(** The trace replays to exactly the frames still on the stack, and
    every frame on the stack is an Open not yet closed. *)
Definition bracketed (noiIndex : gmap string nat) (t : Tracker) : Prop :=
  replay (events t) [] = Some (openOccurrences noiIndex (fnStack t))
  ∧ countEvents EvO (events t)
    = (countEvents EvC (events t) + length (fnStack t))%nat.

(** What [bankGroups] holds once [noiLookup] has been read: one entry per
    bank met, with the symbols of that bank in table order. *)
Definition groupsOf (noiLookup : list Sym) (groups : list (Z * list Sym)) : Prop :=
  NoDup groups.*1
  ∧ Forall (λ g, g.2 = filter (λ s, bank s = g.1) noiLookup) groups
  ∧ ∀ s, s ∈ noiLookup → bank s ∈ groups.*1.

Definition addrBelow (x y : Sym) : Prop := addr x < addr y.

(** The end of a region lies before the start of a later one. *)
Definition endsBefore (r1 r2 : Region) : Prop := rend r1 < addr (fn r2).

(** Two regions of one bank, the earlier ends before the later starts. *)
Definition apartInBank (r1 r2 : Region) : Prop :=
  bank (fn r1) = bank (fn r2) → endsBefore r1 r2.

Definition sameKey (s x : Sym) : bool := bool_decide (symKey x = symKey s).

(** What the loop of [parseNoi] holds after the lines read so far. *)
Definition firstKept (raw : list Sym) (st : list Sym * gset (Z * Z)) : Prop :=
  (∀ k, k ∈ st.2 ↔ k ∈ symKey <$> st.1)
  ∧ NoDup (symKey <$> st.1)
  ∧ (∀ s, s ∈ st.1 → List.find (sameKey s) raw = Some s)
  ∧ (∀ x, x ∈ raw → symKey x ∈ st.2).

(** Two records for bank 0, address 0x150. *)
Definition duplicateText : string := "DEF _first 0x150
DEF _second 0x150".

(** An interval that does not end before it starts. *)
Definition goodInterval (a : Active) : Prop :=
  match aend a with Fin z => astart a ≤ z | Inf => True end.

(** What the intervals of one name add to the report of a window. *)
Fixpoint totalFor (frames : list string) (name : string) (wstart wend : Z)
    (acts : list Active) : Z :=
  match acts with
  | [] => 0
  | a :: rest =>
      (if decide (frameName frames (aframe a) = Some name)
       then contribution wstart wend a else 0)
      + totalFor frames name wstart wend rest
  end.

(** A property of every time waiting on the per-frame stacks. *)
Definition stackForall (P : option nat → Z → Prop)
    (stack : list (option nat * list Z)) : Prop :=
  Forall (λ p, Forall (P p.1) p.2) stack.

Definition recursionSyms : list Sym := [mkSym "F" 336 0; mkSym "G" 512 0].

(** F is called; F calls G; G calls F; the inner F returns into G; G
    returns into the outer F. *)
Definition recursionStream (t0 t1 t2 t3 t4 : Z) : list Obs :=
  [mkObs 336 0 t0; mkObs 512 0 t1; mkObs 336 0 t2; mkObs 513 0 t3; mkObs 337 0 t4].

(** F is called, runs, then calls itself: its start address is observed
    again while F is the current region. *)
Definition selfCallStream : list Obs :=
  [mkObs 336 0 0; mkObs 340 0 5; mkObs 336 0 10; mkObs 340 0 15].




(** An interval that overlaps the window names an entry of the frame
    table. *)
Definition validIn (frames : list string) (wstart wend : Z) (a : Active) : Prop :=
  overlaps wstart wend a = true → is_Some (frameName frames (aframe a)).

(** The frame index of a name is an entry of the frame table. *)
Definition indexed (noiIndex : gmap string nat) (frames : list string)
    (name : string) : Prop :=
  is_Some (frameName frames (noiIndexGet noiIndex name)).

(** Events, stack and cache only hold indexed names. *)
Definition allIndexed (noiIndex : gmap string nat) (frames : list string)
    (t : Tracker) : Prop :=
  validFrames frames (events t)
  ∧ Forall (λ f, indexed noiIndex frames (fsymbol f)) (fnStack t)
  ∧ ∀ R, currentFnRegion t = Some R → indexed noiIndex frames (rsymbol R).

(** [e] closes frame [f], at some time: a Close event that carries the
    frame index the symbol of [f] has in [noiIndex] (none for
    ["__proto__"], which a plain object does not hold as a key) and the
    opening time of [f]. *)
Definition closes (noiIndex : gmap string nat) (e : Event) (f : Frame) : Prop :=
  ∃ now, e = mkEvent EvC now
               (if decide (fsymbol f = "__proto__") then None
                else noiIndex !! fsymbol f)
               (Some (fclock f)).

(** The interval a Close event describes by itself: from the opening
    time it records to its own time, under its frame index. *)
Definition closedInterval (e : Event) : option Active :=
  match etype e with
  | EvC => (λ s, mkActive s (Fin (eat e)) (eframe e)) <$> estart e
  | EvO => None
  end.

Definition closedIntervals (evs : list Event) : list Active :=
  omap closedInterval evs.

(** The intervals of the occurrences still open. *)
Definition openIntervals (opened : list (option nat * Z)) : list Active :=
  (λ p, mkActive p.2 Inf p.1) <$> opened.

(** The times waiting under a key of the [stack] object. *)
Fixpoint timesAt (k : option nat) (stack : list (option nat * list Z)) : list Z :=
  match stack with
  | [] => []
  | (k', ts) :: rest => if decide (k' = k) then ts else timesAt k rest
  end.

Definition keyLt (k k' : option nat) : Prop := keyBefore k k' = true.

(** The per-frame stacks hold, key by key, the open occurrences. *)
Definition represents (stack : list (option nat * list Z))
    (opened : list (option nat * Z)) : Prop :=
  StronglySorted keyLt stack.*1
  ∧ ∀ k, timesAt k stack = snd <$> filter (λ p, p.1 = k) opened.

(** The trace the specification expects for the scenario. *)
Definition scenarioClaimedEvents : list Event :=
  [mkEvent EvO 0 (Some 0%nat) None; mkEvent EvO 10 (Some 1%nat) None;
   mkEvent EvC 20 (Some 1%nat) (Some 10)].

(** *** Notions for the further properties *)

(** What [parseNoi] computes from any address field: a 16-bit address, a
    bank byte, and bank 0 for every address below 0x4000. *)
Definition fieldsInRange (s : Sym) : Prop :=
  0 ≤ addr s ≤ 65535 ∧ 0 ≤ bank s ≤ 255 ∧ (addr s < 16384 → bank s = 0).

Fixpoint allChars (P : ascii → bool) (s : string) : bool :=
  match s with
  | EmptyString => true
  | String c r => P c && allChars P r
  end.

(** Neither white space nor ["$"]. *)
Definition nameChar (c : ascii) : bool :=
  negb (JS.isWhite c) && negb (Ascii.eqb c "$").

Definition cleanName (name : string) : Prop := allChars nameChar name = true.

Definition nonWhite (s : string) : Prop :=
  allChars (λ c, negb (JS.isWhite c)) s = true.

Definition addrLe (x y : Sym) : Prop := addr x ≤ addr y.

(** [targetBank] of [getCurrentFunctionRegion]: the bank whose regions
    the search goes through. *)
Definition targetBank (pc romBank : Z) : Z := if pc <? 16384 then 0 else romBank.

(** No match of [/\.gb/i] anywhere in [s]. *)
Fixpoint noRomExtension (s : string) : bool :=
  match s with
  | EmptyString => true
  | String _ r =>
      match dropPrefixNoCase ".GB" s with
      | Some _ => false
      | None => noRomExtension r
      end
  end.

(** [ext] is [.gb] or [.gbc], in any mix of cases. *)
Definition romExtension (ext : string) : Prop :=
  dropPrefixNoCase ".GB" ext = Some EmptyString
  ∨ dropPrefixNoCase ".GBC" ext = Some EmptyString.

(** The frame a new frame is pushed on has been marked by [pushFrame]. *)
Definition parentMarked (below : list Frame) : Prop :=
  match below with
  | parent :: _ => childPushed parent = true
  | [] => True
  end.

(** Every frame of a stack records as [indent] the number of frames
    under it and as [prefix] the marker of its symbol, its two flags
    agree, and every frame with a frame on top of it is marked. *)
Fixpoint wellShaped (stack : list Frame) : Prop :=
  match stack with
  | [] => True
  | f :: below =>
      indent f = length below
      ∧ openPrinted f = childPushed f
      ∧ prefix f = (if JS.startsWith "INT_" (fsymbol f) then "[INT]" else "-")
      ∧ parentMarked below
      ∧ wellShaped below
  end.

(** Either nothing has been entered yet, or a region is current, its
    symbol is on top of a stack that is not empty, and the trace is not
    empty. *)
Definition started (t : Tracker) : Prop :=
  match currentFnRegion t with
  | Some R => ∃ f below, fnStack t = f :: below ∧ fsymbol f = rsymbol R ∧ events t ≠ []
  | None => fnStack t = [] ∧ events t = []
  end.

(** A Close does not precede the Open whose time it records. *)
Definition closedForward (e : Event) : Prop :=
  match estart e with
  | Some s => s ≤ eat e
  | None => True
  end.

(** All that the tracker holds dates from [now] or before, the trace is
    in time order and its Closes point backwards. *)
Definition timely (now : Z) (t : Tracker) : Prop :=
  Forall (λ e, eat e ≤ now) (events t)
  ∧ Forall (λ f, fclock f ≤ now) (fnStack t)
  ∧ nonDecreasing (events t)
  ∧ Forall closedForward (events t).

(** The order of the rows of a report: the longer duration first. *)
Definition longerFirst (x y : string * Z) : Prop := y.2 ≤ x.2.

(** * Properties *)

Example parseNoi_ex :
  parseNoi "DEF _main 0x150
DEF F_x$_helper$0$0 0x00014200
DEF _REG_x 0x1
DEF .mod 0x1FFFF
junk" = [mkSym "_main" 336 0; mkSym "_helper" 16896 1; mkSym ".mod" 65535 1].
Proof. vm_compute. reflexivity. Qed.

(** Lines the filter drops, a missing address ([NaN], hence 0), a
    negative one, a file prefix, a second record for (0, 0), which is
    skipped, and an address beyond 2^53, which [parseInt] rounds. *)
Example parseNoi_edge_cases :
  parseNoi "DEF .VBL_ISR 0x40
DEF F$main$0$0 0x200
DEF _x
DEF _y def
DEF _z -5
DEF Fabc$_w$1 0x2C123  trailing
 DEF _indented 0x1
DEF .foo 0x301
DEF _a___bank_x 0x5
DEF _big 0x20000000000001"
  = [mkSym ".VBL_ISR" 64 0; mkSym "F" 512 0; mkSym "_x" 0 0; mkSym "_y" 3567 0;
     mkSym "_z" 65531 255; mkSym "_w" 49443 2].
Proof. vm_compute. reflexivity. Qed.

Example scenario_regions :
  generateFunctionRegions scenarioSyms
  = [mkRegion (mkSym "main" 336 0) 511; mkRegion (mkSym "helper" 512 0) 16383].
Proof. reflexivity. Qed.

(** ** The symbol table keeps the first record of each (bank, address) *)

Lemma find_snoc_Some {A} (P : A → bool) (l : list A) (x y : A) :
  List.find P l = Some y → List.find P (l ++ [x]) = Some y.
Proof.
  induction l as [|z l IH]; simpl; [done|]. destruct (P z); [done|apply IH].
Qed.

Lemma find_snoc_new {A} (P : A → bool) (l : list A) (x : A) :
  (∀ y, y ∈ l → P y = false) → P x = true → List.find P (l ++ [x]) = Some x.
Proof.
  intros Hl Hx. induction l as [|z l IH]; simpl; [by rewrite Hx|].
  rewrite (Hl z) by apply list_elem_of_here.
  apply IH. intros y Hy. apply Hl. by apply list_elem_of_further.
Qed.

Lemma parseNoi_step_skip (st : list Sym * gset (Z * Z)) (line : string) :
  ¬ keptLine line → parseNoi_step st line = st.
Proof.
  unfold keptLine, parseNoi_step. destruct st as [result usedAddr].
  destruct (isCodeDef line); simpl; [|done].
  destruct (isExcluded line); simpl; [done|]. by intros [].
Qed.

Lemma parseNoi_step_kept (st : list Sym * gset (Z * Z)) (line : string) :
  keptLine line →
  parseNoi_step st line
  = if decide (symKey (lineSym line) ∈ st.2) then st
    else (st.1 ++ [lineSym line], {[symKey (lineSym line)]} ∪ st.2).
Proof.
  unfold keptLine, parseNoi_step. destruct st as [result usedAddr].
  destruct (isCodeDef line); simpl; [|done].
  destruct (isExcluded line); simpl; [done|]. done.
Qed.

Lemma parseNoi_step_firstKept (raw : list Sym) (st : list Sym * gset (Z * Z))
    (line : string) :
  firstKept raw st →
  firstKept (raw ++ (if decide (keptLine line) then [lineSym line] else []))
            (parseNoi_step st line).
Proof.
  intros (Hused & Hnd & Hfirst & Hseen).
  destruct (decide (keptLine line)) as [Hk|Hk].
  2:{ rewrite parseNoi_step_skip, app_nil_r by done. done. }
  rewrite parseNoi_step_kept by done.
  set (s := lineSym line). destruct (decide (symKey s ∈ st.2)) as [Hin|Hout].
  - split; [done|]. split; [done|]. split.
    + intros x Hx. by apply find_snoc_Some, Hfirst.
    + intros x [Hx|Hx%list_elem_of_singleton]%elem_of_app; [by apply Hseen|by subst x].
  - unfold firstKept. cbn [fst snd]. split; [|split; [|split]].
    + intros k. rewrite fmap_app, elem_of_app, elem_of_union, elem_of_singleton.
      rewrite fmap_cons, fmap_nil, list_elem_of_singleton, Hused. tauto.
    + rewrite fmap_app. apply NoDup_app. split; [done|]. split; [|apply NoDup_singleton].
      intros k Hk1 Hk2%list_elem_of_singleton. subst k. by apply Hout, Hused.
    + intros x [Hx|Hx%list_elem_of_singleton]%elem_of_app.
      * by apply find_snoc_Some, Hfirst.
      * subst x. apply find_snoc_new; [|by apply bool_decide_eq_true].
        intros y Hy. apply bool_decide_eq_false. intros Heq.
        apply Hout. rewrite <- Heq. by apply Hseen.
    + intros x [Hx|Hx%list_elem_of_singleton]%elem_of_app; apply elem_of_union.
      * right. by apply Hseen.
      * left. subst x. by apply elem_of_singleton.
Qed.

Lemma parseNoi_loop_firstKept (lines : list string) :
  firstKept (lineSym <$> filter keptLine lines)
            (foldl parseNoi_step ([], ∅) lines).
Proof.
  induction lines as [|line lines IH] using rev_ind.
  - split; [|split; [apply NoDup_nil_2|split]]; simpl.
    + intros k. rewrite elem_of_nil. split; [apply not_elem_of_empty|done].
    + by intros s ?%elem_of_nil.
    + by intros x ?%elem_of_nil.
  - rewrite foldl_snoc, filter_app, fmap_app.
    apply (parseNoi_step_firstKept _ _ line) in IH.
    destruct (decide (keptLine line)).
    + by rewrite filter_cons_True, filter_nil by done.
    + by rewrite filter_cons_False, filter_nil by done.
Qed.

(** C10, as stated, fails: of two records with the same (bank, address)
    the table keeps the first one read, not the last. *)
Lemma C10_last_write_counterexample :
  rawSyms duplicateText = [mkSym "_first" 336 0; mkSym "_second" 336 0]
  ∧ parseNoi duplicateText = [mkSym "_first" 336 0]
  ∧ ¬ (∀ s, s ∈ parseNoi duplicateText →
            List.find (sameKey s) (rev (rawSyms duplicateText)) = Some s).
Proof.
  split; [by vm_compute|]. split; [by vm_compute|].
  intros H. specialize (H (mkSym "_first" 336 0)).
  assert (Hin : mkSym "_first" 336 0 ∈ parseNoi duplicateText).
  { vm_compute. apply list_elem_of_here. }
  specialize (H Hin). vm_compute in H. discriminate H.
Qed.

(** C10, amended: whatever the text, the table holds exactly one record
    for each (bank, address) that occurs among the retained lines, and it
    is the first such record in reading order (first write wins). *)
Theorem C10_first_write_wins (text : string) :
  NoDup (symKey <$> parseNoi text)
  ∧ (∀ x, x ∈ rawSyms text → symKey x ∈ symKey <$> parseNoi text)
  ∧ (∀ s, s ∈ parseNoi text → List.find (sameKey s) (rawSyms text) = Some s).
Proof.
  destruct (parseNoi_loop_firstKept (JS.splitLines text)) as (Hused & Hnd & Hfirst & Hseen).
  unfold parseNoi, rawSyms. split; [done|]. split; [|done].
  intros x Hx. by apply Hused, Hseen.
Qed.

(** ** The region builder *)

Lemma groupPush_keys (s : Sym) (groups : list (Z * list Sym)) (b : Z) :
  b ∈ (groupPush s groups).*1 ↔ b = bank s ∨ b ∈ groups.*1.
Proof.
  induction groups as [|[b' l] groups IH]; simpl.
  - rewrite list_elem_of_singleton, elem_of_nil. tauto.
  - destruct (decide (b' = bank s)) as [->|Hne]; simpl.
    + rewrite elem_of_cons. tauto.
    + rewrite !elem_of_cons, IH. tauto.
Qed.

Lemma groupPush_NoDup (s : Sym) (groups : list (Z * list Sym)) :
  NoDup groups.*1 → NoDup (groupPush s groups).*1.
Proof.
  induction groups as [|[b l] groups IH]; simpl; intros Hnd.
  - apply NoDup_singleton.
  - destruct (decide (b = bank s)) as [->|Hne]; simpl; [done|].
    apply NoDup_cons in Hnd as [Hb Hnd]. apply NoDup_cons. split; [|auto].
    rewrite groupPush_keys. intros [?|?]; done.
Qed.

Lemma groupPush_filter (s : Sym) (noiLookup : list Sym) (groups : list (Z * list Sym)) :
  NoDup groups.*1 →
  Forall (λ g, g.2 = filter (λ x, bank x = g.1) noiLookup) groups →
  (bank s ∉ groups.*1 → filter (λ x, bank x = bank s) noiLookup = []) →
  Forall (λ g, g.2 = filter (λ x, bank x = g.1) (noiLookup ++ [s])) (groupPush s groups).
Proof.
  assert (Hother : ∀ b, b ≠ bank s →
    filter (λ x, bank x = b) (noiLookup ++ [s]) = filter (λ x, bank x = b) noiLookup).
  { intros b Hb. rewrite filter_app, filter_cons_False, filter_nil by done.
    apply app_nil_r. }
  induction groups as [|[b l] groups IH]; simpl; intros Hnd Hall Hnew.
  - constructor; [|constructor]. simpl.
    rewrite filter_app, Hnew by apply not_elem_of_nil.
    by rewrite filter_cons_True, filter_nil.
  - apply NoDup_cons in Hnd as [Hb Hnd]. apply Forall_cons in Hall as [Hl Hall].
    simpl in Hl. destruct (decide (b = bank s)) as [->|Hne].
    + constructor; simpl.
      * by rewrite filter_app, filter_cons_True, filter_nil, Hl.
      * rewrite Forall_forall in Hall. apply Forall_forall. intros g Hg.
        rewrite Hother; [by apply Hall|].
        intros Heq. apply Hb. rewrite <- Heq. by apply list_elem_of_fmap_2.
    + constructor; simpl.
      * by rewrite Hother.
      * apply IH; [done..|]. intros Hs. apply Hnew.
        rewrite elem_of_cons. intros [?|?]; done.
Qed.

Lemma groupByBank_groupsOf (noiLookup : list Sym) :
  groupsOf noiLookup (groupByBank noiLookup).
Proof.
  unfold groupByBank.
  induction noiLookup as [|s noiLookup IH] using rev_ind.
  - split; [apply NoDup_nil_2|]. split; [constructor|]. by intros s ?%elem_of_nil.
  - destruct IH as (Hnd & Hall & Hin). rewrite foldl_snoc.
    split; [by apply groupPush_NoDup|]. split.
    + apply groupPush_filter; [done..|]. intros Hs.
      destruct (filter _ noiLookup) as [|x l] eqn:Hf; [done|].
      assert (Hx : x ∈ filter (λ x, bank x = bank s) noiLookup)
        by (rewrite Hf; apply list_elem_of_here).
      apply list_elem_of_filter in Hx as [Hbx Hx].
      destruct Hs. rewrite <- Hbx. by apply Hin.
    + intros x [Hx|Hx%list_elem_of_singleton]%elem_of_app; apply groupPush_keys.
      * right. by apply Hin.
      * left. by rewrite Hx.
Qed.

(** *** Sorting a bank's symbols *)

Lemma insertByAddr_elem (x y : Sym) (l : list Sym) :
  y ∈ insertByAddr x l ↔ y = x ∨ y ∈ l.
Proof.
  induction l as [|z l IH]; simpl.
  - rewrite list_elem_of_singleton, elem_of_nil. tauto.
  - destruct (addr x <? addr z); rewrite !elem_of_cons; [tauto|].
    rewrite IH. tauto.
Qed.

Lemma insertByAddr_sorted (x : Sym) (l : list Sym) :
  StronglySorted addrBelow l →
  Forall (λ y, addr y ≠ addr x) l →
  StronglySorted addrBelow (insertByAddr x l).
Proof.
  induction 1 as [|z l Hl IH Hz]; simpl; intros Hne.
  - repeat constructor.
  - apply Forall_cons in Hne as [Hzx Hne].
    destruct (Z.ltb_spec (addr x) (addr z)).
    + constructor; [by constructor|]. constructor; [done|].
      eapply Forall_impl; [exact Hz|]. unfold addrBelow. intros; simpl in *; lia.
    + constructor; [by apply IH|].
      apply Forall_forall. intros y [->|Hy]%insertByAddr_elem.
      * unfold addrBelow. lia.
      * rewrite Forall_forall in Hz. by apply Hz.
Qed.

Lemma sortByAddr_elem (x : Sym) (l : list Sym) : x ∈ sortByAddr l ↔ x ∈ l.
Proof.
  unfold sortByAddr. induction l as [|y l IH] using rev_ind; [done|].
  rewrite foldl_snoc, insertByAddr_elem, IH, elem_of_app, list_elem_of_singleton. tauto.
Qed.

Lemma sortByAddr_sorted (l : list Sym) :
  NoDup (addr <$> l) → StronglySorted addrBelow (sortByAddr l).
Proof.
  unfold sortByAddr. induction l as [|y l IH] using rev_ind; intros Hnd.
  - constructor.
  - rewrite fmap_app in Hnd. apply NoDup_app in Hnd as (Hl & Hy & _).
    rewrite foldl_snoc. apply insertByAddr_sorted; [by apply IH|].
    apply Forall_forall. intros z Hz Heq. apply (proj1 (sortByAddr_elem z l)) in Hz.
    apply (Hy (addr z)); [by apply list_elem_of_fmap_2|].
    rewrite Heq. apply list_elem_of_here.
Qed.

(** *** Assigning the ends *)

Lemma assignEnds_fn (addrMax : Z) (sorted : list Sym) :
  fn <$> assignEnds addrMax sorted = sorted.
Proof.
  induction sorted as [|x [|y rest] IH]; [done..|].
  change (assignEnds addrMax (x :: y :: rest))
    with (mkRegion x (Z.min addrMax (addr y - 1)) :: assignEnds addrMax (y :: rest)).
  by rewrite fmap_cons, IH.
Qed.

Lemma assignEnds_sorted (addrMax : Z) (sorted : list Sym) :
  StronglySorted addrBelow sorted →
  StronglySorted endsBefore (assignEnds addrMax sorted).
Proof.
  induction 1 as [|x rest Hrest IH Hx]; [constructor|].
  destruct rest as [|y rest]; [repeat constructor|].
  change (assignEnds addrMax (x :: y :: rest))
    with (mkRegion x (Z.min addrMax (addr y - 1)) :: assignEnds addrMax (y :: rest)).
  constructor; [done|].
  apply Forall_forall. intros r Hr.
  assert (Hfr : fn r ∈ y :: rest).
  { rewrite <- (assignEnds_fn addrMax (y :: rest)). by apply list_elem_of_fmap_2. }
  rewrite Forall_forall in Hx. specialize (Hx _ Hfr).
  apply StronglySorted_inv in Hrest as [_ Hy]. rewrite Forall_forall in Hy.
  unfold endsBefore, addrBelow in *. simpl.
  apply elem_of_cons in Hfr as [->|Hfr]; [lia|]. specialize (Hy _ Hfr). lia.
Qed.

(** No end passes the bank's last address, and a region is non-empty
    exactly when its start does not pass it either. *)
Lemma assignEnds_bounds (addrMax : Z) (sorted : list Sym) :
  StronglySorted addrBelow sorted →
  Forall (λ r, rend r ≤ addrMax ∧ (addr (fn r) ≤ rend r ↔ addr (fn r) ≤ addrMax))
    (assignEnds addrMax sorted).
Proof.
  induction 1 as [|x rest Hrest IH Hx]; [constructor|].
  destruct rest as [|y rest]; [repeat constructor; simpl; lia|].
  change (assignEnds addrMax (x :: y :: rest))
    with (mkRegion x (Z.min addrMax (addr y - 1)) :: assignEnds addrMax (y :: rest)).
  constructor; [|done]. simpl.
  apply Forall_cons in Hx as [Hxy _]. unfold addrBelow in Hxy. lia.
Qed.

(** *** The whole table *)

Lemma StronglySorted_weaken {A} (R1 R2 : relation A) (l : list A) :
  (∀ x y, x ∈ l → y ∈ l → R1 x y → R2 x y) →
  StronglySorted R1 l → StronglySorted R2 l.
Proof.
  intros Himp Hs. induction Hs as [|x l Hl IH Hx]; [constructor|].
  constructor.
  - apply IH. intros y z Hy Hz. apply Himp; by apply list_elem_of_further.
  - apply Forall_forall. intros y Hy. rewrite Forall_forall in Hx.
    apply Himp; [apply list_elem_of_here|by apply list_elem_of_further|by apply Hx].
Qed.

Lemma elem_of_concat {A} (x : A) (ls : list (list A)) :
  x ∈ concat ls ↔ ∃ l, x ∈ l ∧ l ∈ ls.
Proof.
  induction ls as [|k ls IH]; simpl.
  - split; [by intros ?%elem_of_nil|by intros (l & _ & ?%elem_of_nil)].
  - rewrite elem_of_app, IH. split.
    + intros [Hx|(l & Hx & Hl)]; [exists k|exists l]; split; try done.
      * apply list_elem_of_here.
      * by apply list_elem_of_further.
    + intros (l & Hx & [->|Hl]%elem_of_cons); [by left|right; by exists l].
Qed.

Lemma StronglySorted_lookup_lt {A} (R : relation A) (l : list A) (i j : nat) (x y : A) :
  StronglySorted R l → l !! i = Some x → l !! j = Some y → (i < j)%nat → R x y.
Proof.
  intros Hs. revert i j. induction Hs as [|z l Hl IH Hz]; intros i j Hi Hj Hlt.
  - done.
  - destruct j as [|j]; [lia|]. destruct i as [|i]; simpl in *.
    + injection Hi as ->. rewrite Forall_forall in Hz.
      apply Hz. by eapply list_elem_of_lookup_2.
    + apply (IH i j); [done..|lia].
Qed.

Lemma deduplicated_bank_addrs (noiLookup : list Sym) (b : Z) :
  deduplicated noiLookup →
  NoDup (addr <$> filter (λ s, bank s = b) noiLookup).
Proof.
  unfold deduplicated. induction noiLookup as [|s noiLookup IH]; intros Hnd.
  - constructor.
  - rewrite fmap_cons in Hnd. apply NoDup_cons in Hnd as [Hs Hnd].
    destruct (decide (bank s = b)) as [Hb|Hb].
    + rewrite filter_cons_True by done. rewrite fmap_cons. apply NoDup_cons.
      split; [|auto]. intros (x & Hax & [Hbx Hx]%list_elem_of_filter)%list_elem_of_fmap.
      apply Hs. apply list_elem_of_fmap. exists x. split; [|done].
      unfold symKey. congruence.
    + rewrite filter_cons_False by done. auto.
Qed.

Section BuiltRegions.

Variable noiLookup : list Sym.
Hypothesis Hdedup : deduplicated noiLookup.

Lemma bankRegions_sorted (g : Z * list Sym) :
  g.2 = filter (λ s, bank s = g.1) noiLookup →
  StronglySorted addrBelow (sortByAddr g.2).
Proof.
  intros ->. apply sortByAddr_sorted. by apply deduplicated_bank_addrs.
Qed.

Lemma bankRegions_bank (g : Z * list Sym) (r : Region) :
  g.2 = filter (λ s, bank s = g.1) noiLookup →
  r ∈ bankRegions g → bank (fn r) = g.1 ∧ fn r ∈ noiLookup.
Proof.
  intros Hg Hr. unfold bankRegions in Hr.
  assert (Hfr : fn r ∈ sortByAddr g.2).
  { rewrite <- (assignEnds_fn (bankAddrMax g.1)). by apply list_elem_of_fmap_2. }
  apply (proj1 (sortByAddr_elem _ _)) in Hfr. rewrite Hg in Hfr.
  by apply list_elem_of_filter in Hfr.
Qed.

Lemma concat_bankRegions_apart (groups : list (Z * list Sym)) :
  NoDup groups.*1 →
  Forall (λ g, g.2 = filter (λ s, bank s = g.1) noiLookup) groups →
  StronglySorted apartInBank (concat (bankRegions <$> groups)).
Proof.
  induction groups as [|g groups IH]; simpl; intros Hnd Hall; [constructor|].
  apply NoDup_cons in Hnd as [Hg Hnd]. apply Forall_cons in Hall as [Hgl Hall].
  apply StronglySorted_app_2; [| |by apply IH].
  - intros r1 r2 Hr1 Hr2 Hbank. exfalso. apply Hg.
    apply elem_of_concat in Hr2 as (rs & Hr2 & Hrs).
    apply list_elem_of_fmap in Hrs as (g' & -> & Hg').
    rewrite Forall_forall in Hall.
    apply (bankRegions_bank _ _ Hgl) in Hr1 as [Hr1 _].
    apply (bankRegions_bank _ _ (Hall _ Hg')) in Hr2 as [Hr2 _].
    assert (g.1 = g'.1) as -> by congruence.
    by apply list_elem_of_fmap_2.
  - eapply StronglySorted_weaken; [|apply assignEnds_sorted, bankRegions_sorted, Hgl].
    by intros r1 r2 _ _ ? _.
Qed.

Lemma generateFunctionRegions_apart :
  StronglySorted apartInBank (generateFunctionRegions noiLookup).
Proof.
  destruct (groupByBank_groupsOf noiLookup) as (Hnd & Hall & _).
  by apply concat_bankRegions_apart.
Qed.

Lemma generateFunctionRegions_bounds (r : Region) :
  r ∈ generateFunctionRegions noiLookup →
  fn r ∈ noiLookup
  ∧ rend r ≤ bankAddrMax (bank (fn r))
  ∧ (addr (fn r) ≤ rend r ↔ addr (fn r) ≤ bankAddrMax (bank (fn r))).
Proof.
  destruct (groupByBank_groupsOf noiLookup) as (Hnd & Hall & _).
  intros (rs & Hr & Hrs)%elem_of_concat.
  apply list_elem_of_fmap in Hrs as (g & -> & Hg).
  rewrite Forall_forall in Hall. specialize (Hall _ Hg).
  destruct (bankRegions_bank _ _ Hall Hr) as [Hb Hin]. split; [done|].
  rewrite Hb.
  pose proof (assignEnds_bounds (bankAddrMax g.1) _ (bankRegions_sorted _ Hall)) as Hbd.
  rewrite Forall_forall in Hbd. by apply Hbd.
Qed.

End BuiltRegions.

(** C4, as stated, fails: a symbol above its bank's last address (here a
    work-RAM variable at 0xC000, which [parseNoi] files under bank 0)
    gets a region whose end lies before its start. *)
Lemma C4_start_after_end_counterexample :
  let noiLookup := parseNoi "DEF _wram_counter 0xC000" in
  noiLookup = [mkSym "_wram_counter" 49152 0]
  ∧ deduplicated noiLookup
  ∧ ¬ (∀ r, r ∈ generateFunctionRegions noiLookup → addr (fn r) ≤ rend r).
Proof.
  split; [by vm_compute|]. split.
  - vm_compute. apply NoDup_singleton.
  - intros H. specialize (H (mkRegion (mkSym "_wram_counter" 49152 0) 16383)).
    simpl in H. assert (49152 ≤ 16383); [|lia].
    apply H. vm_compute. apply list_elem_of_here.
Qed.

(** C4, amended: for a symbol table deduplicated by (bank, address), two
    distinct regions of the same bank never share an address; no region
    ends after its bank's last address (0x3FFF for bank 0, 0x7FFF
    otherwise); and a region satisfies start ≤ end exactly when its
    symbol's address does not exceed that last address. *)
Theorem C4_regions_disjoint (noiLookup : list Sym) :
  deduplicated noiLookup →
  (∀ i j ri rj,
      i ≠ j →
      generateFunctionRegions noiLookup !! i = Some ri →
      generateFunctionRegions noiLookup !! j = Some rj →
      bank (fn ri) = bank (fn rj) →
      disjointRegions ri rj)
  ∧ (∀ r, r ∈ generateFunctionRegions noiLookup →
       rend r ≤ bankAddrMax (bank (fn r))
       ∧ (addr (fn r) ≤ rend r ↔ addr (fn r) ≤ bankAddrMax (bank (fn r)))).
Proof.
  intros Hdedup. split.
  - intros i j ri rj Hij Hi Hj Hbank x.
    pose proof (generateFunctionRegions_apart _ Hdedup) as Hs.
    destruct (Nat.lt_total i j) as [Hlt|[->|Hlt]]; [|done|].
    + pose proof (StronglySorted_lookup_lt _ _ _ _ _ _ Hs Hi Hj Hlt Hbank) as Hap.
      unfold endsBefore in Hap. lia.
    + pose proof (StronglySorted_lookup_lt _ _ _ _ _ _ Hs Hj Hi Hlt (eq_sym Hbank)) as Hap.
      unfold endsBefore in Hap. lia.
  - intros r Hr. by apply generateFunctionRegions_bounds in Hr as [_ ?].
Qed.

Lemma C4_regions_disjoint_witness :
  deduplicated scenarioSyms
  ∧ ∀ r, r ∈ generateFunctionRegions scenarioSyms →
      rend r ≤ bankAddrMax (bank (fn r)).
Proof.
  assert (Hd : deduplicated scenarioSyms).
  { unfold deduplicated. vm_compute. apply NoDup_cons. split.
    - intros [Heq|Hin%elem_of_nil]%elem_of_cons; [discriminate Heq|done].
    - apply NoDup_singleton. }
  split; [exact Hd|]. intros r Hr.
  by apply (C4_regions_disjoint scenarioSyms Hd).
Defined.

(** ** The region index *)

Lemma buildRegionsByBank_lookup (objs : list RegionObj) (b : Z) :
  default [] (buildRegionsByBank objs !! b) = filter (λ o, rbank o = b) objs.
Proof.
  unfold buildRegionsByBank.
  induction objs as [|o objs IH] using rev_ind; [done|].
  rewrite foldl_snoc, filter_app. unfold addRegion at 1.
  destruct (decide (rbank o = b)) as [<-|Hne].
  - rewrite lookup_insert_eq, filter_cons_True, filter_nil by done. simpl.
    by rewrite IH.
  - rewrite lookup_insert_ne, filter_cons_False, filter_nil, app_nil_r by done.
    apply IH.
Qed.

Lemma searchRegion_filter (objs : list RegionObj) (pc bank : Z) :
  searchRegion (buildRegionsByBank objs) pc bank
  = List.find (inRegion pc)
      (filter (λ o, rbank o = if pc <? 16384 then 0 else bank) objs).
Proof.
  unfold searchRegion. rewrite <- buildRegionsByBank_lookup.
  by destruct (buildRegionsByBank objs !! _).
Qed.

Lemma find_elem_of {A} (P : A → bool) (l : list A) (x : A) :
  List.find P l = Some x → x ∈ l ∧ P x = true.
Proof.
  intros [Hin HP]%find_some. split; [by apply list_elem_of_In|done].
Qed.

Lemma find_unique {A} (P : A → bool) (l : list A) (x : A) :
  x ∈ l → P x = true → (∀ y, y ∈ l → P y = true → y = x) →
  List.find P l = Some x.
Proof.
  intros Hx HP Huniq. destruct (List.find P l) as [y|] eqn:Hf.
  - apply find_elem_of in Hf as [Hy HPy]. f_equal. by apply Huniq.
  - apply list_elem_of_In in Hx. pose proof (find_none _ _ Hf _ Hx). congruence.
Qed.

Section BuiltIndex.

Variable noiLookup : list Sym.
Hypothesis Hdedup : deduplicated noiLookup.
Hypothesis Hbanked : Forall bankedAddress noiLookup.

Local Abbreviation objs := (functionRegions noiLookup).
Local Abbreviation table := (buildRegionsByBank (functionRegions noiLookup)).

Lemma functionRegions_elem (o : RegionObj) :
  o ∈ objs ↔ generateFunctionRegions noiLookup !! o.1 = Some o.2.
Proof.
  unfold functionRegions. rewrite elem_of_lookup_imap. split.
  - by intros (i & r & -> & Hr).
  - intros Hr. exists o.1, o.2. by destruct o.
Qed.

(** Where the regions of a bank lie. *)
Lemma functionRegions_range (o : RegionObj) :
  o ∈ objs →
  if decide (rbank o = 0) then raddr o < 16384 ∧ rlast o ≤ 16383
  else 16384 ≤ raddr o ∧ rlast o ≤ 32767.
Proof.
  intros Ho%functionRegions_elem%list_elem_of_lookup_2.
  apply (generateFunctionRegions_bounds _ Hdedup) in Ho as (Hin & Hend & _).
  rewrite Forall_forall in Hbanked. specialize (Hbanked _ Hin).
  unfold bankedAddress, bankAddrMax, rbank, raddr, rlast in *.
  destruct (decide (bank (fn o.2) = 0)); lia.
Qed.

(** In one bank, one address belongs to one region object at most. *)
Lemma functionRegions_unique (o1 o2 : RegionObj) (pc : Z) :
  o1 ∈ objs → o2 ∈ objs → rbank o1 = rbank o2 →
  inRegion pc o1 = true → inRegion pc o2 = true → o1 = o2.
Proof.
  intros H1%functionRegions_elem H2%functionRegions_elem Hbank Hin1 Hin2.
  unfold inRegion, raddr, rlast, rbank in *.
  apply andb_true_iff in Hin1 as [?%Z.leb_le ?%Z.leb_le].
  apply andb_true_iff in Hin2 as [?%Z.leb_le ?%Z.leb_le].
  pose proof (generateFunctionRegions_apart _ Hdedup) as Hs.
  destruct o1 as [i1 r1], o2 as [i2 r2]; simpl in *.
  destruct (Nat.lt_total i1 i2) as [Hlt|[->|Hlt]].
  - pose proof (StronglySorted_lookup_lt _ _ _ _ _ _ Hs H1 H2 Hlt Hbank) as Hap.
    unfold endsBefore in Hap. lia.
  - congruence.
  - pose proof (StronglySorted_lookup_lt _ _ _ _ _ _ Hs H2 H1 Hlt (eq_sym Hbank)) as Hap.
    unfold endsBefore in Hap. lia.
Qed.

Lemma searchRegion_Some (pc bank : Z) (o : RegionObj) :
  searchRegion table pc bank = Some o ↔
  o ∈ objs ∧ rbank o = (if pc <? 16384 then 0 else bank) ∧ inRegion pc o = true.
Proof.
  rewrite searchRegion_filter. split.
  - intros [[Hb Ho]%list_elem_of_filter Hin]%find_elem_of. done.
  - intros (Ho & Hb & Hin). apply find_unique; [by apply list_elem_of_filter|done|].
    intros o' [Hb' Ho']%list_elem_of_filter Hin'.
    apply (functionRegions_unique o' o pc); congruence.
Qed.

Lemma reachableCache_elem (o : RegionObj) :
  reachableCache table (Some o) → o ∈ objs.
Proof.
  intros H. remember (Some o) as c eqn:Hc. revert o Hc.
  induction H as [|c pc bank o' Hreach IH Hres]; intros o Hc; [done|].
  injection Hc as ->. unfold getCurrentFunctionRegion in Hres.
  destruct c as [o0|].
  - destruct (_ && _).
    + injection Hres as ->. by apply IH.
    + by apply searchRegion_Some in Hres as [? _].
  - by apply searchRegion_Some in Hres as [? _].
Qed.

End BuiltIndex.

(** C5: on the tables built from a table of symbols deduplicated by
    (bank, address), with bank 0 symbols below 0x4000 and the others in
    0x4000..0x7FFF, whatever region an earlier lookup left in the cache,
    the lookup with the cache test returns what the search alone returns;
    and the search returns a region exactly when that region is in the
    applicable bank's list (bank 0 below 0x4000, the mapped bank
    otherwise) and contains pc, so there is one such region at most. *)
Theorem C5_cached_lookup_is_search (noiLookup : list Sym)
    (cache : option RegionObj) (pc bank : Z) :
  let table := buildRegionsByBank (functionRegions noiLookup) in
  deduplicated noiLookup →
  Forall bankedAddress noiLookup →
  reachableCache table cache →
  getCurrentFunctionRegion table cache pc bank = searchRegion table pc bank
  ∧ ∀ o, searchRegion table pc bank = Some o ↔
         ∃ l, table !! (if pc <? 16384 then 0 else bank) = Some l
              ∧ o ∈ l ∧ inRegion pc o = true.
Proof.
  intros table Hdedup Hbanked Hreach. subst table. split.
  - destruct cache as [o|]; [|done]. simpl.
    destruct (inRegion pc o) eqn:Hin; [|done]. simpl.
    destruct (_ || _) eqn:Hcond; [|done].
    symmetry. apply (searchRegion_Some _ Hdedup).
    pose proof (reachableCache_elem _ Hdedup _ Hreach) as Ho.
    split; [done|]. split; [|done].
    pose proof (functionRegions_range _ Hdedup Hbanked _ Ho) as Hr.
    unfold inRegion in Hin. apply andb_true_iff in Hin as [?%Z.leb_le ?%Z.leb_le].
    destruct (Z.ltb_spec pc 16384).
    + destruct (decide (rbank o = 0)); [done|lia].
    + simpl in Hcond. by apply bool_decide_eq_true in Hcond.
  - intros o. rewrite (searchRegion_Some _ Hdedup).
    set (tb := if pc <? 16384 then 0 else bank).
    pose proof (buildRegionsByBank_lookup (functionRegions noiLookup) tb) as Hl.
    split.
    + intros (Ho & Hb & Hin).
      destruct (buildRegionsByBank (functionRegions noiLookup) !! tb) as [l|] eqn:Htb;
        simpl in Hl.
      * exists l. rewrite Hl. split; [done|]. split; [|done]. by apply list_elem_of_filter.
      * exfalso. assert (o ∈ filter (λ o, rbank o = tb) (functionRegions noiLookup))
          by (by apply list_elem_of_filter). rewrite <- Hl in H. by apply elem_of_nil in H.
    + intros (l & Htb & Ho & Hin). rewrite Htb in Hl. simpl in Hl. rewrite Hl in Ho.
      apply list_elem_of_filter in Ho as [? ?]. done.
Qed.

Lemma C5_cached_lookup_is_search_witness :
  let table := buildRegionsByBank (functionRegions scenarioSyms) in
  let main := (0%nat, mkRegion (mkSym "main" 336 0) 511) in
  deduplicated scenarioSyms
  ∧ Forall bankedAddress scenarioSyms
  ∧ reachableCache table (Some main)
  ∧ getCurrentFunctionRegion table (Some main) 512 0 = searchRegion table 512 0.
Proof.
  intros table main.
  assert (Hd : deduplicated scenarioSyms).
  { unfold deduplicated. vm_compute. apply NoDup_cons. split.
    - intros [Heq|Hin%elem_of_nil]%elem_of_cons; [discriminate Heq|done].
    - apply NoDup_singleton. }
  assert (Hb : Forall bankedAddress scenarioSyms).
  { repeat (constructor; [unfold bankedAddress; simpl; lia|]). constructor. }
  assert (Hr : reachableCache table (Some main)).
  { apply (cache_result table None 336 0); [constructor|]. by vm_compute. }
  split; [exact Hd|]. split; [exact Hb|]. split; [exact Hr|].
  exact (proj1 (C5_cached_lookup_is_search scenarioSyms (Some main) 512 0 Hd Hb Hr)).
Defined.

(** ** The tracker, one observation at a time *)

Section TrackerSteps.

Variable regionsByBank : gmap Z (list RegionObj).
Variable noiIndex : gmap string nat.

Local Abbreviation step := (onAfterInstruction regionsByBank noiIndex).
Local Abbreviation lookup t ob :=
  (getCurrentFunctionRegion regionsByBank (currentFnRegion t) (opc ob) (obank ob)).

(** The frames above the topmost one bearing a symbol. *)
Lemma fnStackContains_split (o : RegionObj) (stack : list Frame) :
  fnStackContains o stack = true →
  ∃ above f below,
    stack = above ++ f :: below
    ∧ Forall (λ g, fsymbol g ≠ rsymbol o) above
    ∧ fsymbol f = rsymbol o.
Proof.
  induction stack as [|g stack IH]; simpl; [discriminate|].
  destruct (bool_decide_reflect (fsymbol g = rsymbol o)) as [Heq|Hne]; simpl.
  - intros _. exists [], g, stack. auto.
  - intros H. destruct (IH H) as (above & f & below & -> & Hab & Hf).
    exists (g :: above), f, below. auto.
Qed.


Lemma popLoop_unwind (name : string) (now : Z) (above : list Frame)
    (f : Frame) (below : list Frame) (evs : list Event) :
  Forall (λ g, fsymbol g ≠ name) above →
  fsymbol f = name →
  popLoop noiIndex (Some name) now (above ++ f :: below) evs
  = (f :: below, evs ++ (closeEvent noiIndex now <$> above)).
Proof.
  intros Hab Hf. revert evs.
  induction Hab as [|g above Hg _ IH]; intros evs; simpl.
  - rewrite decide_True by congruence. by rewrite app_nil_r.
  - rewrite decide_False by congruence. rewrite IH. by rewrite <- app_assoc.
Qed.

Lemma popLoop_all (now : Z) (stack : list Frame) (evs : list Event) :
  popLoop noiIndex None now stack evs
  = ([], evs ++ (closeEvent noiIndex now <$> stack)).
Proof.
  revert evs. induction stack as [|g stack IH]; intros evs; simpl.
  - by rewrite app_nil_r.
  - rewrite IH. by rewrite <- app_assoc.
Qed.

(** Below the threshold the callback returns at once. *)
Lemma below_threshold_ignored (t : Tracker) (ob : Obs) :
  opc ob < 336 → step t ob = t.
Proof.
  intros H. unfold onAfterInstruction. by destruct (Z.ltb_spec (opc ob) 336); [|lia].
Qed.

(** An observation that resolves to no region changes nothing at all:
    the early [return] of the callback is taken before the assignment
    [currentFnRegion = null] can be reached. *)
Lemma unresolved_keeps_everything (t : Tracker) (ob : Obs) :
  lookup t ob = None → step t ob = t.
Proof.
  intros H. unfold onAfterInstruction. rewrite H. by destruct (_ <? _).
Qed.

(** C3: an observation that the tracker resolves to a region R other
    than the current one, with pc inside R but not at its start and R's
    symbol on the stack:
    the frames strictly above the topmost frame bearing that symbol are
    popped, each leaving in the trace, in popping order, one event of
    type Close, at the time of the observation, with the frame index
    that [noiIndex] holds for the popped frame's symbol (none for
    ["__proto__"], which a plain object does not hold as a key) and with
    the popped frame's opening time as [start]; that frame is the new
    top, what lies below is untouched, and R becomes the current
    region. *)
Theorem C3_return_unwinds_to_topmost (t : Tracker) (ob : Obs) (R : RegionObj) :
  resolvesTo regionsByBank t ob R →
  Some R ≠ currentFnRegion t →
  opc ob ≠ raddr R →
  fnStackContains R (fnStack t) = true →
  ∃ above f below,
    fnStack t = above ++ f :: below
    ∧ Forall (λ g, fsymbol g ≠ rsymbol R) above
    ∧ fsymbol f = rsymbol R
    ∧ step t ob
      = mkTracker (Some R) (f :: below)
          (events t
           ++ ((λ g, mkEvent EvC (otime ob)
                       (if decide (fsymbol g = "__proto__") then None
                        else noiIndex !! fsymbol g)
                       (Some (fclock g))) <$> above)).
Proof.
  intros [Hpc Hres] Hcur Hmid Hin.
  destruct (fnStackContains_split _ _ Hin) as (above & f & below & Hst & Hab & Hf).
  exists above, f, below. repeat split; try done.
  unfold onAfterInstruction. rewrite Hres.
  destruct (Z.ltb_spec (opc ob) 336); [lia|].
  rewrite decide_False by done.
  destruct (Z.eqb_spec (opc ob) (raddr R)); [done|].
  rewrite Hin. unfold setCurrent, popFrame. simpl.
  rewrite Hst, (popLoop_unwind _ _ _ _ _ _ Hab Hf). done.
Qed.

(** *** What holds of every state the tracker reaches *)




(** *** The trace stays well bracketed *)

Lemma openOccurrences_markParent (stack : list Frame) :
  openOccurrences noiIndex (markParent stack) = openOccurrences noiIndex stack.
Proof. by destruct stack. Qed.

Lemma replay_app (evs1 evs2 : list Event) (opened : list (option nat * Z)) :
  replay (evs1 ++ evs2) opened = replay evs1 opened ≫= replay evs2.
Proof.
  revert opened. induction evs1 as [|e evs1 IH]; intros opened; simpl; [done|].
  destruct (etype e); [apply IH|].
  destruct opened as [|top below]; [done|].
  destruct (decide _); [apply IH|done].
Qed.

Lemma replay_closes (now : Z) (above rest : list Frame) :
  replay (closeEvent noiIndex now <$> above) (openOccurrences noiIndex (above ++ rest))
  = Some (openOccurrences noiIndex rest).
Proof.
  induction above as [|g above IH]; simpl; [done|].
  rewrite decide_True by done. apply IH.
Qed.

Lemma countEvents_app (ty : EventType) (evs1 evs2 : list Event) :
  countEvents ty (evs1 ++ evs2) = (countEvents ty evs1 + countEvents ty evs2)%nat.
Proof. unfold countEvents. by rewrite filter_app, length_app. Qed.

Lemma countEvents_closes (now : Z) (above : list Frame) :
  countEvents EvC (closeEvent noiIndex now <$> above) = length above
  ∧ countEvents EvO (closeEvent noiIndex now <$> above) = 0%nat.
Proof.
  unfold countEvents. induction above as [|g above [IHc IHo]]; [done|].
  rewrite fmap_cons.
  rewrite filter_cons_True by done.
  rewrite filter_cons_False by (simpl; discriminate).
  simpl. by rewrite IHc, IHo.
Qed.

Lemma pushFrame_bracketed (o : RegionObj) (now : Z) (t : Tracker) :
  bracketed noiIndex t → bracketed noiIndex (pushFrame noiIndex o now t).
Proof.
  intros [Hrep Hcnt]. split; simpl.
  - rewrite replay_app, Hrep. simpl. by rewrite openOccurrences_markParent.
  - rewrite !countEvents_app, Hcnt.
    change (countEvents EvO [openEvent noiIndex (rsymbol o) now]) with 1%nat.
    change (countEvents EvC [openEvent noiIndex (rsymbol o) now]) with 0%nat.
    destruct (fnStack t); simpl; lia.
Qed.

Lemma popped_bracketed (c : option RegionObj) (now : Z) (t : Tracker)
    (above rest : list Frame) :
  bracketed noiIndex t → fnStack t = above ++ rest →
  bracketed noiIndex (mkTracker c rest (events t ++ (closeEvent noiIndex now <$> above))).
Proof.
  intros [Hrep Hcnt] Hst. split; simpl.
  - rewrite replay_app, Hrep, Hst. simpl. apply replay_closes.
  - rewrite !countEvents_app, Hcnt, Hst, length_app.
    destruct (countEvents_closes now above) as [-> ->]. lia.
Qed.

Lemma step_bracketed (t : Tracker) (ob : Obs) :
  bracketed noiIndex t → bracketed noiIndex (step t ob).
Proof.
  intros Hinv. unfold onAfterInstruction.
  destruct (_ <? _); [done|].
  destruct (lookup t ob) as [R|]; [|done].
  destruct (decide _); [done|].
  destruct (_ =? _); [by apply (pushFrame_bracketed R (otime ob)) in Hinv|].
  destruct (fnStackContains R (fnStack t)) eqn:Hin;
    [|by apply (pushFrame_bracketed R (otime ob)) in Hinv].
  destruct (fnStackContains_split _ _ Hin) as (above & f & below & Hst & Hab & Hf).
  unfold setCurrent, popFrame; simpl.
  rewrite Hst, (popLoop_unwind _ _ _ _ _ _ Hab Hf). simpl.
  by apply popped_bracketed.
Qed.

Lemma run_bracketed (t : Tracker) (stream : list Obs) :
  bracketed noiIndex t → bracketed noiIndex (run regionsByBank noiIndex t stream).
Proof.
  revert t. induction stream as [|ob stream IH]; intros t Ht; [done|].
  apply IH, step_bracketed, Ht.
Qed.

Lemma finish_bracketed (t : Tracker) (final : Z) :
  bracketed noiIndex t →
  replay (events (finish noiIndex final t)) [] = Some []
  ∧ fnStack (finish noiIndex final t) = []
  ∧ countEvents EvO (events (finish noiIndex final t))
    = countEvents EvC (events (finish noiIndex final t)).
Proof.
  intros Hinv. unfold finish, popFrame. simpl. rewrite popLoop_all. simpl.
  destruct (popped_bracketed None final t (fnStack t) [] Hinv) as [Hrep Hcnt].
  { by rewrite app_nil_r. }
  simpl in *. rewrite Hcnt. split; [done|]. split; [done|lia].
Qed.

(** C2: whatever the observation stream, once the run ends with the
    forced close of the frames still open (at any final time), the trace
    has as many Open as Close events, and replaying it never meets a
    Close without its own occurrence on top of the open ones (same frame
    index, opened at the time the Close records); nothing stays open. *)
Theorem C2_finished_trace_balanced (stream : list Obs) (final : Z) :
  let t := finish noiIndex final (run regionsByBank noiIndex initTracker stream) in
  countEvents EvO (events t) = countEvents EvC (events t)
  ∧ replay (events t) [] = Some []
  ∧ fnStack t = [].
Proof.
  intros t.
  assert (Hinv : bracketed noiIndex (run regionsByBank noiIndex initTracker stream))
    by (by apply run_bracketed).
  destruct (finish_bracketed _ final Hinv) as (Hrep & Hstack & Hcnt).
  by repeat split.
Qed.

End TrackerSteps.

Lemma C3_return_unwinds_to_topmost_witness :
  let table := buildRegionsByBank (functionRegions scenarioSyms) in
  let index := buildNoiIndex scenarioSyms in
  let t := trackerRun scenarioSyms [mkObs 336 0 0; mkObs 512 0 10] in
  let ob := mkObs 337 0 20 in
  let main := (0%nat, mkRegion (mkSym "main" 336 0) 511) in
  (resolvesTo table t ob main
   ∧ Some main ≠ currentFnRegion t
   ∧ opc ob ≠ raddr main
   ∧ fnStackContains main (fnStack t) = true)
  ∧ ∃ above f below,
      fnStack t = above ++ f :: below
      ∧ Forall (λ g, fsymbol g ≠ rsymbol main) above
      ∧ fsymbol f = rsymbol main
      ∧ onAfterInstruction table index t ob
        = mkTracker (Some main) (f :: below)
            (events t
             ++ ((λ g, mkEvent EvC (otime ob)
                         (if decide (fsymbol g = "__proto__") then None
                          else index !! fsymbol g)
                         (Some (fclock g))) <$> above)).
Proof.
  intros table index t ob main.
  assert (H1 : resolvesTo table t ob main).
  { split; [simpl; lia|vm_compute; reflexivity]. }
  assert (H3 : Some main ≠ currentFnRegion t) by (vm_compute; discriminate).
  assert (H4 : opc ob ≠ raddr main) by (vm_compute; discriminate).
  assert (H5 : fnStackContains main (fnStack t) = true) by (vm_compute; reflexivity).
  split; [exact (conj H1 (conj H3 (conj H4 H5)))|].
  exact (C3_return_unwinds_to_topmost table index t ob main H1 H3 H4 H5).
Defined.


(** ** Leaving the known regions *)

(** C8, on the code: after [main] has been entered (0x150, bank 0), an
    observation at 0x4000 with bank 1 mapped, where no symbol lives,
    resolves to no region and is above the ignore threshold; the tracker
    keeps stack and events, and its current region is still [main], not
    none. *)
Theorem C8_unresolved_keeps_current_region :
  let table := buildRegionsByBank (functionRegions scenarioSyms) in
  let index := buildNoiIndex scenarioSyms in
  let before := trackerRun scenarioSyms [mkObs 336 0 0] in
  let ob := mkObs 16384 1 5 in
  336 ≤ opc ob
  ∧ getCurrentFunctionRegion table (currentFnRegion before) (opc ob) (obank ob) = None
  ∧ onAfterInstruction table index before ob = before
  ∧ currentFnRegion (onAfterInstruction table index before ob)
    = Some (0%nat, mkRegion (mkSym "main" 336 0) 511)
  ∧ currentFnRegion (onAfterInstruction table index before ob) ≠ None.
Proof.
  repeat split; by vm_compute.
Qed.

(** ** What the recorded trace looks like *)

Section TrackerTraces.

Variable regionsByBank : gmap Z (list RegionObj).
Variable noiIndex : gmap string nat.

Local Abbreviation step := (onAfterInstruction regionsByBank noiIndex).

(** While the cached region still holds pc, nothing happens: a call of
    a function to itself, which lands on its own start address, is not
    seen. *)
Lemma same_region_is_ignored (t : Tracker) (ob : Obs) (R : RegionObj) :
  currentFnRegion t = Some R →
  inRegion (opc ob) R = true →
  opc ob < 16384 ∨ rbank R = obank ob →
  step t ob = t.
Proof.
  intros Hcur Hin Hbank. unfold onAfterInstruction, getCurrentFunctionRegion.
  destruct (_ <? _); [done|]. rewrite Hcur, Hin. simpl.
  assert ((opc ob <? 16384) || bool_decide (rbank R = obank ob) = true) as ->.
  { apply orb_true_iff. destruct Hbank; [left; by apply Z.ltb_lt|right].
    by apply bool_decide_eq_true. }
  by rewrite decide_True.
Qed.

(** Landing on the first address of a region other than the current
    one is a call: a frame is pushed, whatever the stack holds. *)
Lemma call_at_start_pushes (t : Tracker) (ob : Obs) (R : RegionObj) :
  resolvesTo regionsByBank t ob R →
  Some R ≠ currentFnRegion t →
  opc ob = raddr R →
  step t ob = setCurrent R (pushFrame noiIndex R (otime ob) t).
Proof.
  intros [Hpc Hres] Hcur Hstart. unfold onAfterInstruction. rewrite Hres.
  destruct (Z.ltb_spec (opc ob) 336); [lia|].
  rewrite decide_False by done. by rewrite Hstart, Z.eqb_refl.
Qed.

(** The events of one observation all bear its time. *)
Lemma step_events (t : Tracker) (ob : Obs) :
  ∃ new, events (step t ob) = events t ++ new
         ∧ Forall (λ e, eat e = otime ob) new.
Proof.
  assert (Hpush : ∀ R, ∃ new,
    events (setCurrent R (pushFrame noiIndex R (otime ob) t)) = events t ++ new
    ∧ Forall (λ e, eat e = otime ob) new).
  { intros R. eexists. split; [done|]. by repeat constructor. }
  unfold onAfterInstruction.
  destruct (_ <? _); [exists []; by rewrite app_nil_r|].
  destruct (getCurrentFunctionRegion _ _ _ _) as [R|];
    [|exists []; by rewrite app_nil_r].
  destruct (decide _); [exists []; by rewrite app_nil_r|].
  destruct (_ =? _); [apply Hpush|].
  destruct (fnStackContains R (fnStack t)) eqn:Hin; [|apply Hpush].
  destruct (fnStackContains_split _ _ Hin) as (above & f & below & Hst & Hab & Hf).
  unfold setCurrent, popFrame; simpl.
  rewrite Hst, (popLoop_unwind _ _ _ _ _ _ _ Hab Hf). simpl.
  eexists. split; [done|]. apply Forall_fmap, Forall_forall. done.
Qed.

Lemma nonDecreasing_app (evs new : list Event) (now : Z) :
  nonDecreasing evs →
  Forall (λ e, eat e ≤ now) evs →
  Forall (λ e, eat e = now) new →
  nonDecreasing (evs ++ new) ∧ Forall (λ e, eat e ≤ now) (evs ++ new).
Proof.
  unfold nonDecreasing. intros Hs Hle Hnew. split.
  - rewrite fmap_app. apply StronglySorted_app_2.
    + intros x y (e & -> & He)%list_elem_of_fmap (e' & -> & He')%list_elem_of_fmap.
      rewrite Forall_forall in Hle, Hnew.
      specialize (Hle _ He). specialize (Hnew _ He'). lia.
    + done.
    + clear Hs Hle. induction Hnew as [|e new He Hnew IH]; [constructor|].
      rewrite fmap_cons. constructor; [done|].
      apply Forall_fmap. eapply Forall_impl; [exact Hnew|]. simpl. intros; lia.
  - apply Forall_app. split; [done|].
    eapply Forall_impl; [exact Hnew|]. simpl. intros; lia.
Qed.

(** Observations delivered in time order leave a trace in time order. *)
Lemma run_nonDecreasing (t : Tracker) (stream : list Obs) :
  StronglySorted Z.le (otime <$> stream) →
  nonDecreasing (events t) →
  Forall (λ e, Forall (λ ob, eat e ≤ otime ob) stream) (events t) →
  nonDecreasing (events (run regionsByBank noiIndex t stream)).
Proof.
  revert t. induction stream as [|ob stream IH]; intros t Hsorted Hevs Hle; [done|].
  rewrite fmap_cons in Hsorted. apply StronglySorted_inv in Hsorted as [Hsorted Hob].
  simpl. destruct (step_events t ob) as (new & Hstep & Hnew).
  destruct (nonDecreasing_app (events t) new (otime ob)) as [Hs' Hle']; [done| |done|].
  { eapply Forall_impl; [exact Hle|]. simpl. by intros e [? _]%Forall_cons. }
  apply IH; [done|by rewrite Hstep|]. rewrite Hstep.
  eapply Forall_impl; [exact Hle'|]. simpl. intros e He.
  rewrite Forall_fmap in Hob. eapply Forall_impl; [exact Hob|]. simpl. intros; lia.
Qed.

End TrackerTraces.

Lemma trackerRun_nonDecreasing (noiLookup : list Sym) (stream : list Obs) :
  StronglySorted Z.le (otime <$> stream) →
  nonDecreasing (events (trackerRun noiLookup stream)).
Proof.
  intros Hsorted. apply run_nonDecreasing; [done|constructor..].
Qed.

Section IndexedTraces.

Variable regionsByBank : gmap Z (list RegionObj).
Variable noiIndex : gmap string nat.
Variable frames : list string.

Hypothesis Hregions :
  ∀ b l o, regionsByBank !! b = Some l → o ∈ l →
           indexed noiIndex frames (rsymbol o).

Lemma popLoop_indexed (target : option string) (now : Z)
    (stack : list Frame) (evs : list Event) :
  validFrames frames evs →
  Forall (λ f, indexed noiIndex frames (fsymbol f)) stack →
  validFrames frames (popLoop noiIndex target now stack evs).2
  ∧ Forall (λ f, indexed noiIndex frames (fsymbol f))
      (popLoop noiIndex target now stack evs).1.
Proof.
  intros Hevs Hst. revert evs Hevs.
  induction Hst as [|f stack Hf Hst IH]; intros evs Hevs; simpl; [done|].
  destruct (decide _); simpl; [by split; [|constructor]|].
  apply IH. apply Forall_app. split; [done|]. by repeat constructor.
Qed.

Lemma step_allIndexed (t : Tracker) (ob : Obs) :
  allIndexed noiIndex frames t →
  allIndexed noiIndex frames (onAfterInstruction regionsByBank noiIndex t ob).
Proof.
  intros (Hevs & Hst & Hcur).
  assert (Hpush : ∀ R, indexed noiIndex frames (rsymbol R) →
    allIndexed noiIndex frames (setCurrent R (pushFrame noiIndex R (otime ob) t))).
  { intros R HR. split; [|split]; simpl.
    - apply Forall_app. split; [done|]. by repeat constructor.
    - constructor; [done|]. destruct Hst; simpl; by constructor.
    - by intros ? [= <-]. }
  unfold onAfterInstruction. destruct (_ <? _); [done|].
  destruct (getCurrentFunctionRegion _ _ _ _) as [R|] eqn:Hres; [|done].
  assert (HR : indexed noiIndex frames (rsymbol R)).
  { unfold getCurrentFunctionRegion, searchRegion in Hres.
    assert (Hsearch : ∀ b, match regionsByBank !! b with
                           | Some l => List.find (inRegion (opc ob)) l
                           | None => None
                           end = Some R → indexed noiIndex frames (rsymbol R)).
    { intros b Hb. destruct (regionsByBank !! b) as [l|] eqn:Hl; [|done].
      apply find_some in Hb as [Hin _]. apply list_elem_of_In in Hin.
      by eapply Hregions. }
    destruct (currentFnRegion t) as [o|]; [|by eapply Hsearch].
    destruct (_ && _); [|by eapply Hsearch].
    injection Hres as <-. by apply Hcur. }
  destruct (decide _); [done|].
  destruct (_ =? _); [by apply Hpush|].
  destruct (fnStackContains R (fnStack t)); [|by apply Hpush].
  destruct (popLoop_indexed (Some (rsymbol R)) (otime ob) _ _ Hevs Hst) as [? ?].
  split; [|split]; simpl; [done..|]. by intros ? [= <-].
Qed.

Lemma run_allIndexed (t : Tracker) (stream : list Obs) :
  allIndexed noiIndex frames t →
  allIndexed noiIndex frames (run regionsByBank noiIndex t stream).
Proof.
  revert t. induction stream as [|ob stream IH]; intros t Ht; [done|].
  apply IH, step_allIndexed, Ht.
Qed.

Lemma finish_validFrames (t : Tracker) (final : Z) :
  allIndexed noiIndex frames t →
  validFrames frames (events (finish noiIndex final t)).
Proof.
  intros (Hevs & Hst & _). by apply popLoop_indexed.
Qed.

End IndexedTraces.

(** *** The tables built from a symbol table *)

Lemma buildNoiIndex_snoc (noiLookup : list Sym) (s : Sym) :
  buildNoiIndex (noiLookup ++ [s])
  = <[symbol s := length noiLookup]> (buildNoiIndex noiLookup).
Proof.
  unfold buildNoiIndex. rewrite imap_app, foldl_app. simpl.
  by rewrite Nat.add_0_r.
Qed.

Lemma buildNoiIndex_lookup (noiLookup : list Sym) (s : Sym) :
  s ∈ noiLookup →
  ∃ i s', buildNoiIndex noiLookup !! symbol s = Some i
          ∧ noiLookup !! i = Some s' ∧ symbol s' = symbol s.
Proof.
  induction noiLookup as [|x noiLookup IH] using rev_ind; [by intros ?%elem_of_nil|].
  intros Hs. rewrite buildNoiIndex_snoc.
  destruct (decide (symbol x = symbol s)) as [Heq|Hne].
  - exists (length noiLookup), x. rewrite Heq, lookup_insert_eq.
    split; [done|]. split; [|done]. by rewrite lookup_app_r, Nat.sub_diag.
  - apply elem_of_app in Hs as [Hs|Hs%list_elem_of_singleton]; [|by subst].
    destruct (IH Hs) as (i & s' & Hi & Hs' & Hsym). exists i, s'.
    rewrite lookup_insert_ne by done. split; [done|]. split; [|done].
    by apply lookup_app_l_Some.
Qed.

Lemma generateFunctionRegions_fn (noiLookup : list Sym) (r : Region) :
  r ∈ generateFunctionRegions noiLookup → fn r ∈ noiLookup.
Proof.
  destruct (groupByBank_groupsOf noiLookup) as (_ & Hall & _).
  intros (rs & Hr & Hrs)%elem_of_concat.
  apply list_elem_of_fmap in Hrs as (g & -> & Hg).
  rewrite Forall_forall in Hall.
  by destruct (bankRegions_bank noiLookup g r (Hall _ Hg) Hr).
Qed.

Lemma functionRegions_indexed (noiLookup : list Sym) (b : Z)
    (l : list RegionObj) (o : RegionObj) :
  Forall (λ s, symbol s ≠ "__proto__") noiLookup →
  buildRegionsByBank (functionRegions noiLookup) !! b = Some l →
  o ∈ l →
  indexed (buildNoiIndex noiLookup) (sharedFrames noiLookup) (rsymbol o).
Proof.
  intros Hproto Hl Ho.
  pose proof (buildRegionsByBank_lookup (functionRegions noiLookup) b) as Hb.
  rewrite Hl in Hb. simpl in Hb. rewrite Hb in Ho.
  apply list_elem_of_filter in Ho as [_ Ho].
  unfold functionRegions in Ho. apply elem_of_lookup_imap in Ho as (i & r & -> & Hr).
  apply list_elem_of_lookup_2, generateFunctionRegions_fn in Hr.
  destruct (buildNoiIndex_lookup _ _ Hr) as (j & s' & Hj & Hs' & Hsym).
  rewrite Forall_forall in Hproto. specialize (Hproto _ Hr).
  unfold indexed, noiIndexGet, rsymbol. simpl. rewrite decide_False by done.
  rewrite Hj. simpl. unfold sharedFrames. rewrite list_lookup_fmap, Hs'. by eexists.
Qed.

Lemma trackerRun_allIndexed (noiLookup : list Sym) (stream : list Obs) :
  Forall (λ s, symbol s ≠ "__proto__") noiLookup →
  allIndexed (buildNoiIndex noiLookup) (sharedFrames noiLookup)
    (trackerRun noiLookup stream).
Proof.
  intros Hproto. apply run_allIndexed.
  - intros b l o. by apply functionRegions_indexed.
  - split; [constructor|]. split; [constructor|done].
Qed.

(** What the tracker records refers to the frame table, as long as no
    symbol bears the one name a plain object cannot hold as a key. *)
Lemma trackerRun_validFrames (noiLookup : list Sym) (stream : list Obs) (final : Z) :
  Forall (λ s, symbol s ≠ "__proto__") noiLookup →
  validFrames (sharedFrames noiLookup) (events (trackerRun noiLookup stream))
  ∧ validFrames (sharedFrames noiLookup)
      (events (trackerFinish noiLookup final (trackerRun noiLookup stream))).
Proof.
  intros Hproto.
  pose proof (trackerRun_allIndexed noiLookup stream Hproto) as Hall.
  split; [apply Hall|]. by apply finish_validFrames.
Qed.

(** ** Frames are closed from the top down *)

Section ClosingOrder.

Variable regionsByBank : gmap Z (list RegionObj).
Variable noiIndex : gmap string nat.

Local Abbreviation step := (onAfterInstruction regionsByBank noiIndex).

(** The three things one observation can do. *)
Lemma step_cases (t : Tracker) (ob : Obs) :
  step t ob = t
  ∨ (∃ R, step t ob = setCurrent R (pushFrame noiIndex R (otime ob) t))
  ∨ (∃ R above f below,
       fnStack t = above ++ f :: below
       ∧ step t ob
         = mkTracker (Some R) (f :: below)
             (events t ++ (closeEvent noiIndex (otime ob) <$> above))).
Proof.
  unfold onAfterInstruction. destruct (_ <? _); [by left|].
  destruct (getCurrentFunctionRegion _ _ _ _) as [R|]; [|by left].
  destruct (decide _); [by left|].
  destruct (_ =? _); [right; left; by exists R|].
  destruct (fnStackContains R (fnStack t)) eqn:Hin; [|right; left; by exists R].
  destruct (fnStackContains_split _ _ Hin) as (above & f & below & Hst & Hab & Hf).
  right; right. exists R, above, f, below. split; [done|].
  unfold setCurrent, popFrame; simpl.
  by rewrite Hst, (popLoop_unwind _ _ _ _ _ _ _ Hab Hf).
Qed.

Lemma closes_markParent (cs : list Event) (stack : list Frame) :
  Forall2 (closes noiIndex) cs (markParent stack) →
  Forall2 (closes noiIndex) cs stack.
Proof.
  destruct stack as [|parent rest]; [done|]. simpl.
  intros (c & cs' & [now ->] & Hrest & ->)%Forall2_cons_inv_r.
  constructor; [by exists now|done].
Qed.

(** Whatever follows, the frames on the stack are closed from the top
    down: their Close events appear in the rest of the trace in stack
    order. *)
Lemma run_closes_in_stack_order (t : Tracker) (stream : list Obs) (final : Z) :
  ∃ new cs,
    events (finish noiIndex final (run regionsByBank noiIndex t stream))
    = events t ++ new
    ∧ Forall2 (closes noiIndex) cs (fnStack t)
    ∧ cs `sublist_of` new.
Proof.
  revert t. induction stream as [|ob stream IH]; intros t.
  - exists (closeEvent noiIndex final <$> fnStack t),
           (closeEvent noiIndex final <$> fnStack t).
    split; [|split; [|done]].
    + unfold finish, popFrame. simpl. by rewrite popLoop_all.
    + apply Forall2_fmap_l, Forall_Forall2_diag, Forall_forall.
      intros f _. by exists final.
  - simpl. destruct (IH (step t ob)) as (new & cs & Hev & Hcs & Hsub).
    destruct (step_cases t ob) as [Heq|[(R & Heq)|(R & above & f & below & Hst & Heq)]];
      rewrite Heq in Hev, Hcs |- *; simpl in Hev, Hcs.
    + by exists new, cs.
    + apply Forall2_cons_inv_r in Hcs as (c & cs' & _ & Hcs' & ->).
      exists (openEvent noiIndex (rsymbol R) (otime ob) :: new), cs'.
      split; [by rewrite Hev, <- app_assoc|].
      split; [by apply closes_markParent|].
      apply sublist_cons. etrans; [|exact Hsub]. by apply sublist_cons.
    + exists ((closeEvent noiIndex (otime ob) <$> above) ++ new),
             ((closeEvent noiIndex (otime ob) <$> above) ++ cs).
      split; [by rewrite Hev, <- app_assoc|]. split.
      * rewrite Hst. apply Forall2_app; [|done].
        apply Forall2_fmap_l, Forall_Forall2_diag, Forall_forall.
        intros g _. by exists (otime ob).
      * by apply sublist_app.
Qed.

End ClosingOrder.

(** ** Times

    What holds of the times when the observations come in time order. *)

Section TrackerTimes.

Variable regionsByBank : gmap Z (list RegionObj).
Variable noiIndex : gmap string nat.

Local Abbreviation step := (onAfterInstruction regionsByBank noiIndex).

Lemma timely_mono (now now' : Z) (t : Tracker) :
  now ≤ now' → timely now t → timely now' t.
Proof.
  intros Hle (He & Hf & Hs & Hc). split; [|split; [|done]].
  - eapply Forall_impl; [exact He|]. simpl. intros; lia.
  - eapply Forall_impl; [exact Hf|]. simpl. intros; lia.
Qed.

Lemma timely_closes (now : Z) (c : option RegionObj) (t : Tracker)
    (above rest : list Frame) :
  timely now t → fnStack t = above ++ rest →
  timely now (mkTracker c rest (events t ++ (closeEvent noiIndex now <$> above))).
Proof.
  intros (He & Hf & Hs & Hc) Hst. rewrite Hst in Hf. apply Forall_app in Hf as [Hfa Hfr].
  assert (Hnew : Forall (λ e, eat e = now) (closeEvent noiIndex now <$> above)).
  { apply Forall_fmap, Forall_forall. done. }
  destruct (nonDecreasing_app _ _ now Hs He Hnew) as [Hs' He'].
  split; [done|]. split; [done|]. split; [done|]. simpl.
  apply Forall_app. split; [done|]. apply Forall_fmap.
  eapply Forall_impl; [exact Hfa|]. done.
Qed.

Lemma timely_push (now : Z) (R : RegionObj) (t : Tracker) :
  timely now t → timely now (setCurrent R (pushFrame noiIndex R now t)).
Proof.
  intros (He & Hf & Hs & Hc).
  assert (Hnew : Forall (λ e, eat e = now) [openEvent noiIndex (rsymbol R) now])
    by (by repeat constructor).
  destruct (nonDecreasing_app _ _ now Hs He Hnew) as [Hs' He'].
  split; [done|]. split; [|split; [done|]]; simpl.
  - constructor; [simpl; lia|]. destruct Hf; simpl; by constructor.
  - apply Forall_app. split; [done|]. by repeat constructor.
Qed.

Lemma step_timely (now : Z) (t : Tracker) (ob : Obs) :
  now ≤ otime ob → timely now t → timely (otime ob) (step t ob).
Proof.
  intros Hle Ht%(timely_mono _ _ _ Hle).
  destruct (step_cases regionsByBank noiIndex t ob)
    as [->|[(R & ->)|(R & above & f & below & Hst & ->)]]; [done| |].
  - by apply timely_push.
  - by apply timely_closes.
Qed.

Lemma run_timely (now final : Z) (t : Tracker) (stream : list Obs) :
  StronglySorted Z.le (now :: (otime <$> stream) ++ [final]) →
  timely now t →
  timely final (run regionsByBank noiIndex t stream).
Proof.
  revert now t. induction stream as [|ob stream IH]; intros now t Hsorted Ht; simpl in *.
  - apply StronglySorted_inv in Hsorted as [_ Hle].
    apply Forall_cons in Hle as [Hle _]. by apply (timely_mono now).
  - apply StronglySorted_inv in Hsorted as [Hsorted Hle].
    apply Forall_cons in Hle as [Hle _].
    apply (IH (otime ob)); [done|]. by apply (step_timely now).
Qed.

Lemma finish_events (final : Z) (t : Tracker) :
  events (finish noiIndex final t)
  = events t ++ (closeEvent noiIndex final <$> fnStack t).
Proof. unfold finish, popFrame. simpl. by rewrite popLoop_all. Qed.

Lemma finish_timely (final : Z) (t : Tracker) :
  timely final t → timely final (finish noiIndex final t).
Proof.
  intros Ht. unfold finish, popFrame. simpl. rewrite popLoop_all. simpl.
  apply timely_closes; [done|]. by rewrite app_nil_r.
Qed.

Lemma timely_init (now : Z) : timely now initTracker.
Proof. split; [constructor|]. split; [constructor|]. split; constructor. Qed.

Lemma finished_timely (stream : list Obs) (final : Z) :
  StronglySorted Z.le ((otime <$> stream) ++ [final]) →
  timely final (finish noiIndex final (run regionsByBank noiIndex initTracker stream)).
Proof.
  intros Hsorted. apply finish_timely.
  destruct stream as [|ob stream].
  - apply timely_init.
  - apply (run_timely (otime ob)); [|apply timely_init].
    rewrite fmap_cons in *. simpl in *.
    constructor; [done|]. apply StronglySorted_inv in Hsorted as [_ Hle].
    constructor; [lia|done].
Qed.

End TrackerTimes.

(** ** The window aggregator *)

(** *** One interval, two adjacent windows *)

Lemma contribution_split (a : Active) (wstart mid wend : Z) :
  goodInterval a → wstart ≤ mid ≤ wend →
  contribution wstart mid a + contribution mid wend a = contribution wstart wend a.
Proof.
  unfold goodInterval, contribution, overlaps, duration, extGt, extMin.
  destruct a as [s [e|] k]; simpl; intros Hgood Hwin.
  - destruct (Z.ltb_spec wstart e), (Z.ltb_spec s mid), (Z.ltb_spec mid e),
      (Z.ltb_spec s wend); simpl; lia.
  - destruct (Z.ltb_spec s mid), (Z.ltb_spec s wend); simpl; lia.
Qed.

Lemma totalFor_split (frames : list string) (name : string) (acts : list Active)
    (wstart mid wend : Z) :
  Forall goodInterval acts → wstart ≤ mid ≤ wend →
  totalFor frames name wstart mid acts + totalFor frames name mid wend acts
  = totalFor frames name wstart wend acts.
Proof.
  intros Hgood Hwin. induction Hgood as [|a acts Ha _ IH]; simpl; [done|].
  pose proof (contribution_split a wstart mid wend Ha Hwin).
  destruct (decide _); lia.
Qed.

(** *** The per-frame stacks *)

Lemma framePush_forall (P : option nat → Z → Prop) (k : option nat) (t : Z)
    (stack : list (option nat * list Z)) :
  stackForall P stack → P k t → stackForall P (framePush k t stack).
Proof.
  unfold stackForall. intros Hst Hk.
  induction Hst as [|[k' ts] stack Hts Hst IH]; simpl.
  - constructor; [|constructor]. simpl. by constructor.
  - destruct (decide (k' = k)) as [->|Hne].
    + constructor; [|done]. simpl in *. by constructor.
    + destruct (keyBefore k k').
      * constructor; [simpl; by constructor|]. by constructor.
      * by constructor.
Qed.

Lemma framePop_forall (P : option nat → Z → Prop) (k : option nat) (t : Z)
    (stack stack' : list (option nat * list Z)) :
  framePop k stack = Some (t, stack') →
  stackForall P stack → P k t ∧ stackForall P stack'.
Proof.
  unfold stackForall. intros Hpop Hst. revert stack' Hpop.
  induction Hst as [|[k' ts] stack Hts Hst IH]; simpl; intros stack' Hpop; [done|].
  destruct (decide (k' = k)) as [->|Hne].
  - destruct ts as [|t' ts]; [done|]. injection Hpop as <- <-.
    apply Forall_cons in Hts as [Ht Hts]. split; [done|]. by constructor.
  - destruct (framePop k stack) as [[t' rest']|]; [|done]. injection Hpop as <- <-.
    destruct (IH _ eq_refl) as [Ht Hrest]. split; [done|]. by constructor.
Qed.

Lemma ongoing_forall (Q : Active → Prop) (stack : list (option nat * list Z)) :
  stackForall (λ k t, Q (mkActive t Inf k)) stack → Forall Q (ongoing stack).
Proof.
  unfold stackForall, ongoing. induction 1 as [|[k ts] stack Hts _ IH]; simpl.
  - constructor.
  - apply Forall_app. split; [|done].
    apply Forall_fmap, Forall_forall. intros t Ht.
    apply list_elem_of_In, in_rev, list_elem_of_In in Ht.
    rewrite Forall_forall in Hts. by apply Hts.
Qed.

(** Every interval carries the frame of an event, every pending time its
    key's: whatever holds of all frames that occur holds of the result. *)
Lemma matchEvents_frames (P : option nat → Prop) (evs : list Event)
    (stack : list (option nat * list Z)) (active : list Active) :
  Forall (λ e, P (eframe e)) evs →
  stackForall (λ k _, P k) stack →
  Forall (λ a, P (aframe a)) active →
  stackForall (λ k _, P k) (matchEvents evs stack active).1
  ∧ Forall (λ a, P (aframe a)) (matchEvents evs stack active).2.
Proof.
  intros Hevs. revert stack active.
  induction Hevs as [|e evs He _ IH]; intros stack active Hst Hact; simpl; [done|].
  destruct (etype e).
  - apply IH; [|done]. by apply framePush_forall.
  - destruct (framePop (eframe e) stack) as [[t stack']|] eqn:Hpop; [|by apply IH].
    destruct (framePop_forall _ _ _ _ _ Hpop Hst) as [_ Hst'].
    apply IH; [done|]. apply Forall_app. split; [done|]. by repeat constructor.
Qed.

Lemma activeEvents_frames (P : option nat → Prop) (evs : list Event) :
  Forall (λ e, P (eframe e)) evs →
  Forall (λ a, P (aframe a)) (activeEvents evs).
Proof.
  intros Hevs. unfold activeEvents.
  destruct (matchEvents_frames P evs [] [] Hevs) as [Hst Hact]; [constructor..|].
  apply Forall_app. split; [done|]. by apply ongoing_forall.
Qed.

(** With non-decreasing times, a Close never precedes the Open it meets. *)
Lemma matchEvents_good (evs : list Event)
    (stack : list (option nat * list Z)) (active : list Active) :
  nonDecreasing evs →
  stackForall (λ _ t, Forall (λ e, t ≤ eat e) evs) stack →
  Forall goodInterval active →
  Forall goodInterval (matchEvents evs stack active).2.
Proof.
  unfold nonDecreasing. revert stack active.
  induction evs as [|e evs IH]; intros stack active Hsorted Hst Hact; simpl; [done|].
  rewrite fmap_cons in Hsorted. apply StronglySorted_inv in Hsorted as [Hsorted He].
  assert (Hst' : stackForall (λ _ t, Forall (λ e, t ≤ eat e) evs) stack).
  { unfold stackForall in *. eapply Forall_impl; [exact Hst|]. intros p Hp.
    eapply Forall_impl; [exact Hp|]. simpl. by intros t [_ ?]%Forall_cons. }
  destruct (etype e).
  - apply IH; [done| |done]. apply framePush_forall; [done|].
    rewrite Forall_fmap in He. exact He.
  - destruct (framePop (eframe e) stack) as [[t stack']|] eqn:Hpop; [|by apply IH].
    destruct (framePop_forall _ _ _ _ _ Hpop Hst) as [Ht _].
    destruct (framePop_forall _ _ _ _ _ Hpop Hst') as [_ Hst''].
    apply IH; [done..|]. apply Forall_app. split; [done|].
    repeat constructor. unfold goodInterval. simpl. by apply Forall_cons in Ht as [? _].
Qed.

Lemma activeEvents_good (evs : list Event) :
  nonDecreasing evs → Forall goodInterval (activeEvents evs).
Proof.
  intros Hsorted. unfold activeEvents. apply Forall_app. split.
  - apply matchEvents_good; [done|constructor..].
  - apply Forall_forall. intros a Ha. unfold goodInterval.
    unfold ongoing in Ha. apply list_elem_of_In, in_flat_map in Ha as (p & _ & Ha).
    apply list_elem_of_In, list_elem_of_fmap in Ha as (t & -> & _). done.
Qed.

(** *** Summing per name *)

Lemma reported_addDuration (name n : string) (d : Z) (frameMap : list (string * Z)) :
  reported name (addDuration n d frameMap)
  = reported name frameMap + (if decide (n = name) then d else 0).
Proof.
  unfold reported. induction frameMap as [|[n' total] frameMap IH]; simpl.
  - destruct (decide (n = name)) as [->|Hne].
    + by rewrite bool_decide_eq_true_2.
    + by rewrite bool_decide_eq_false_2.
  - destruct (decide (n' = n)) as [->|Hne']; simpl.
    + destruct (decide (n = name)) as [->|Hne].
      * by rewrite bool_decide_eq_true_2.
      * rewrite bool_decide_eq_false_2 by done. lia.
    + destruct (bool_decide_reflect (n' = name)) as [Heq|Hneq]; simpl; [|apply IH].
      rewrite decide_False by congruence. lia.
Qed.

Lemma addDuration_keys (n : string) (d : Z) (frameMap : list (string * Z)) (k : string) :
  k ∈ (addDuration n d frameMap).*1 ↔ k = n ∨ k ∈ frameMap.*1.
Proof.
  induction frameMap as [|[n' total] frameMap IH]; simpl.
  - rewrite list_elem_of_singleton, elem_of_nil. tauto.
  - destruct (decide (n' = n)) as [->|Hne]; simpl.
    + rewrite elem_of_cons. tauto.
    + rewrite !elem_of_cons, IH. tauto.
Qed.

Lemma addDuration_NoDup (n : string) (d : Z) (frameMap : list (string * Z)) :
  NoDup frameMap.*1 → NoDup (addDuration n d frameMap).*1.
Proof.
  induction frameMap as [|[n' total] frameMap IH]; simpl; intros Hnd.
  - apply NoDup_singleton.
  - apply NoDup_cons in Hnd as [Hn Hnd].
    destruct (decide (n' = n)) as [->|Hne]; simpl.
    + by apply NoDup_cons.
    + apply NoDup_cons. split; [|auto]. rewrite addDuration_keys. intros [?|?]; done.
Qed.

Lemma accumulate_total (frames : list string) (wstart wend : Z)
    (acts : list Active) (frameMap : list (string * Z)) :
  Forall (validIn frames wstart wend) acts →
  ∃ frameMap',
    accumulate frames wstart wend
      (filter (λ a, overlaps wstart wend a = true) acts) frameMap = Some frameMap'
    ∧ (NoDup frameMap.*1 → NoDup frameMap'.*1)
    ∧ ∀ name, reported name frameMap'
              = reported name frameMap + totalFor frames name wstart wend acts.
Proof.
  intros Hvalid. revert frameMap.
  induction Hvalid as [|a acts Ha _ IH]; intros frameMap.
  - exists frameMap. split; [done|]. split; [done|]. intros name. simpl. lia.
  - unfold contribution. simpl. unfold contribution.
    destruct (overlaps wstart wend a) eqn:Hov.
    + destruct (Ha Hov) as [n Hn].
      rewrite filter_cons_True by done. simpl. rewrite Hn.
      destruct (IH (addDuration n (duration wstart wend a) frameMap))
        as (frameMap' & Hacc & Hnd & Hrep).
      exists frameMap'. split; [done|]. split.
      * intros H. by apply Hnd, addDuration_NoDup.
      * intros name. rewrite Hrep, reported_addDuration.
        destruct (decide (n = name)) as [->|Hne].
        -- rewrite decide_True by done. lia.
        -- rewrite decide_False by congruence. lia.
    + rewrite filter_cons_False by (by rewrite Hov).
      destruct (IH frameMap) as (frameMap' & Hacc & Hnd & Hrep).
      exists frameMap'. split; [done|]. split; [done|].
      intros name. rewrite Hrep. destruct (decide _); lia.
Qed.

(** Reading a name throws exactly when a frame is no index of the
    table. *)
Lemma accumulate_None (frames : list string) (wstart wend : Z)
    (acts : list Active) (frameMap : list (string * Z)) :
  accumulate frames wstart wend acts frameMap = None
  ↔ ∃ act, act ∈ acts ∧ frameName frames (aframe act) = None.
Proof.
  revert frameMap. induction acts as [|a acts IH]; intros frameMap; simpl.
  - split; [done|]. by intros (act & ?%elem_of_nil & _).
  - destruct (frameName frames (aframe a)) as [name|] eqn:Hn.
    + rewrite IH. split.
      * intros (act & Hact & Hf). exists act. split; [by apply list_elem_of_further|done].
      * intros (act & [->|Hact]%elem_of_cons & Hf); [congruence|by exists act].
    + split; [|done]. intros _. exists a. split; [apply list_elem_of_here|done].
Qed.

(** *** Durations that are not negative *)

Lemma duration_nonneg (wstart wend : Z) (a : Active) :
  wstart ≤ wend → goodInterval a → overlaps wstart wend a = true →
  0 ≤ duration wstart wend a.
Proof.
  unfold goodInterval, overlaps, duration, extGt, extMin.
  destruct a as [s [e|] k]; simpl; intros Hw Hg Ho.
  - apply andb_true_iff in Ho as [H1%Z.ltb_lt H2%Z.ltb_lt]. lia.
  - apply Z.ltb_lt in Ho. lia.
Qed.

Lemma addDuration_nonneg (n : string) (d : Z) (frameMap : list (string * Z)) :
  0 ≤ d → Forall (λ row, 0 ≤ row.2) frameMap →
  Forall (λ row, 0 ≤ row.2) (addDuration n d frameMap).
Proof.
  intros Hd. induction 1 as [|[n' total] frameMap Hrow Hrest IH]; simpl.
  - constructor; [simpl; lia|constructor].
  - destruct (decide (n' = n)); constructor; simpl in *; try done. lia.
Qed.

Lemma accumulate_nonneg (frames : list string) (wstart wend : Z)
    (acts : list Active) (frameMap frameMap' : list (string * Z)) :
  wstart ≤ wend →
  Forall (λ a, goodInterval a ∧ overlaps wstart wend a = true) acts →
  accumulate frames wstart wend acts frameMap = Some frameMap' →
  Forall (λ row, 0 ≤ row.2) frameMap → Forall (λ row, 0 ≤ row.2) frameMap'.
Proof.
  intros Hw Hacts. revert frameMap.
  induction Hacts as [|a acts [Hg Ho] _ IH]; intros frameMap; simpl.
  - by intros [= <-].
  - destruct (frameName frames (aframe a)) as [name|]; [|done].
    intros Hacc Hfm. apply (IH _ Hacc). apply addDuration_nonneg; [|done].
    by apply duration_nonneg.
Qed.

(** *** Sorting the rows does not change what is reported *)

Lemma insertByDuration_perm (x : string * Z) (l : list (string * Z)) :
  insertByDuration x l ≡ₚ x :: l.
Proof.
  induction l as [|y l IH]; simpl; [done|].
  destruct (_ <? _); [done|]. rewrite IH. apply Permutation_swap.
Qed.

Lemma sortByDuration_perm (l : list (string * Z)) : sortByDuration l ≡ₚ l.
Proof.
  unfold sortByDuration. induction l as [|x l IH] using rev_ind; [done|].
  rewrite foldl_snoc, insertByDuration_perm, IH. apply Permutation_cons_append.
Qed.

Lemma reported_elem (name : string) (d : Z) (l : list (string * Z)) :
  NoDup l.*1 → (name, d) ∈ l → reported name l = d.
Proof.
  unfold reported. induction l as [|[n total] l IH]; simpl; intros Hnd Hin.
  - by apply elem_of_nil in Hin.
  - apply NoDup_cons in Hnd as [Hn Hnd].
    apply elem_of_cons in Hin as [Heq|Hin].
    + injection Heq as <- <-. by rewrite bool_decide_eq_true_2.
    + rewrite bool_decide_eq_false_2; [by apply IH|].
      intros ->. apply Hn. by apply (list_elem_of_fmap_2 fst) in Hin.
Qed.

Lemma reported_absent (name : string) (l : list (string * Z)) :
  name ∉ l.*1 → reported name l = 0.
Proof.
  unfold reported. induction l as [|[n total] l IH]; simpl; intros Hout; [done|].
  apply not_elem_of_cons in Hout as [Hne Hout].
  rewrite bool_decide_eq_false_2 by done. by apply IH.
Qed.

Lemma reported_perm (name : string) (l l' : list (string * Z)) :
  NoDup l.*1 → l ≡ₚ l' → reported name l = reported name l'.
Proof.
  intros Hnd Hperm.
  assert (Hnd' : NoDup l'.*1) by (by rewrite <- Hperm).
  destruct (decide (name ∈ l.*1)) as [Hin|Hout].
  - apply list_elem_of_fmap in Hin as ([n d] & -> & Hin). simpl.
    rewrite (reported_elem n d l), (reported_elem n d l'); try done.
    by rewrite <- Hperm.
  - rewrite !reported_absent; try done. by rewrite <- Hperm.
Qed.

(** What a report shows for a name is above any negative bound that all
    its rows are above. *)
Lemma reported_above (name : string) (c : Z) (l : list (string * Z)) :
  c < 0 → Forall (λ row, c < row.2) l → c < reported name l.
Proof.
  intros Hc. unfold reported. induction 1 as [|[n d] l Hrow _ IH]; simpl; [done|].
  destruct (bool_decide (n = name)); [done|apply IH].
Qed.

(** *** The rows *)

Lemma validFrames_validIn (frames : list string) (evs : list Event) (wstart wend : Z) :
  validFrames frames evs → Forall (validIn frames wstart wend) (activeEvents evs).
Proof.
  intros Hvalid.
  eapply Forall_impl;
    [exact (activeEvents_frames (λ k, is_Some (frameName frames k)) evs Hvalid)|].
  by intros a Ha _.
Qed.

(** The rows of a window show, for each name, the sum of what the
    intervals of that name add to the window. *)
Lemma frameStats_total (frames : list string) (evs : list Event) (wstart wend : Z) :
  Forall (validIn frames wstart wend) (activeEvents evs) →
  ∃ stats,
    frameStats frames evs wstart wend = Some stats
    ∧ NoDup stats.*1
    ∧ ∀ name, reported name stats
              = totalFor frames name wstart wend (activeEvents evs).
Proof.
  intros Hact.
  destruct (accumulate_total frames wstart wend _ [] Hact) as (frameMap & Hacc & Hnd & Hrep).
  exists (sortByDuration frameMap). unfold frameStats, eventsBetween.
  rewrite Hacc. split; [done|].
  assert (Hnd' : NoDup (sortByDuration frameMap).*1).
  { rewrite sortByDuration_perm. apply Hnd, NoDup_nil_2. }
  split; [done|]. intros name.
  rewrite (reported_perm name _ frameMap), Hrep.
  - unfold reported. simpl. lia.
  - done.
  - apply sortByDuration_perm.
Qed.



(** *** The bars *)

Example bar_ex :
  bar 17564 = Some "|########----------------------|"
  ∧ bar 100000 = Some "|##############################|"
  ∧ bar (-1170) = Some "|------------------------------|"
  ∧ bar (-1171) = None.
Proof. repeat split; vm_compute; reflexivity. Qed.

Lemma filledLength_nonneg (d : Z) : 0 ≤ filledLength d ↔ -1171 < d.
Proof.
  unfold filledLength, mathRound, CYCLES_PER_FRAME, BAR_WIDTH.
  pose proof (Z.div_mod (2 * (Z.min d 70256 * 30) + 70256) (2 * 70256)).
  pose proof (Z.mod_pos_bound (2 * (Z.min d 70256 * 30) + 70256) (2 * 70256)).
  lia.
Qed.

Lemma filledLength_le (d : Z) : filledLength d ≤ BAR_WIDTH.
Proof.
  unfold filledLength, mathRound, CYCLES_PER_FRAME, BAR_WIDTH.
  pose proof (Z.div_mod (2 * (Z.min d 70256 * 30) + 70256) (2 * 70256)).
  pose proof (Z.mod_pos_bound (2 * (Z.min d 70256 * 30) + 70256) (2 * 70256)).
  lia.
Qed.

(** Formatting the bar throws exactly for a duration of -1171 or
    below. *)
Lemma bar_None (d : Z) : bar d = None ↔ d ≤ -1171.
Proof.
  unfold bar, repeatString.
  pose proof (filledLength_nonneg d) as Hn. pose proof (filledLength_le d) as Hle.
  destruct (Z.ltb_spec (filledLength d) 0); simpl.
  - split; [lia|done].
  - destruct (Z.ltb_spec (BAR_WIDTH - filledLength d) 0); simpl; [lia|].
    split; [done|lia].
Qed.

(** The report is printed when its rows are built and none is at or
    below -1171. *)
Lemma logFrameReport_Some (frames : list string) (evs : list Event) (wstart wend : Z)
    (stats : list (string * Z)) :
  logFrameReport frames evs wstart wend = Some stats
  ↔ frameStats frames evs wstart wend = Some stats
    ∧ Forall (λ row, -1171 < row.2) stats.
Proof.
  unfold logFrameReport.
  destruct (frameStats frames evs wstart wend) as [rows|]; simpl; [|by split; [|intros []]].
  destruct (mapM (λ row, bar row.2) rows) as [bars|] eqn:Hbars; simpl.
  - split.
    + intros [= <-]. split; [done|].
      assert (Hsome : is_Some (mapM (λ row, bar row.2) rows)) by (by eexists).
      apply mapM_is_Some_1 in Hsome. eapply Forall_impl; [exact Hsome|].
      simpl. intros row [b Hb].
      destruct (decide (row.2 ≤ -1171)) as [Hlow|]; [|lia].
      apply bar_None in Hlow. congruence.
    + by intros [[= <-] _].
  - split; [done|]. intros [[= <-] Hrows].
    apply mapM_None_1, Exists_exists in Hbars as (row & Hin & Hnone).
    apply bar_None in Hnone. rewrite Forall_forall in Hrows.
    specialize (Hrows _ Hin). lia.
Qed.

(** Events in time order and a window whose start is not after its end:
    no row is negative, so the rows that are built are printed. *)
Lemma logFrameReport_ordered (frames : list string) (evs : list Event) (wstart wend : Z) :
  nonDecreasing evs → wstart ≤ wend →
  logFrameReport frames evs wstart wend = frameStats frames evs wstart wend.
Proof.
  intros Hs Hw.
  destruct (frameStats frames evs wstart wend) as [stats|] eqn:Hstats.
  - apply logFrameReport_Some. split; [done|].
    unfold frameStats in Hstats.
    destruct (accumulate _ _ _ _ _) as [frameMap|] eqn:Hacc; [|done].
    injection Hstats as <-. rewrite sortByDuration_perm.
    apply (accumulate_nonneg _ _ _ _ _ _ Hw) in Hacc.
    + eapply Forall_impl; [exact Hacc|]. simpl. intros; lia.
    + unfold eventsBetween. apply Forall_forall. intros a [Ho Ha]%list_elem_of_filter.
      split; [|done]. pose proof (activeEvents_good evs Hs) as Hg.
      rewrite Forall_forall in Hg. by apply Hg.
    + constructor.
  - unfold logFrameReport. by rewrite Hstats.
Qed.

(** The report of a window of events in time order, all naming entries
    of the frame table. *)
Lemma logFrameReport_total (frames : list string) (evs : list Event) (wstart wend : Z) :
  validFrames frames evs → nonDecreasing evs → wstart ≤ wend →
  ∃ stats,
    logFrameReport frames evs wstart wend = Some stats
    ∧ ∀ name, reported name stats
              = totalFor frames name wstart wend (activeEvents evs).
Proof.
  intros Hvalid Hs Hw.
  destruct (frameStats_total frames evs wstart wend) as (stats & Hstats & _ & Htot).
  { by apply validFrames_validIn. }
  exists stats. by rewrite logFrameReport_ordered.
Qed.

(** *** Adjacent windows *)




(** The reports [main] asks for during a run, over the trace recorded so
    far, exist and add up over adjacent windows when no symbol is named
    [__proto__]. *)
Corollary recorded_window_additivity (noiLookup : list Sym) (stream : list Obs)
    (a m b : Z) :
  Forall (λ s, symbol s ≠ "__proto__") noiLookup →
  StronglySorted Z.le (otime <$> stream) →
  a ≤ m ≤ b →
  let frames := sharedFrames noiLookup in
  let evs := events (trackerRun noiLookup stream) in
  ∃ left right whole,
    logFrameReport frames evs a m = Some left
    ∧ logFrameReport frames evs m b = Some right
    ∧ logFrameReport frames evs a b = Some whole
    ∧ ∀ name, reported name left + reported name right = reported name whole.
Proof.
  intros Hproto Hsorted Hwin frames evs.
  assert (Hvalid : validFrames frames evs)
    by (by apply (trackerRun_validFrames noiLookup stream 0)).
  assert (Hs : nonDecreasing evs) by (by apply trackerRun_nonDecreasing).
  destruct (logFrameReport_total frames evs a m Hvalid Hs) as (left & Hl & Hlt); [lia|].
  destruct (logFrameReport_total frames evs m b Hvalid Hs) as (right & Hr & Hrt); [lia|].
  destruct (logFrameReport_total frames evs a b Hvalid Hs) as (whole & Hw & Hwt); [lia|].
  exists left, right, whole. repeat split; try done.
  intros name. rewrite Hlt, Hrt, Hwt.
  apply totalFor_split; [by apply activeEvents_good|done].
Qed.

(** ** Per-frame matching and the tracker's occurrences *)

Lemma keyLt_irrefl (k : option nat) : ¬ keyLt k k.
Proof. unfold keyLt. destruct k as [n|]; simpl; [|done]. rewrite Nat.ltb_irrefl. done. Qed.

Lemma keyLt_trans (k1 k2 k3 : option nat) : keyLt k1 k2 → keyLt k2 k3 → keyLt k1 k3.
Proof.
  unfold keyLt. destruct k1 as [a|], k2 as [b|], k3 as [c|]; simpl; try done.
  rewrite !Nat.ltb_lt. lia.
Qed.

Lemma keyLt_total (k k' : option nat) : k ≠ k' → keyBefore k k' = false → keyLt k' k.
Proof.
  unfold keyLt. destruct k as [a|], k' as [b|]; simpl; try done.
  rewrite Nat.ltb_ge, Nat.ltb_lt. intros Hne Hle.
  assert (a ≠ b) by congruence. lia.
Qed.

Lemma timesAt_absent (k : option nat) (stack : list (option nat * list Z)) :
  k ∉ stack.*1 → timesAt k stack = [].
Proof.
  induction stack as [|[k' ts] stack IH]; simpl; [done|].
  intros [Hne Hout]%not_elem_of_cons. rewrite decide_False by done. by apply IH.
Qed.

Lemma sorted_head_absent (k : option nat) (keys : list (option nat)) :
  StronglySorted keyLt (k :: keys) → k ∉ keys.
Proof.
  intros [_ Hk]%StronglySorted_inv Hin. rewrite Forall_forall in Hk.
  by apply (keyLt_irrefl k), Hk.
Qed.

Lemma framePush_keys (k : option nat) (t : Z) (stack : list (option nat * list Z))
    (k' : option nat) :
  k' ∈ (framePush k t stack).*1 ↔ k' = k ∨ k' ∈ stack.*1.
Proof.
  induction stack as [|[k0 ts] stack IH]; simpl.
  - rewrite list_elem_of_singleton, elem_of_nil. tauto.
  - destruct (decide (k0 = k)) as [->|Hne]; simpl.
    + rewrite elem_of_cons. tauto.
    + destruct (keyBefore k k0); simpl; rewrite !elem_of_cons; [tauto|].
      rewrite IH. tauto.
Qed.

Lemma framePush_sorted (k : option nat) (t : Z) (stack : list (option nat * list Z)) :
  StronglySorted keyLt stack.*1 → StronglySorted keyLt (framePush k t stack).*1.
Proof.
  induction stack as [|[k0 ts] stack IH]; simpl; intros Hs.
  - repeat constructor.
  - apply StronglySorted_inv in Hs as [Hs Hk0].
    destruct (decide (k0 = k)) as [->|Hne]; simpl; [by constructor|].
    destruct (keyBefore k k0) eqn:Hb; simpl.
    + constructor; [by constructor|]. constructor; [done|].
      eapply Forall_impl; [exact Hk0|]. intros k'. by apply keyLt_trans.
    + constructor; [by apply IH|]. apply Forall_forall.
      intros k' [->|Hk']%framePush_keys.
      * by apply keyLt_total.
      * rewrite Forall_forall in Hk0. by apply Hk0.
Qed.

Lemma timesAt_framePush (k : option nat) (t : Z) (stack : list (option nat * list Z))
    (k' : option nat) :
  StronglySorted keyLt stack.*1 →
  timesAt k' (framePush k t stack)
  = if decide (k' = k) then t :: timesAt k stack else timesAt k' stack.
Proof.
  induction stack as [|[k0 ts] stack IH]; simpl; intros Hs.
  - destruct (decide (k = k')), (decide (k' = k)); congruence.
  - destruct (decide (k0 = k)) as [->|Hne]; simpl.
    + destruct (decide (k = k')), (decide (k' = k)); congruence.
    + destruct (keyBefore k k0) eqn:Hb; simpl.
      * destruct (decide (k = k')) as [<-|Hkk'].
        -- rewrite decide_True by done. f_equal. symmetry. apply timesAt_absent.
           intros Hin. apply StronglySorted_inv in Hs as [_ Hk0].
           rewrite Forall_forall in Hk0. specialize (Hk0 _ Hin).
           by apply (keyLt_irrefl k), (keyLt_trans _ k0).
        -- by rewrite (decide_False (P := k' = k)) by congruence.
      * apply StronglySorted_inv in Hs as [Hs _]. rewrite IH by done.
        destruct (decide (k0 = k')) as [<-|Hk0k']; [|done].
        by rewrite decide_False by done.
Qed.

Lemma framePop_timesAt (k : option nat) (stack : list (option nat * list Z)) :
  match timesAt k stack with
  | t :: ts =>
      ∃ stack', framePop k stack = Some (t, stack')
                ∧ stack'.*1 = stack.*1
                ∧ ∀ k', timesAt k' stack'
                        = if decide (k' = k) then ts else timesAt k' stack
  | [] => framePop k stack = None
  end.
Proof.
  induction stack as [|[k0 ts0] stack IH]; simpl; [done|].
  destruct (decide (k0 = k)) as [->|Hne].
  - destruct ts0 as [|t ts]; [done|]. eexists. split; [done|]. split; [done|].
    intros k'. simpl. destruct (decide (k = k')), (decide (k' = k)); congruence.
  - destruct (timesAt k stack) as [|t ts].
    + by rewrite IH.
    + destruct IH as (stack' & -> & Hkeys & Htimes). eexists. split; [done|].
      split; [by rewrite !fmap_cons, Hkeys|]. intros k'. simpl.
      destruct (decide (k0 = k')) as [<-|?]; [by rewrite decide_False|apply Htimes].
Qed.

(** Matching per frame index finds, for a well-bracketed trace, the very
    occurrence each Close names. *)
Lemma matchEvents_replay (evs : list Event) (stack : list (option nat * list Z))
    (active : list Active) (opened opened' : list (option nat * Z)) :
  replay evs opened = Some opened' →
  represents stack opened →
  ∃ stack', matchEvents evs stack active = (stack', active ++ closedIntervals evs)
            ∧ represents stack' opened'.
Proof.
  revert stack active opened.
  induction evs as [|e evs IH]; intros stack active opened Hrep [Hs Ht]; simpl in *.
  - injection Hrep as <-. exists stack. by rewrite app_nil_r.
  - unfold closedIntervals. simpl. unfold closedInterval at 1.
    destruct (etype e).
    + apply (IH (framePush (eframe e) (eat e) stack) active) in Hrep; [done|].
      split; [by apply framePush_sorted|]. intros k.
      rewrite timesAt_framePush by done. simpl.
      destruct (decide (k = eframe e)) as [->|Hne].
      * rewrite filter_cons_True by done. simpl. by rewrite Ht.
      * rewrite filter_cons_False by (simpl; congruence). apply Ht.
    + destruct opened as [|[k t] below]; [done|].
      destruct (decide _) as [[Hk Hstart]|]; [|done]. simpl in Hk, Hstart. subst k.
      pose proof (framePop_timesAt (eframe e) stack) as Hpop.
      rewrite Ht, filter_cons_True in Hpop by done. simpl in Hpop.
      destruct Hpop as (stack' & -> & Hkeys & Htimes). rewrite <- Hstart. simpl.
      destruct (IH stack' (active ++ [mkActive t (Fin (eat e)) (eframe e)]) below Hrep)
        as (stack'' & Hm & Hrep'').
      * split; [by rewrite Hkeys|]. intros k. rewrite Htimes.
        destruct (decide (k = eframe e)) as [->|Hne]; [done|].
        rewrite Ht. by rewrite filter_cons_False by (simpl; congruence).
      * exists stack''. split; [|done]. rewrite Hm. by rewrite <- app_assoc.
Qed.

Lemma filter_other_key (k k' : option nat) (opened : list (option nat * Z)) :
  filter (λ p, p.1 = k') (filter (λ p, p.1 ≠ k) opened)
  = if decide (k' = k) then [] else filter (λ p, p.1 = k') opened.
Proof.
  induction opened as [|p opened IH]; [by destruct (decide _)|].
  destruct (decide (p.1 = k)) as [Hk|Hk].
  - rewrite (filter_cons_False (λ p, p.1 ≠ k)) by tauto. rewrite IH.
    destruct (decide (k' = k)) as [->|Hne]; [done|].
    by rewrite filter_cons_False by congruence.
  - rewrite (filter_cons_True (λ p, p.1 ≠ k)) by done.
    destruct (decide (p.1 = k')) as [Hk'|Hk'].
    + rewrite !filter_cons_True by done. rewrite IH.
      destruct (decide (k' = k)); [congruence|done].
    + rewrite !filter_cons_False by done. apply IH.
Qed.

Section Totals.

Variable frames : list string.
Variable name : string.
Variables wstart wend : Z.

Local Abbreviation total := (totalFor frames name wstart wend).

Lemma totalFor_app (l1 l2 : list Active) : total (l1 ++ l2) = total l1 + total l2.
Proof. induction l1 as [|a l1 IH]; simpl; [done|]. rewrite IH. lia. Qed.

Lemma totalFor_perm (l l' : list Active) : l ≡ₚ l' → total l = total l'.
Proof. induction 1; simpl; lia. Qed.

Lemma totalFor_openIntervals_split (k : option nat) (opened : list (option nat * Z)) :
  total (openIntervals opened)
  = total (openIntervals (filter (λ p, p.1 = k) opened))
    + total (openIntervals (filter (λ p, p.1 ≠ k) opened)).
Proof.
  unfold openIntervals. induction opened as [|p opened IH]; [done|].
  destruct (decide (p.1 = k)) as [Hk|Hk].
  - rewrite filter_cons_True, (filter_cons_False (λ p, p.1 ≠ k)) by tauto.
    rewrite !fmap_cons. simpl. rewrite IH. lia.
  - rewrite filter_cons_False, (filter_cons_True (λ p, p.1 ≠ k)) by done.
    rewrite !fmap_cons. simpl. rewrite IH. lia.
Qed.

(** What is left on the per-frame stacks adds up to the occurrences
    still open. *)
Lemma ongoing_total (stack : list (option nat * list Z))
    (opened : list (option nat * Z)) :
  represents stack opened →
  total (ongoing stack) = total (openIntervals opened).
Proof.
  revert opened. induction stack as [|[k ts] stack IH]; intros opened [Hs Ht].
  - destruct opened as [|p opened]; [done|]. specialize (Ht p.1).
    rewrite filter_cons_True in Ht by done. done.
  - rewrite fmap_cons in Hs. pose proof (sorted_head_absent _ _ Hs) as Hk.
    apply StronglySorted_inv in Hs as [Hs _].
    rewrite (totalFor_openIntervals_split k opened).
    change (ongoing ((k, ts) :: stack))
      with (((λ t, mkActive t Inf k) <$> rev ts) ++ ongoing stack).
    rewrite totalFor_app. f_equal.
    + pose proof (Ht k) as Hts. simpl in Hts. rewrite decide_True in Hts by done.
      rewrite (totalFor_perm _ ((λ t, mkActive t Inf k) <$> ts)).
      2:{ apply fmap_Permutation. symmetry. apply Permutation_rev. }
      rewrite Hts. unfold openIntervals. rewrite <- list_fmap_compose.
      f_equal. apply list_fmap_ext. intros i p Hp.
      apply list_elem_of_lookup_2, list_elem_of_filter in Hp as [<- _]. done.
    + apply IH. split; [done|]. intros k'. rewrite filter_other_key.
      destruct (decide (k' = k)) as [->|Hne]; [by apply timesAt_absent|].
      rewrite <- Ht. simpl. by rewrite decide_False by done.
Qed.

(** Each occurrence gives one interval: the closed ones as their Close
    events describe them, the open ones running on. *)
Lemma activeEvents_total (evs : list Event) (opened : list (option nat * Z)) :
  replay evs [] = Some opened →
  total (activeEvents evs)
  = total (closedIntervals evs) + total (openIntervals opened).
Proof.
  intros Hrep. unfold activeEvents.
  destruct (matchEvents_replay evs [] [] [] opened Hrep) as (stack & -> & Hst).
  { split; [constructor|done]. }
  simpl. rewrite totalFor_app. f_equal. by apply ongoing_total.
Qed.

End Totals.

(** ** A function entered again while it is on the stack *)

Lemma trackerRun_app (noiLookup : list Sym) (before after : list Obs) :
  trackerRun noiLookup (before ++ after)
  = run (buildRegionsByBank (functionRegions noiLookup)) (buildNoiIndex noiLookup)
        (trackerRun noiLookup before) after.
Proof. unfold trackerRun, run. apply foldl_app. Qed.

Lemma trackerRun_bracketed (noiLookup : list Sym) (stream : list Obs) :
  bracketed (buildNoiIndex noiLookup) (trackerRun noiLookup stream).
Proof. apply run_bracketed. by split. Qed.

(** After the end-of-run close of a run observed in time order, the
    report of a window shows for each name the sum, over the occurrences
    of that name, of what the interval from its Open to its Close adds
    to the window. *)
Lemma finished_report_total (noiLookup : list Sym) (stream : list Obs)
    (final wstart wend : Z) :
  Forall (λ s, symbol s ≠ "__proto__") noiLookup →
  StronglySorted Z.le ((otime <$> stream) ++ [final]) →
  wstart ≤ wend →
  let evs := events (trackerFinish noiLookup final (trackerRun noiLookup stream)) in
  ∃ stats,
    logFrameReport (sharedFrames noiLookup) evs wstart wend = Some stats
    ∧ ∀ name, reported name stats
              = totalFor (sharedFrames noiLookup) name wstart wend (closedIntervals evs).
Proof.
  intros Hproto Hsorted Hwin evs.
  destruct (trackerRun_validFrames noiLookup stream final Hproto) as [_ Hvalid].
  destruct (finished_timely (buildRegionsByBank (functionRegions noiLookup))
              (buildNoiIndex noiLookup) stream final Hsorted) as (_ & _ & Hs & _).
  destruct (logFrameReport_total _ evs wstart wend Hvalid Hs Hwin) as (stats & Hrep & Htot).
  exists stats. split; [done|]. intros name. rewrite Htot.
  destruct (finish_bracketed _ _ final (trackerRun_bracketed noiLookup stream))
    as (Hreplay & _ & _).
  rewrite (activeEvents_total _ _ _ _ evs [] Hreplay). simpl. lia.
Qed.

(** X20: during a run observed in time order a frame still on the stack
    counts from its Open onwards: the report of a window whose start is
    not after its end is produced and shows for each name what its
    closed occurrences and its open ones add to the window (no symbol
    being named [__proto__]). *)
Lemma running_report_total (noiLookup : list Sym) (stream : list Obs)
    (wstart wend : Z) :
  Forall (λ s, symbol s ≠ "__proto__") noiLookup →
  StronglySorted Z.le (otime <$> stream) →
  wstart ≤ wend →
  let t := trackerRun noiLookup stream in
  ∃ stats,
    logFrameReport (sharedFrames noiLookup) (events t) wstart wend = Some stats
    ∧ ∀ name, reported name stats
              = totalFor (sharedFrames noiLookup) name wstart wend
                  (closedIntervals (events t))
                + totalFor (sharedFrames noiLookup) name wstart wend
                    (openIntervals (openOccurrences (buildNoiIndex noiLookup)
                                      (fnStack t))).
Proof.
  intros Hproto Hsorted Hwin t.
  destruct (trackerRun_validFrames noiLookup stream 0 Hproto) as [Hvalid _].
  pose proof (trackerRun_nonDecreasing noiLookup stream Hsorted) as Hs.
  destruct (logFrameReport_total _ (events t) wstart wend Hvalid Hs Hwin)
    as (stats & Hrep & Htot).
  exists stats. split; [done|]. intros name. rewrite Htot.
  destruct (trackerRun_bracketed noiLookup stream) as [Hreplay _].
  by rewrite (activeEvents_total _ _ _ _ (events t) _ Hreplay).
Qed.

(** C7, amended: take any symbol table (no symbol named [__proto__]) and
    any observation stream in which, at some observation, the start
    address of F is resolved while a region other than F is current and a
    frame of F is already on the stack (F is entered again through a
    callee). Then the tracker pushes a second frame for F on top of the
    stack that still holds the first; in the rest of the trace, ended by
    the forced close, the inner occurrence is closed before every frame
    that was on the stack, the outer F among them; and, when the
    observations came in time order and the final time is not before
    the last of them, the report of any window whose start is not after
    its end is produced and shows for each name the sum, over the closed
    occurrences of that name, of what each adds to the window: both
    occurrences of F are reported under the one name F. *)
Theorem C7_reentered_function (noiLookup : list Sym)
    (before : list Obs) (call : Obs) (after : list Obs) (final : Z) (F : RegionObj) :
  let table := buildRegionsByBank (functionRegions noiLookup) in
  let index := buildNoiIndex noiLookup in
  let t := trackerRun noiLookup before in
  let entered := trackerRun noiLookup (before ++ [call]) in
  let finished :=
    trackerFinish noiLookup final (trackerRun noiLookup (before ++ call :: after)) in
  let inner := newFrame F (otime call) (length (fnStack t)) in
  Forall (λ s, symbol s ≠ "__proto__") noiLookup →
  resolvesTo table t call F →
  Some F ≠ currentFnRegion t →
  opc call = raddr F →
  fnStackContains F (fnStack t) = true →
  (fnStack entered = inner :: markParent (fnStack t)
   ∧ fsymbol inner = rsymbol F
   ∧ ∃ above outer below,
       markParent (fnStack t) = above ++ outer :: below ∧ fsymbol outer = rsymbol F)
  ∧ (∃ tail cin cs,
       events finished
       = events t ++ mkEvent EvO (otime call) (index !! rsymbol F) None :: tail
       ∧ closes index cin inner
       ∧ Forall2 (closes index) cs (fnStack t)
       ∧ cin :: cs `sublist_of` tail)
  ∧ ∀ wstart wend,
      StronglySorted Z.le ((otime <$> before ++ call :: after) ++ [final]) →
      wstart ≤ wend →
      ∃ stats,
        logFrameReport (sharedFrames noiLookup) (events finished) wstart wend
        = Some stats
        ∧ ∀ name, reported name stats
                  = totalFor (sharedFrames noiLookup) name wstart wend
                      (closedIntervals (events finished)).
Proof.
  intros table index t entered finished inner Hproto Hres Hcur Hstart Hin.
  assert (Hent : entered = setCurrent F (pushFrame index F (otime call) t)).
  { unfold entered. rewrite trackerRun_app. simpl. by apply call_at_start_pushes. }
  assert (HF : rsymbol F ≠ "__proto__").
  { destruct (fnStackContains_split _ _ Hin) as (above & outer & below & Hst & _ & Hf).
    destruct (trackerRun_allIndexed noiLookup before Hproto) as (_ & Hstack & _).
    fold t in Hstack. rewrite Hst in Hstack.
    apply Forall_app in Hstack as [_ [Hout _]%Forall_cons].
    unfold indexed, noiIndexGet in Hout. rewrite Hf in Hout.
    destruct (decide (rsymbol F = "__proto__")); [|done].
    by destruct Hout. }
  split; [|split].
  - rewrite Hent. split; [done|]. split; [done|].
    destruct (fnStackContains_split _ _ Hin) as (above & outer & below & Hst & _ & Hf).
    rewrite Hst. destruct above as [|g above]; simpl.
    + by eexists [], _, below.
    + by eexists (_ :: above), outer, below.
  - unfold finished, trackerFinish.
    replace (before ++ call :: after) with ((before ++ [call]) ++ after)
      by (by rewrite <- app_assoc).
    rewrite trackerRun_app. fold entered. fold table index.
    destruct (run_closes_in_stack_order table index entered after final)
      as (new & cs & Hev & Hcs & Hsub).
    assert (Hevs : events entered
                   = events t ++ [mkEvent EvO (otime call) (index !! rsymbol F) None]).
    { rewrite Hent. simpl. unfold openEvent, noiIndexGet.
      by rewrite decide_False by done. }
    assert (Hstk : fnStack entered = inner :: markParent (fnStack t))
      by (by rewrite Hent).
    rewrite Hstk in Hcs.
    apply Forall2_cons_inv_r in Hcs as (cin & cs' & Hcin & Hcs' & ->).
    exists new, cin, cs'. rewrite Hev, Hevs, <- app_assoc. split; [done|].
    split; [done|]. split; [by apply closes_markParent|done].
  - intros wstart wend Hsorted Hwin. by apply finished_report_total.
Qed.

Lemma C7_reentered_function_witness :
  let table := buildRegionsByBank (functionRegions recursionSyms) in
  let t := trackerRun recursionSyms [mkObs 336 0 0; mkObs 512 0 10] in
  let call := mkObs 336 0 20 in
  let F := (0%nat, mkRegion (mkSym "F" 336 0) 511) in
  (Forall (λ s, symbol s ≠ "__proto__") recursionSyms
   ∧ resolvesTo table t call F
   ∧ Some F ≠ currentFnRegion t
   ∧ opc call = raddr F
   ∧ fnStackContains F (fnStack t) = true)
  ∧ (StronglySorted Z.le ((otime <$> recursionStream 0 10 20 30 40) ++ [50])
     ∧ 0 ≤ 50)
  ∧ ∃ stats,
      logFrameReport (sharedFrames recursionSyms)
        (events (trackerFinish recursionSyms 50
                   (trackerRun recursionSyms (recursionStream 0 10 20 30 40))))
        0 50 = Some stats
      ∧ reported "F" stats = (30 - 20) + (50 - 0).
Proof.
  intros table t call F.
  assert (H0 : Forall (λ s, symbol s ≠ "__proto__") recursionSyms).
  { repeat (constructor; [simpl; discriminate|]). constructor. }
  assert (H1 : resolvesTo table t call F).
  { split; [simpl; lia|vm_compute; reflexivity]. }
  assert (H3 : Some F ≠ currentFnRegion t) by (vm_compute; discriminate).
  assert (H4 : opc call = raddr F) by reflexivity.
  assert (H5 : fnStackContains F (fnStack t) = true) by (vm_compute; reflexivity).
  assert (H6 : StronglySorted Z.le ((otime <$> recursionStream 0 10 20 30 40) ++ [50])).
  { simpl. repeat (constructor; [|repeat (constructor; [lia|]); constructor]).
    constructor. }
  assert (H7 : 0 ≤ 50) by lia.
  split; [exact (conj H0 (conj H1 (conj H3 (conj H4 H5))))|].
  split; [exact (conj H6 H7)|].
  destruct (C7_reentered_function recursionSyms [mkObs 336 0 0; mkObs 512 0 10]
              call [mkObs 513 0 30; mkObs 337 0 40] 50 F H0 H1 H3 H4 H5)
    as (_ & _ & Hreport).
  destruct (Hreport 0 50 H6 H7) as (stats & Hrep & Htot).
  exists stats. split; [exact Hrep|]. rewrite Htot. vm_compute. reflexivity.
Defined.

(** ** Recursion, executed *)

Lemma contribution_inside (wstart wend s e : Z) (k : option nat) :
  wstart ≤ s → s ≤ e → e ≤ wend →
  contribution wstart wend (mkActive s (Fin e) k) = e - s.
Proof.
  intros. unfold contribution, overlaps, duration. simpl.
  destruct (Z.ltb_spec wstart e), (Z.ltb_spec s wend); simpl; lia.
Qed.

Local Ltac decide_frames :=
  repeat match goal with
         | |- context [decide ?P] =>
             let Hd := fresh "Hd" in
             destruct (decide P) as [Hd|Hd]; vm_compute in Hd;
             try discriminate Hd; try (exfalso; apply Hd; reflexivity)
         end.

(** C7, as stated, fails: when F calls F directly the region does not
    change, the callback returns early and no second frame is pushed. *)
Lemma C7_direct_recursion_counterexample :
  let t := trackerRun recursionSyms selfCallStream in
  events t = [mkEvent EvO 0 (Some 0%nat) None]
  ∧ fsymbol <$> fnStack t = ["F"]
  ∧ ¬ (∃ inner outer rest, fnStack t = inner :: outer :: rest).
Proof.
  split; [by vm_compute|]. split; [by vm_compute|].
  intros (inner & outer & rest & H). vm_compute in H. discriminate H.
Qed.

(** The synthetic trace where F is called, F calls G, G calls F at F's
    first address, the inner F returns into G and G returns into the
    outer F, whatever the times: two frames for F (depths 2 and 0), the
    inner F closed before the outer one, and under the one name F the sum
    of what the two occurrences add to the window, their two durations
    when the window covers the run. *)
Lemma recursion_through_callee_trace (t0 t1 t2 t3 t4 final wstart wend : Z) :
  let stream := recursionStream t0 t1 t2 t3 t4 in
  let entered := trackerRun recursionSyms (take 3 stream) in
  let finished := trackerFinish recursionSyms final (trackerRun recursionSyms stream) in
  (λ f, (fsymbol f, fclock f, indent f)) <$> fnStack entered
  = [("F", t2, 2%nat); ("G", t1, 1%nat); ("F", t0, 0%nat)]
  ∧ events finished
    = [mkEvent EvO t0 (Some 0%nat) None; mkEvent EvO t1 (Some 1%nat) None;
       mkEvent EvO t2 (Some 0%nat) None;
       mkEvent EvC t3 (Some 0%nat) (Some t2);
       mkEvent EvC t4 (Some 1%nat) (Some t1);
       mkEvent EvC final (Some 0%nat) (Some t0)]
  ∧ ∃ stats,
      frameStats (sharedFrames recursionSyms) (events finished) wstart wend
      = Some stats
      ∧ reported "F" stats
        = contribution wstart wend (mkActive t2 (Fin t3) (Some 0%nat))
          + contribution wstart wend (mkActive t0 (Fin final) (Some 0%nat))
      ∧ reported "G" stats
        = contribution wstart wend (mkActive t1 (Fin t4) (Some 1%nat))
      ∧ (wstart ≤ t0 ≤ t2 ∧ t2 ≤ t3 ≤ final ∧ final ≤ wend →
         reported "F" stats = (t3 - t2) + (final - t0))
      ∧ (t0 ≤ t1 ≤ t2 ∧ t2 ≤ t3 ≤ t4 ∧ t4 ≤ final → wstart ≤ wend →
         logFrameReport (sharedFrames recursionSyms) (events finished) wstart wend
         = Some stats).
Proof.
  intros stream entered finished.
  split; [by vm_compute|]. split; [by vm_compute|].
  set (evs := [mkEvent EvO t0 (Some 0%nat) None; mkEvent EvO t1 (Some 1%nat) None;
       mkEvent EvO t2 (Some 0%nat) None;
       mkEvent EvC t3 (Some 0%nat) (Some t2);
       mkEvent EvC t4 (Some 1%nat) (Some t1);
       mkEvent EvC final (Some 0%nat) (Some t0)]).
  assert (Hev : events finished = evs) by (by vm_compute).
  rewrite Hev.
  destruct (frameStats_total (sharedFrames recursionSyms) evs wstart wend)
    as (stats & Hrep & _ & Htot).
  { apply validFrames_validIn. repeat (constructor; [by eexists|]). constructor. }
  exists stats. split; [exact Hrep|].
  assert (HF : reported "F" stats
        = contribution wstart wend (mkActive t2 (Fin t3) (Some 0%nat))
          + contribution wstart wend (mkActive t0 (Fin final) (Some 0%nat))).
  { rewrite Htot. 
    change (activeEvents _) with
      [mkActive t2 (Fin t3) (Some 0%nat); mkActive t1 (Fin t4) (Some 1%nat);
       mkActive t0 (Fin final) (Some 0%nat)].
    cbn [totalFor aframe].
    decide_frames. lia. }
  split; [exact HF|]. split; [|split].
  - rewrite Htot.
    change (activeEvents _) with
      [mkActive t2 (Fin t3) (Some 0%nat); mkActive t1 (Fin t4) (Some 1%nat);
       mkActive t0 (Fin final) (Some 0%nat)].
    cbn [totalFor aframe].
    decide_frames. lia.
  - intros (H1 & H2 & H3). rewrite HF, !contribution_inside; lia.
  - intros (H1 & H2 & H3) Hwin. rewrite logFrameReport_ordered; [done| |done].
    unfold nonDecreasing, evs. simpl.
    repeat (constructor; [|repeat (constructor; [lia|]); constructor]). constructor.
Qed.


(** ** The end-to-end scenario *)

(** C1, as stated, fails: the third observation (0x150) is the start
    address of [main], so the tracker does not close [helper] at time 20,
    and the report of the window [0,20) does not show 10 for [main]. *)
Lemma C1_scenario_counterexample :
  events (trackerRun scenarioSyms scenarioStream) ≠ scenarioClaimedEvents
  ∧ ¬ (∃ stats,
         logFrameReport (sharedFrames scenarioSyms)
           (events (trackerRun scenarioSyms scenarioStream)) 0 20 = Some stats
         ∧ reported "helper" stats = 10 ∧ reported "main" stats = 10).
Proof.
  split.
  - intros Hev. vm_compute in Hev. discriminate Hev.
  - intros (stats & Hrep & _ & Hmain).
    vm_compute in Hrep. injection Hrep as <-.
    vm_compute in Hmain. discriminate Hmain.
Qed.

(** C1, amended: on the scenario's symbol table (regions main:[0x150,0x1FF]
    and helper:[0x200,0x3FFF]) the stream (0x150,0,0), (0x200,0,10),
    (0x150,0,20) yields exactly Open main at 0, Open helper at 10 and Open
    main at 20, leaves main, helper and main open (innermost first), and the
    report of the window [0,20) is main=20, helper=10. *)
Theorem C1_scenario :
  generateFunctionRegions scenarioSyms
  = [mkRegion (mkSym "main" 336 0) 511; mkRegion (mkSym "helper" 512 0) 16383]
  ∧ events (trackerRun scenarioSyms scenarioStream)
    = [mkEvent EvO 0 (Some 0%nat) None; mkEvent EvO 10 (Some 1%nat) None;
       mkEvent EvO 20 (Some 0%nat) None]
  ∧ fsymbol <$> fnStack (trackerRun scenarioSyms scenarioStream)
    = ["main"; "helper"; "main"]
  ∧ logFrameReport (sharedFrames scenarioSyms)
      (events (trackerRun scenarioSyms scenarioStream)) 0 20
    = Some [("main", 20); ("helper", 10)].
Proof. repeat split; vm_compute; reflexivity. Qed.

(** The same run when the third observation lands inside [main] (0x151)
    rather than on its first address: [helper] is closed at 20 as the
    specification pictures it, and [main], open over the whole window, is
    still reported with 20. *)
Lemma scenario_return_inside_main :
  let t := trackerRun scenarioSyms [mkObs 336 0 0; mkObs 512 0 10; mkObs 337 0 20] in
  events t = scenarioClaimedEvents
  ∧ fsymbol <$> fnStack t = ["main"]
  ∧ logFrameReport (sharedFrames scenarioSyms) (events t) 0 20
    = Some [("main", 20); ("helper", 10)].
Proof. repeat split; vm_compute; reflexivity. Qed.

(** * Further properties of the code *)

(** ** The symbol table, whatever the text *)

Lemma parseNoi_raw (text : string) (s : Sym) :
  s ∈ parseNoi text → ∃ line, keptLine line ∧ s = lineSym line.
Proof.
  destruct (parseNoi_loop_firstKept (JS.splitLines text)) as (_ & _ & Hfirst & _).
  intros Hs. apply Hfirst in Hs. apply find_elem_of in Hs as [Hs _].
  apply list_elem_of_fmap in Hs as (line & -> & Hl).
  apply list_elem_of_filter in Hl as [Hk _]. by exists line.
Qed.

Lemma land_ones_range (x n : Z) : 0 ≤ n → 0 ≤ Z.land x (Z.ones n) < 2 ^ n.
Proof.
  intros Hn. rewrite Z.land_ones by done. apply Z.mod_pos_bound. by apply Z.pow_pos_nonneg.
Qed.

Lemma lineSym_fieldsInRange (line : string) : fieldsInRange (lineSym line).
Proof.
  unfold fieldsInRange, lineSym. cbn [addr bank].
  set (full := JS.toInt32 _).
  pose proof (land_ones_range full 16 ltac:(lia)) as Ha.
  pose proof (land_ones_range (Z.shiftr full 16) 8 ltac:(lia)) as Hb.
  change (Z.ones 16) with 65535 in Ha. change (Z.ones 8) with 255 in Hb.
  change (2 ^ 16) with 65536 in Ha. change (2 ^ 8) with 256 in Hb.
  destruct (Z.ltb_spec (Z.land full 65535) 16384); lia.
Qed.

Lemma parseNoi_line_fields (text : string) : Forall fieldsInRange (parseNoi text).
Proof.
  apply Forall_forall. intros s (line & _ & ->)%parseNoi_raw.
  apply lineSym_fieldsInRange.
Qed.

(** X1: whatever the text, every record of the table has an address in
    0..0xFFFF and a bank in 0..255, and its bank is 0 when its address is
    below 0x4000 (the bank byte of the address field only counts from
    0x4000 on). *)
Theorem parseNoi_fields_in_range (text : string) :
  Forall fieldsInRange (parseNoi text).
Proof.
  apply Forall_forall. intros s Hs.
  destruct (parseNoi_raw text s Hs) as (line & _ & ->).
  apply lineSym_fieldsInRange.
Qed.

(** *** The address field *)

Lemma toInt32_congr (n : Z) :
  ∃ q, JS.toInt32 (Some n) = JS.roundToDouble n + q * 2 ^ 32.
Proof.
  unfold JS.toInt32. set (m := JS.roundToDouble n).
  exists (- ((m + 2 ^ 31) / 2 ^ 32)).
  pose proof (Z.div_mod (m + 2 ^ 31) (2 ^ 32) ltac:(lia)). lia.
Qed.

Lemma land_shiftr_toInt32 (n : Z) :
  Z.land (JS.toInt32 (Some n)) 65535 = JS.roundToDouble n mod 65536
  ∧ Z.land (Z.shiftr (JS.toInt32 (Some n)) 16) 255
    = (JS.roundToDouble n / 65536) mod 256.
Proof.
  destruct (toInt32_congr n) as [q ->]. set (m := JS.roundToDouble n).
  change 65535 with (Z.ones 16). change 255 with (Z.ones 8).
  rewrite !Z.land_ones, Z.shiftr_div_pow2 by lia.
  change (2 ^ 16) with 65536. change (2 ^ 8) with 256.
  change (2 ^ 32) with (65536 * 65536).
  split.
  - rewrite Z.mul_assoc. by rewrite Z.mod_add by lia.
  - replace (m + q * (65536 * 65536)) with (m + (q * 65536) * 65536) by lia.
    rewrite Z.div_add by lia.
    replace (q * 65536) with ((q * 256) * 256) by lia.
    by rewrite Z.mod_add by lia.
Qed.

(** X24: the record of a line decodes the number [v] that [parseInt]
    reads from the third field (of either sign, of any size) as a banked
    address: the address is [v] modulo 0x10000 and, from 0x4000 on, the
    bank is the next byte, [v] divided by 0x10000 (rounding down) modulo
    0x100; the 32-bit wrap-around of [&] and [>>] never shows. A field
    that is no number gives address 0 in bank 0. *)
Theorem lineSym_decodes_address (line : string) :
  match JS.parseInt16 (JS.splitWhite (JS.trim line) !! 2%nat) with
  | Some n =>
      let v := JS.roundToDouble n in
      addr (lineSym line) = v mod 65536
      ∧ bank (lineSym line)
        = (if v mod 65536 <? 16384 then 0 else (v / 65536) mod 256)
  | None => addr (lineSym line) = 0 ∧ bank (lineSym line) = 0
  end.
Proof.
  unfold lineSym. cbn [addr bank].
  destruct (JS.parseInt16 _) as [n|]; [|done].
  destruct (land_shiftr_toInt32 n) as [-> ->]. done.
Qed.

(** *** The names *)

Lemma consHead_nonWhite (c : ascii) (l : list string) :
  JS.isWhite c = false → Forall nonWhite l → Forall nonWhite (JS.consHead c l).
Proof.
  intros Hc Hl. destruct Hl as [|t ts Ht Hts]; simpl.
  - constructor; [|constructor]. unfold nonWhite. simpl. by rewrite Hc.
  - constructor; [|done]. unfold nonWhite in *. simpl. by rewrite Hc.
Qed.

Lemma splitWhite_go_nonWhite (b : bool) (s : string) :
  Forall nonWhite (JS.splitWhite_go b s).
Proof.
  revert b. induction s as [|c s IH]; intros b; simpl.
  - by repeat constructor.
  - destruct (JS.isWhite c) eqn:Hc.
    + destruct b; [apply IH|]. constructor; [done|apply IH].
    + by apply consHead_nonWhite.
Qed.

Lemma afterDollar_nonWhite (s rest : string) :
  JS.afterDollar s = Some rest → nonWhite s → nonWhite rest.
Proof.
  unfold nonWhite. induction s as [|c s IH]; simpl; [done|].
  intros Hr [_ Hs]%andb_true_iff.
  destruct (Ascii.eqb c "$"); [by injection Hr as <-|by apply IH].
Qed.

Lemma stripFilePrefix_cases (s : string) :
  JS.stripFilePrefix s = s
  ∨ ∃ c r, s = String "F" (String c r) ∧ JS.afterDollar r = Some (JS.stripFilePrefix s).
Proof.
  destruct s as [|a s]; [by left|].
  destruct (decide (a = "F"%char)) as [->|Hne].
  - destruct s as [|c r]; [by left|]. simpl.
    destruct (Ascii.eqb c "$"); [by left|].
    destruct (JS.afterDollar r) as [rest|] eqn:Hr; [|by left].
    right. by exists c, r.
  - left. by destruct a as [[] [] [] [] [] [] [] []].
Qed.

Lemma nonWhite_tail (c : ascii) (s : string) : nonWhite (String c s) → nonWhite s.
Proof. unfold nonWhite. cbn [allChars]. by intros [_ ?]%andb_true_iff. Qed.

Lemma stripFilePrefix_nonWhite (s : string) :
  nonWhite s → nonWhite (JS.stripFilePrefix s).
Proof.
  intros Hs. destruct (stripFilePrefix_cases s) as [->|(c & r & -> & Hr)]; [done|].
  apply (afterDollar_nonWhite r); [done|]. by apply nonWhite_tail, nonWhite_tail in Hs.
Qed.

Lemma lineTerminator_white (c : ascii) :
  JS.isLineTerminator c = true → JS.isWhite c = true.
Proof. destruct c as [[] [] [] [] [] [] [] []]; by vm_compute. Qed.

Lemma fromLineTerminator_nonWhite (s : string) :
  nonWhite s → JS.fromLineTerminator s = EmptyString.
Proof.
  unfold nonWhite. induction s as [|c s IH]; simpl; [done|].
  intros [Hc Hs]%andb_true_iff.
  destruct (JS.isLineTerminator c) eqn:Hlt; [|by apply IH].
  apply lineTerminator_white in Hlt. by rewrite Hlt in Hc.
Qed.

Lemma stripDollarSuffix_clean (s : string) :
  nonWhite s → cleanName (JS.stripDollarSuffix s).
Proof.
  unfold nonWhite, cleanName. induction s as [|c s IH]; simpl; [done|].
  intros [Hc Hs]%andb_true_iff.
  destruct (Ascii.eqb c "$") eqn:Hd.
  - by rewrite fromLineTerminator_nonWhite.
  - simpl. unfold nameChar at 1. rewrite Hc, Hd. simpl. by apply IH.
Qed.

Lemma lineSym_cleanName (line : string) : cleanName (symbol (lineSym line)).
Proof.
  unfold lineSym. cbn [symbol].
  apply stripDollarSuffix_clean, stripFilePrefix_nonWhite.
  pose proof (splitWhite_go_nonWhite false (JS.trim line)) as Hf.
  fold (JS.splitWhite (JS.trim line)) in Hf.
  destruct (JS.splitWhite (JS.trim line) !! 1%nat) as [f|] eqn:Hl; simpl; [|done].
  rewrite Forall_forall in Hf. apply Hf. by eapply list_elem_of_lookup_2.
Qed.

(** X2: whatever the text, no symbol name of the table holds white space
    or a ["$"]: the name is a field of the split line, and the two
    [replace] calls leave at most what precedes its first ["$"]. *)
Theorem parseNoi_clean_names (text : string) :
  Forall (λ s, cleanName (symbol s)) (parseNoi text).
Proof.
  apply Forall_forall. intros s (line & _ & ->)%parseNoi_raw.
  apply lineSym_cleanName.
Qed.

(** *** The order *)

(** X3: the table lists its records in the order of their lines: it is
    the sequence of the records of the retained lines with some of them
    left out. *)
Theorem parseNoi_keeps_reading_order (text : string) :
  parseNoi text `sublist_of` rawSyms text.
Proof.
  unfold parseNoi, rawSyms.
  induction (JS.splitLines text) as [|line lines IH] using rev_ind; [done|].
  rewrite foldl_snoc, filter_app, fmap_app.
  destruct (decide (keptLine line)) as [Hk|Hk].
  - rewrite parseNoi_step_kept, filter_cons_True, filter_nil by done.
    destruct (decide _); simpl.
    + by apply sublist_inserts_r.
    + by apply sublist_app.
  - rewrite parseNoi_step_skip, filter_cons_False, filter_nil by done.
    by rewrite app_nil_r.
Qed.

(** *** Two texts, one after the other *)

Lemma splitLines_nonempty (s : string) : JS.splitLines s ≠ [].
Proof.
  destruct s as [|c s]; simpl; [done|].
  destruct (Ascii.eqb c "010"); [done|]. by destruct (JS.splitLines s).
Qed.

Lemma consHead_app (c : ascii) (l k : list string) :
  l ≠ [] → JS.consHead c (l ++ k) = JS.consHead c l ++ k.
Proof. by destruct l. Qed.

Lemma splitLines_app (a b : string) :
  JS.splitLines (a +:+ String "010" b) = JS.splitLines a ++ JS.splitLines b.
Proof.
  induction a as [|c a IH]; [done|].
  change (String c a +:+ String "010" b) with (String c (a +:+ String "010" b)).
  simpl. rewrite IH. destruct (Ascii.eqb c "010"); [done|].
  apply consHead_app, splitLines_nonempty.
Qed.

(** The loop started with some records already kept adds what it would
    have kept from scratch, less the keys already in use. *)
Lemma parseNoi_loop_from (res : list Sym) (used : gset (Z * Z)) (lines : list string) :
  foldl parseNoi_step (res, used) lines
  = (res ++ filter (λ s, symKey s ∉ used) (foldl parseNoi_step ([], ∅) lines).1,
     used ∪ (foldl parseNoi_step ([], ∅) lines).2).
Proof.
  induction lines as [|line lines IH] using rev_ind.
  - simpl. by rewrite app_nil_r, union_empty_r_L.
  - rewrite !foldl_snoc, IH.
    destruct (foldl parseNoi_step ([], ∅) lines) as [r0 u0]. cbn [fst snd].
    destruct (decide (keptLine line)) as [Hk|Hk].
    2:{ by rewrite !parseNoi_step_skip. }
    rewrite !parseNoi_step_kept by done. cbn [fst snd].
    set (s := lineSym line).
    destruct (decide (symKey s ∈ u0)) as [Hin|Hout].
    + rewrite decide_True by (apply elem_of_union; by right). done.
    + cbn [fst snd]. rewrite filter_app.
      destruct (decide (symKey s ∈ used)) as [Hu|Hu].
      * rewrite decide_True by (apply elem_of_union; by left).
        rewrite filter_cons_False, filter_nil, app_nil_r by tauto.
        f_equal. apply set_eq. intros k.
        rewrite !elem_of_union, elem_of_singleton. split; [tauto|].
        intros [?|[->|?]]; tauto.
      * rewrite decide_False by (rewrite elem_of_union; tauto).
        rewrite filter_cons_True, filter_nil by done.
        rewrite app_assoc. f_equal. apply set_eq. intros k.
        rewrite !elem_of_union, elem_of_singleton. tauto.
Qed.

Lemma parseNoi_app (a b : string) :
  parseNoi (a +:+ String "010" b)
  = parseNoi a ++ filter (λ s, symKey s ∉ symKey <$> parseNoi a) (parseNoi b).
Proof.
  unfold parseNoi at 1. rewrite splitLines_app, foldl_app.
  destruct (foldl parseNoi_step ([], ∅) (JS.splitLines a)) as [ra ua] eqn:Ha.
  rewrite parseNoi_loop_from. cbn [fst].
  assert (Hra : parseNoi a = ra) by (unfold parseNoi; by rewrite Ha).
  rewrite Hra. f_equal. fold (parseNoi b).
  apply list_filter_iff. intros s.
  destruct (parseNoi_loop_firstKept (JS.splitLines a)) as (Hused & _).
  rewrite Ha in Hused. simpl in Hused. by rewrite Hused.
Qed.

Lemma filter_none {A} (P : A → Prop) `{∀ x, Decision (P x)} (l : list A) :
  (∀ x, x ∈ l → ¬ P x) → filter P l = [].
Proof.
  induction l as [|x l IH]; intros Hl; [done|].
  rewrite filter_cons_False by (apply Hl, list_elem_of_here).
  apply IH. intros y Hy. by apply Hl, list_elem_of_further.
Qed.

(** X4: the table of two texts joined by a line break is the table of
    the first followed by the records of the table of the second whose
    (bank, address) the first does not hold; so reading a text twice
    gives the table of reading it once. *)
Theorem parseNoi_concat (a b : string) :
  parseNoi (a +:+ String "010" b)
  = parseNoi a ++ filter (λ s, symKey s ∉ symKey <$> parseNoi a) (parseNoi b)
  ∧ parseNoi (a +:+ String "010" a) = parseNoi a.
Proof.
  split; [apply parseNoi_app|].
  rewrite parseNoi_app, filter_none; [by rewrite app_nil_r|].
  intros s Hs Hout. apply Hout. by apply list_elem_of_fmap_2.
Qed.

(** ** The regions of any symbol table *)

Lemma groupPush_perm (s : Sym) (groups : list (Z * list Sym)) :
  concat (groupPush s groups).*2 ≡ₚ s :: concat groups.*2.
Proof.
  induction groups as [|[b l] groups IH]; simpl; [done|].
  destruct (decide (b = bank s)); simpl.
  - rewrite <- app_assoc. simpl. by rewrite <- Permutation_middle.
  - rewrite IH. by rewrite <- Permutation_middle.
Qed.

Lemma groupByBank_perm (noiLookup : list Sym) :
  concat (groupByBank noiLookup).*2 ≡ₚ noiLookup.
Proof.
  unfold groupByBank. induction noiLookup as [|s noiLookup IH] using rev_ind; [done|].
  rewrite foldl_snoc, groupPush_perm, IH. apply Permutation_cons_append.
Qed.

Lemma insertByAddr_perm (x : Sym) (l : list Sym) : insertByAddr x l ≡ₚ x :: l.
Proof.
  induction l as [|y l IH]; simpl; [done|].
  destruct (_ <? _); [done|]. rewrite IH. apply Permutation_swap.
Qed.

Lemma sortByAddr_perm (l : list Sym) : sortByAddr l ≡ₚ l.
Proof.
  unfold sortByAddr. induction l as [|x l IH] using rev_ind; [done|].
  rewrite foldl_snoc, insertByAddr_perm, IH. apply Permutation_cons_append.
Qed.

Lemma bankRegions_perm (groups : list (Z * list Sym)) :
  fn <$> concat (bankRegions <$> groups) ≡ₚ concat groups.*2.
Proof.
  induction groups as [|g groups IH]; simpl; [done|].
  rewrite fmap_app, IH. unfold bankRegions at 1.
  by rewrite assignEnds_fn, sortByAddr_perm.
Qed.

Lemma generateFunctionRegions_perm (noiLookup : list Sym) :
  fn <$> generateFunctionRegions noiLookup ≡ₚ noiLookup.
Proof. unfold generateFunctionRegions. by rewrite bankRegions_perm, groupByBank_perm. Qed.

(** X5: the region builder gives every symbol of the table exactly one
    region, which keeps its name, address and bank: the symbols of the
    regions are the symbols of the table in another order, and there
    are as many regions as symbols. Nothing is asked of the table. *)
Theorem generateFunctionRegions_permutation (noiLookup : list Sym) :
  fn <$> generateFunctionRegions noiLookup ≡ₚ noiLookup
  ∧ length (generateFunctionRegions noiLookup) = length noiLookup.
Proof.
  pose proof (generateFunctionRegions_perm noiLookup) as Hp.
  split; [done|]. by rewrite <- (length_fmap fn), Hp.
Qed.

(** *** Sorting and ends without deduplication *)

Lemma insertByAddr_sorted_le (x : Sym) (l : list Sym) :
  StronglySorted addrLe l → StronglySorted addrLe (insertByAddr x l).
Proof.
  induction 1 as [|z l Hl IH Hz]; simpl.
  - repeat constructor.
  - destruct (Z.ltb_spec (addr x) (addr z)).
    + constructor; [by constructor|]. constructor; [unfold addrLe; lia|].
      eapply Forall_impl; [exact Hz|]. unfold addrLe. intros; simpl in *; lia.
    + constructor; [done|].
      apply Forall_forall. intros y [->|Hy]%insertByAddr_elem; [done|].
      rewrite Forall_forall in Hz. by apply Hz.
Qed.

Lemma sortByAddr_sorted_le (l : list Sym) : StronglySorted addrLe (sortByAddr l).
Proof.
  unfold sortByAddr. induction l as [|y l IH] using rev_ind; [constructor|].
  rewrite foldl_snoc. by apply insertByAddr_sorted_le.
Qed.

Lemma assignEnds_cons2 (addrMax : Z) (x y : Sym) (rest : list Sym) :
  assignEnds addrMax (x :: y :: rest)
  = mkRegion x (Z.min addrMax (addr y - 1)) :: assignEnds addrMax (y :: rest).
Proof. done. Qed.

Lemma assignEnds_elem_fn (addrMax : Z) (sorted : list Sym) (r : Region) :
  r ∈ assignEnds addrMax sorted → fn r ∈ sorted.
Proof.
  intros Hr. rewrite <- (assignEnds_fn addrMax sorted). by apply list_elem_of_fmap_2.
Qed.

Lemma assignEnds_le_max (addrMax : Z) (sorted : list Sym) (r : Region) :
  r ∈ assignEnds addrMax sorted → rend r ≤ addrMax.
Proof.
  induction sorted as [|x [|y rest] IH].
  - by intros ?%elem_of_nil.
  - intros ->%list_elem_of_singleton. simpl. lia.
  - rewrite assignEnds_cons2. intros [->|Hr]%elem_of_cons; [simpl; lia|by apply IH].
Qed.

(** A region holding [pc] belongs to the last symbol at or before [pc]. *)
Lemma assignEnds_nearest (addrMax pc : Z) (sorted : list Sym) (r : Region) (x : Sym) :
  StronglySorted addrLe sorted →
  r ∈ assignEnds addrMax sorted → addr (fn r) ≤ pc ≤ rend r →
  x ∈ sorted → addr x ≤ pc → addr x ≤ addr (fn r).
Proof.
  induction 1 as [|x0 rest Hrest IH Hx0]; intros Hr Hpc Hx Hxpc.
  - by apply elem_of_nil in Hx.
  - rewrite Forall_forall in Hx0. destruct rest as [|y rest].
    + apply list_elem_of_singleton in Hr as ->. by apply list_elem_of_singleton in Hx as ->.
    + rewrite assignEnds_cons2 in Hr. apply elem_of_cons in Hr as [->|Hr].
      * simpl in *. apply elem_of_cons in Hx as [->|Hx]; [done|].
        exfalso. assert (addr y ≤ addr x); [|lia].
        apply elem_of_cons in Hx as [->|Hx]; [done|].
        apply StronglySorted_inv in Hrest as [_ Hy]. rewrite Forall_forall in Hy.
        by apply Hy.
      * apply elem_of_cons in Hx as [->|Hx]; [|by apply IH].
        apply Hx0. by eapply assignEnds_elem_fn.
Qed.

(** Every address from a symbol up to the bank's last one lies in a
    region. *)
Lemma assignEnds_cover (addrMax pc : Z) (sorted : list Sym) (x : Sym) :
  x ∈ sorted → addr x ≤ pc ≤ addrMax →
  ∃ r, r ∈ assignEnds addrMax sorted ∧ addr (fn r) ≤ pc ≤ rend r.
Proof.
  revert x. induction sorted as [|x0 [|y rest] IH]; intros x Hx Hpc.
  - by apply elem_of_nil in Hx.
  - apply list_elem_of_singleton in Hx as ->. eexists. split; [apply list_elem_of_here|done].
  - rewrite assignEnds_cons2.
    destruct (Z.lt_ge_cases pc (addr y)) as [Hlt|Hge].
    + apply elem_of_cons in Hx as [->|Hx].
      * eexists. split; [apply list_elem_of_here|]. simpl. lia.
      * destruct (IH x Hx Hpc) as (r & Hr & Hin).
        exists r. split; [by apply list_elem_of_further|done].
    + destruct (IH y (list_elem_of_here y rest)) as (r & Hr & Hin); [lia|].
      exists r. split; [by apply list_elem_of_further|done].
Qed.

(** *** The table *)

(** The regions of the table are, bank by bank, the ends assigned to
    the sorted symbols of the bank. *)
Lemma generateFunctionRegions_elem (noiLookup : list Sym) (r : Region) :
  r ∈ generateFunctionRegions noiLookup ↔
  r ∈ assignEnds (bankAddrMax (bank (fn r)))
        (sortByAddr (filter (λ s, bank s = bank (fn r)) noiLookup)).
Proof.
  destruct (groupByBank_groupsOf noiLookup) as (Hnd & Hall & Hin).
  rewrite Forall_forall in Hall.
  unfold generateFunctionRegions. rewrite elem_of_concat. split.
  - intros (rs & Hr & (g & -> & Hg)%list_elem_of_fmap).
    destruct (bankRegions_bank noiLookup g r (Hall _ Hg) Hr) as [Hb _].
    unfold bankRegions in Hr. pose proof (Hall _ Hg) as Hg2. simpl in Hg2.
    by rewrite Hb, <- Hg2.
  - intros Hr. pose proof (assignEnds_elem_fn _ _ _ Hr) as Hfn.
    apply (proj1 (sortByAddr_elem _ _)), list_elem_of_filter in Hfn as [_ Hfn].
    apply Hin, list_elem_of_fmap in Hfn as (g & Hb & Hg).
    exists (bankRegions g). split; [|by apply list_elem_of_fmap_2].
    unfold bankRegions. pose proof (Hall _ Hg) as Hg2. simpl in Hg2.
    by rewrite Hg2, <- Hb.
Qed.

Lemma functionRegions_elem_of (noiLookup : list Sym) (o : RegionObj) :
  o ∈ functionRegions noiLookup → o.2 ∈ generateFunctionRegions noiLookup.
Proof.
  unfold functionRegions. intros (i & r & -> & Hr)%elem_of_lookup_imap.
  by eapply list_elem_of_lookup_2.
Qed.

Lemma find_is_Some {A} (P : A → bool) (l : list A) (x : A) :
  x ∈ l → P x = true → is_Some (List.find P l).
Proof.
  intros Hx HP. destruct (List.find P l) eqn:Hf; [by eexists|].
  apply list_elem_of_In in Hx. pose proof (find_none _ _ Hf _ Hx). congruence.
Qed.

Section Search.

Variable noiLookup : list Sym.
Variables pc romBank : Z.

Local Abbreviation table := (buildRegionsByBank (functionRegions noiLookup)).
Local Abbreviation tb := (targetBank pc romBank).

Lemma searchRegion_found (o : RegionObj) :
  searchRegion table pc romBank = Some o →
  rbank o = tb ∧ raddr o ≤ pc ≤ rlast o
  ∧ o.2 ∈ assignEnds (bankAddrMax tb)
            (sortByAddr (filter (λ s, bank s = tb) noiLookup)).
Proof.
  rewrite searchRegion_filter.
  intros [[Hb Ho]%list_elem_of_filter Hin]%find_elem_of.
  fold tb in Hb.
  apply functionRegions_elem_of, generateFunctionRegions_elem in Ho.
  unfold rbank in Hb. rewrite Hb in Ho.
  unfold inRegion in Hin. apply andb_true_iff in Hin as [?%Z.leb_le ?%Z.leb_le].
  done.
Qed.

Lemma searchRegion_nearest (o : RegionObj) (s : Sym) :
  searchRegion table pc romBank = Some o →
  s ∈ noiLookup → bank s = tb → addr s ≤ pc → addr s ≤ raddr o.
Proof.
  intros (Hb & Hpc & Ho)%searchRegion_found Hs Hsb Hspc.
  eapply assignEnds_nearest; [apply sortByAddr_sorted_le|exact Ho|exact Hpc| |done].
  apply sortByAddr_elem. by apply list_elem_of_filter.
Qed.

Lemma searchRegion_cover (s : Sym) :
  s ∈ noiLookup → bank s = tb → addr s ≤ pc ≤ bankAddrMax tb →
  is_Some (searchRegion table pc romBank).
Proof.
  intros Hs Hsb Hpc. rewrite searchRegion_filter. fold tb.
  destruct (assignEnds_cover (bankAddrMax tb) pc
              (sortByAddr (filter (λ s, bank s = tb) noiLookup)) s)
    as (r & Hr & Hin); [|done|].
  { apply sortByAddr_elem. by apply list_elem_of_filter. }
  assert (Hrb : bank (fn r) = tb).
  { apply assignEnds_elem_fn, (proj1 (sortByAddr_elem _ _)) in Hr.
    by apply list_elem_of_filter in Hr as [? _]. }
  rewrite <- Hrb in Hr. apply generateFunctionRegions_elem in Hr.
  apply list_elem_of_lookup in Hr as [i Hi].
  apply (find_is_Some _ _ (i, r)).
  - apply list_elem_of_filter. split; [done|].
    unfold functionRegions. apply elem_of_lookup_imap. by exists i, r.
  - unfold inRegion, raddr, rlast. simpl.
    apply andb_true_iff. split; apply Z.leb_le; lia.
Qed.

End Search.

(** X6: on the tables built from any symbol table, the search finds a
    region for pc exactly when pc does not pass the last address of the
    bank searched (bank 0 below 0x4000, the mapped bank otherwise) and
    that bank has a symbol at or before pc: between a bank's first symbol
    and its last address no address is left without a region. *)
Theorem search_resolves_iff (noiLookup : list Sym) (pc romBank : Z) :
  is_Some (searchRegion (buildRegionsByBank (functionRegions noiLookup)) pc romBank)
  ↔ pc ≤ bankAddrMax (targetBank pc romBank)
    ∧ ∃ s, s ∈ noiLookup ∧ bank s = targetBank pc romBank ∧ addr s ≤ pc.
Proof.
  split.
  - intros [o (Hb & Hpc & Ho)%searchRegion_found]. split.
    + apply assignEnds_le_max in Ho. unfold rlast in Hpc. lia.
    + exists (fn o.2). apply assignEnds_elem_fn, (proj1 (sortByAddr_elem _ _)) in Ho.
      apply list_elem_of_filter in Ho as [? ?]. unfold raddr in Hpc.
      split; [done|]. split; [done|lia].
  - intros (Hmax & s & Hs & Hb & Hpc). by apply (searchRegion_cover _ _ _ s).
Qed.

(** X7: on the tables built from any symbol table, the region the search
    returns for pc belongs to a symbol of the table, lies in the bank
    searched, holds pc, and starts at the greatest address at or before
    pc among the symbols of that bank: pc is attributed to the nearest
    symbol that precedes it. *)
Theorem search_finds_nearest_symbol (noiLookup : list Sym) (pc romBank : Z)
    (o : RegionObj) :
  searchRegion (buildRegionsByBank (functionRegions noiLookup)) pc romBank = Some o →
  fn o.2 ∈ noiLookup
  ∧ rbank o = targetBank pc romBank
  ∧ raddr o ≤ pc ≤ rlast o
  ∧ ∀ s, s ∈ noiLookup → bank s = targetBank pc romBank → addr s ≤ pc →
         addr s ≤ raddr o.
Proof.
  intros Hres. pose proof (searchRegion_found _ _ _ _ Hres) as (Hb & Hpc & Ho).
  split.
  { apply assignEnds_elem_fn, (proj1 (sortByAddr_elem _ _)) in Ho.
    by apply list_elem_of_filter in Ho as [_ ?]. }
  split; [done|]. split; [done|].
  intros s. by apply searchRegion_nearest.
Qed.

Lemma search_finds_nearest_symbol_witness :
  let table := buildRegionsByBank (functionRegions scenarioSyms) in
  let helper := (1%nat, mkRegion (mkSym "helper" 512 0) 16383) in
  searchRegion table 600 0 = Some helper
  ∧ ∀ s, s ∈ scenarioSyms → bank s = targetBank 600 0 → addr s ≤ 600 →
         addr s ≤ raddr helper.
Proof.
  intros table helper.
  assert (H : searchRegion table 600 0 = Some helper) by (vm_compute; reflexivity).
  split; [exact H|].
  exact (proj2 (proj2 (proj2 (search_finds_nearest_symbol scenarioSyms 600 0 helper H)))).
Defined.

(** *** The two start-up tables *)

Lemma buildRegionsByBank_nonempty (objs : list RegionObj) (b : Z) (rs : list RegionObj) :
  buildRegionsByBank objs !! b = Some rs → rs ≠ [].
Proof.
  unfold buildRegionsByBank. revert rs.
  induction objs as [|o objs IH] using rev_ind; intros rs.
  - simpl. by rewrite lookup_empty.
  - rewrite foldl_snoc. unfold addRegion at 1.
    destruct (decide (rbank o = b)) as [<-|Hne].
    + rewrite lookup_insert_eq. intros [= <-]. by destruct (default [] _).
    + rewrite lookup_insert_ne by done. apply IH.
Qed.

Lemma functionRegions_of_symbol (noiLookup : list Sym) (s : Sym) :
  s ∈ noiLookup → ∃ o, o ∈ functionRegions noiLookup ∧ fn o.2 = s.
Proof.
  intros Hs.
  assert (Hin : s ∈ fn <$> generateFunctionRegions noiLookup)
    by (by rewrite generateFunctionRegions_perm).
  apply list_elem_of_fmap in Hin as (r & -> & Hr).
  apply list_elem_of_lookup in Hr as [i Hi]. exists (i, r). split; [|done].
  unfold functionRegions. apply elem_of_lookup_imap. by exists i, r.
Qed.

(** X8: [regionsByBank] has an entry exactly for the banks that have a
    symbol; the entry of a bank is not empty and lists the region
    objects of that bank in the order of [functionRegions]. *)
Theorem regionsByBank_lists_each_bank (noiLookup : list Sym) (b : Z) :
  match buildRegionsByBank (functionRegions noiLookup) !! b with
  | Some rs => rs ≠ [] ∧ rs = filter (λ o, rbank o = b) (functionRegions noiLookup)
  | None => ∀ s, s ∈ noiLookup → bank s ≠ b
  end.
Proof.
  pose proof (buildRegionsByBank_lookup (functionRegions noiLookup) b) as Hl.
  destruct (buildRegionsByBank (functionRegions noiLookup) !! b) as [rs|] eqn:Hb.
  - split; [by eapply buildRegionsByBank_nonempty|done].
  - simpl in Hl. intros s (o & Ho & <-)%functionRegions_of_symbol Hbank.
    assert (o ∈ filter (λ o, rbank o = b) (functionRegions noiLookup))
      by (by apply list_elem_of_filter).
    rewrite <- Hl in H. by apply elem_of_nil in H.
Qed.

Lemma buildNoiIndex_last (noiLookup : list Sym) (name : string) :
  match buildNoiIndex noiLookup !! name with
  | Some i =>
      sharedFrames noiLookup !! i = Some name
      ∧ ∀ j, (i < j)%nat → sharedFrames noiLookup !! j ≠ Some name
  | None => name ∉ sharedFrames noiLookup
  end.
Proof.
  unfold sharedFrames.
  induction noiLookup as [|s noiLookup IH] using rev_ind.
  - unfold buildNoiIndex. simpl. rewrite lookup_empty. apply not_elem_of_nil.
  - rewrite buildNoiIndex_snoc, fmap_app. simpl.
    destruct (decide (symbol s = name)) as [<-|Hne].
    + rewrite lookup_insert_eq. split.
      * rewrite lookup_app_r by (by rewrite length_fmap).
        by rewrite length_fmap, Nat.sub_diag.
      * intros j Hj. rewrite lookup_ge_None_2; [done|].
        rewrite length_app, length_fmap. simpl. lia.
    + rewrite lookup_insert_ne by done.
      destruct (buildNoiIndex noiLookup !! name) as [i|].
      * destruct IH as [Hi Hlast]. split; [by apply lookup_app_l_Some|].
        intros j Hj. destruct (decide (j < length noiLookup)%nat) as [Hlt|Hge].
        -- rewrite lookup_app_l by (by rewrite length_fmap). by apply Hlast.
        -- rewrite lookup_app_r by (rewrite length_fmap; lia).
           rewrite length_fmap.
           destruct (j - length noiLookup)%nat as [|n]; simpl; [congruence|].
           by rewrite lookup_nil.
      * rewrite not_elem_of_app, list_elem_of_singleton. split; [done|congruence].
Qed.

(** X9: reading [noiIndex] under a name gives the position of the last
    entry of the frame table that bears the name, so the index an event
    stores leads back to the name it was stored for; it gives no index
    only for a name the table does not hold, or for [__proto__]. *)
Theorem noiIndex_names_last_entry (noiLookup : list Sym) (name : string) :
  match noiIndexGet (buildNoiIndex noiLookup) name with
  | Some i =>
      sharedFrames noiLookup !! i = Some name
      ∧ ∀ j, (i < j)%nat → sharedFrames noiLookup !! j ≠ Some name
  | None => name = "__proto__" ∨ name ∉ sharedFrames noiLookup
  end.
Proof.
  unfold noiIndexGet. destruct (decide (name = "__proto__")); [by left|].
  pose proof (buildNoiIndex_last noiLookup name) as H.
  destruct (buildNoiIndex noiLookup !! name); [done|by right].
Qed.

(** ** The cache, for the tables of any symbol file *)

Lemma parseNoi_deduplicated (text : string) : deduplicated (parseNoi text).
Proof. by destruct (parseNoi_loop_firstKept (JS.splitLines text)) as (_ & ? & _). Qed.

(** The cache test gives what the search gives as soon as the table is
    deduplicated and files every address below 0x4000 under bank 0. *)
Lemma cached_lookup_transparent (noiLookup : list Sym) (cache : option RegionObj)
    (pc romBank : Z) :
  let table := buildRegionsByBank (functionRegions noiLookup) in
  deduplicated noiLookup →
  Forall fieldsInRange noiLookup →
  reachableCache table cache →
  getCurrentFunctionRegion table cache pc romBank = searchRegion table pc romBank.
Proof.
  intros table Hdedup Hrange Hreach. subst table.
  destruct cache as [o|]; [|done]. simpl.
  destruct (inRegion pc o) eqn:Hin; [|done]. simpl.
  destruct (_ || _) eqn:Hcond; [|done].
  symmetry. apply (searchRegion_Some _ Hdedup).
  pose proof (reachableCache_elem _ Hdedup _ Hreach) as Ho.
  split; [done|]. split; [|done].
  destruct (Z.ltb_spec pc 16384) as [Hlt|Hge].
  - apply functionRegions_elem, list_elem_of_lookup_2, generateFunctionRegions_fn in Ho.
    rewrite Forall_forall in Hrange. destruct (Hrange _ Ho) as (_ & _ & Hb).
    apply Hb. unfold inRegion, raddr in Hin.
    apply andb_true_iff in Hin as [?%Z.leb_le _]. lia.
  - simpl in Hcond. by apply bool_decide_eq_true in Hcond.
Qed.

Lemma step_reachableCache (table : gmap Z (list RegionObj)) (index : gmap string nat)
    (t : Tracker) (ob : Obs) :
  reachableCache table (currentFnRegion t) →
  reachableCache table (currentFnRegion (onAfterInstruction table index t ob)).
Proof.
  intros Hreach. unfold onAfterInstruction.
  destruct (_ <? _); [done|].
  destruct (getCurrentFunctionRegion _ _ _ _) as [R|] eqn:Hres; [|done].
  destruct (decide _); [done|].
  assert (reachableCache table (Some R)) by (by eapply cache_result).
  destruct (_ =? _); [done|]. by destruct (fnStackContains _ _).
Qed.

Lemma run_reachableCache (table : gmap Z (list RegionObj)) (index : gmap string nat)
    (t : Tracker) (stream : list Obs) :
  reachableCache table (currentFnRegion t) →
  reachableCache table (currentFnRegion (run table index t stream)).
Proof.
  revert t. induction stream as [|ob stream IH]; intros t Ht; [done|].
  apply IH, step_reachableCache, Ht.
Qed.

(** X10: whatever the text of the symbol file and whatever the tracker
    has observed so far, the lookup with the cache test returns for any
    pc and mapped bank what the search alone returns: on the tables of a
    parsed file the one-entry cache never changes an answer. *)
Theorem tracker_lookup_is_search (text : string) (stream : list Obs) (pc romBank : Z) :
  let table := buildRegionsByBank (functionRegions (parseNoi text)) in
  getCurrentFunctionRegion table
    (currentFnRegion (trackerRun (parseNoi text) stream)) pc romBank
  = searchRegion table pc romBank.
Proof.
  intros table. apply cached_lookup_transparent.
  - apply parseNoi_deduplicated.
  - apply parseNoi_line_fields.
  - apply run_reachableCache. constructor.
Qed.

(** ** The tracker's stack *)

Section StackShape.

Variable regionsByBank : gmap Z (list RegionObj).
Variable noiIndex : gmap string nat.

Local Abbreviation step := (onAfterInstruction regionsByBank noiIndex).

(** The loop of [popFrame], for any target and any stack. *)
Lemma popLoop_spec (target : option string) (now : Z) (stack : list Frame)
    (evs : list Event) :
  ∃ above rest,
    stack = above ++ rest
    ∧ popLoop noiIndex target now stack evs
      = (rest, evs ++ (closeEvent noiIndex now <$> above))
    ∧ Forall (λ g, Some (fsymbol g) ≠ target) above
    ∧ match rest with
      | top :: _ => Some (fsymbol top) = target
      | [] => True
      end.
Proof.
  revert evs. induction stack as [|g stack IH]; intros evs.
  - exists [], []. simpl. by rewrite app_nil_r.
  - simpl. destruct (decide (Some (fsymbol g) = target)) as [Heq|Hne].
    + exists [], (g :: stack). simpl. by rewrite app_nil_r.
    + destruct (IH (evs ++ [closeEvent noiIndex now g]))
        as (above & rest & -> & Hpop & Hab & Htop).
      exists (g :: above), rest. rewrite Hpop, <- app_assoc. simpl.
      split; [done|]. split; [done|]. split; [by constructor|done].
Qed.

(** X11: [popFrame], whatever its target and the stack: it pops the
    frames above the topmost frame that bears the target's symbol, all
    frames when none bears it or no target is given; each popped frame
    leaves in the trace, in popping order, one event of type Close, at
    the current time, with the frame index [noiIndex] holds for the
    frame's symbol (none for ["__proto__"]) and the frame's opening time
    as [start]; what is left is empty or has the target's symbol on top;
    the current region is not touched; and popping again for the same
    target changes nothing. *)
Theorem popFrame_stops_at_target (target : option RegionObj) (now : Z) (t : Tracker) :
  let t' := popFrame noiIndex target now t in
  (∃ above,
     fnStack t = above ++ fnStack t'
     ∧ events t'
       = events t
         ++ ((λ g, mkEvent EvC now
                     (if decide (fsymbol g = "__proto__") then None
                      else noiIndex !! fsymbol g)
                     (Some (fclock g))) <$> above)
     ∧ Forall (λ g, Some (fsymbol g) ≠ rsymbol <$> target) above)
  ∧ match fnStack t' with
    | top :: _ => Some (fsymbol top) = rsymbol <$> target
    | [] => True
    end
  ∧ currentFnRegion t' = currentFnRegion t
  ∧ ∀ later, popFrame noiIndex target later t' = t'.
Proof.
  intros t'. subst t'. unfold popFrame.
  destruct (popLoop_spec (rsymbol <$> target) now (fnStack t) (events t))
    as (above & rest & Hst & Hpop & Hab & Htop).
  rewrite Hpop. cbn [fst snd fnStack events currentFnRegion].
  split; [by exists above|]. split; [done|]. split; [done|].
  intros later. destruct rest as [|top rest]; [done|]. simpl.
  by rewrite decide_True.
Qed.

Lemma wellShaped_suffix (above below : list Frame) :
  wellShaped (above ++ below) → wellShaped below.
Proof.
  induction above as [|g above IH]; simpl; [done|]. intros (_ & _ & _ & _ & H). auto.
Qed.

Lemma wellShaped_markParent (stack : list Frame) :
  wellShaped stack → wellShaped (markParent stack) ∧ parentMarked (markParent stack).
Proof. destruct stack as [|f below]; simpl; [done|]. intros (? & ? & ? & ? & ?). done. Qed.

Lemma pushFrame_wellShaped (R : RegionObj) (now : Z) (t : Tracker) :
  wellShaped (fnStack t) → wellShaped (fnStack (pushFrame noiIndex R now t)).
Proof.
  intros [Hs Hm]%wellShaped_markParent. simpl.
  split; [by destruct (fnStack t)|]. done.
Qed.

Lemma step_wellShaped (t : Tracker) (ob : Obs) :
  wellShaped (fnStack t) → wellShaped (fnStack (step t ob)).
Proof.
  intros Hs.
  destruct (step_cases regionsByBank noiIndex t ob)
    as [->|[(R & ->)|(R & above & f & below & Hst & ->)]]; [done| |].
  - by apply pushFrame_wellShaped.
  - simpl. rewrite Hst in Hs. by apply wellShaped_suffix in Hs.
Qed.

(** X12: whatever the tables and the observations, every frame on the
    stack has as [indent] the number of frames under it, as [prefix]
    ["[INT]"] when its symbol starts with ["INT_"] and ["-"] otherwise,
    equal [openPrinted] and [childPushed] flags, and [childPushed] set
    as soon as a frame lies on top of it. *)
Theorem stack_frames_well_shaped (stream : list Obs) :
  wellShaped (fnStack (run regionsByBank noiIndex initTracker stream)).
Proof.
  induction stream as [|ob stream IH] using rev_ind; [done|].
  unfold run. rewrite foldl_snoc. by apply step_wellShaped.
Qed.

Lemma step_started (t : Tracker) (ob : Obs) : started t → started (step t ob).
Proof.
  intros Hinv. unfold onAfterInstruction.
  destruct (_ <? _); [done|].
  destruct (getCurrentFunctionRegion _ _ _ _) as [R|] eqn:Hres; [|done].
  destruct (decide _); [done|].
  assert (Hpush : started (setCurrent R (pushFrame noiIndex R (otime ob) t))).
  { unfold started. simpl. eexists _, _. split; [done|]. split; [done|].
    by destruct (events t). }
  destruct (_ =? _); [done|].
  destruct (fnStackContains R (fnStack t)) eqn:Hin; [|done].
  destruct (fnStackContains_split _ _ Hin) as (above & f & below & Hst & Hab & Hf).
  unfold started, setCurrent, popFrame; simpl.
  rewrite Hst, (popLoop_unwind _ _ _ _ _ _ _ Hab Hf). simpl.
  eexists _, _. split; [done|]. split; [done|].
  unfold started in Hinv. destruct (currentFnRegion t).
  - destruct Hinv as (? & ? & _ & _ & Hev). by destruct (events t).
  - destruct Hinv as [Hnil _]. rewrite Hst in Hnil. by destruct above.
Qed.

Lemma run_started (t : Tracker) (stream : list Obs) :
  started t → started (run regionsByBank noiIndex t stream).
Proof.
  revert t. induction stream as [|ob stream IH]; intros t Ht; [done|].
  apply IH, step_started, Ht.
Qed.

Lemma step_keeps_current (t : Tracker) (ob : Obs) :
  currentFnRegion t ≠ None → currentFnRegion (step t ob) ≠ None.
Proof.
  intros Hcur.
  destruct (step_cases regionsByBank noiIndex t ob)
    as [->|[(R & ->)|(R & above & f & below & Hst & ->)]]; done.
Qed.

(** X13: whatever the tables and the observations, the tracker is in
    one of two states: nothing has been entered (no current region, empty
    stack, empty trace), or a region is current, the stack is not empty,
    its top frame bears the symbol of the current region and the trace
    is not empty. And a current region, once set, stays set whatever is
    observed next: after a function has been entered the stack is never
    unwound to empty before the run ends. *)
Theorem tracker_never_unwinds_to_empty (before after : list Obs) :
  let t := run regionsByBank noiIndex initTracker before in
  let t' := run regionsByBank noiIndex initTracker (before ++ after) in
  started t'
  ∧ (currentFnRegion t ≠ None → currentFnRegion t' ≠ None ∧ fnStack t' ≠ []).
Proof.
  intros t t'.
  assert (Hst : started t') by (by apply run_started).
  split; [done|]. intros Hcur.
  assert (Hcur' : currentFnRegion t' ≠ None).
  { clear Hst. subst t t'. unfold run in *. rewrite foldl_app.
    induction after as [|ob after IH] using rev_ind; [done|].
    rewrite foldl_snoc. by apply step_keeps_current. }
  split; [done|]. unfold started in Hst.
  destruct (currentFnRegion t'); [|done].
  destruct Hst as (f & below & Hstack & _). by rewrite Hstack.
Qed.

(** X14: when the observations come in time order and the run ends at a
    time not before the last of them, the finished trace is in time
    order, no event is later than the final time, and the opening time
    every Close records is not after the time of the Close: no frame is
    given a negative number of cycles. *)
Theorem closes_never_precede_opens (stream : list Obs) (final : Z) :
  StronglySorted Z.le ((otime <$> stream) ++ [final]) →
  let t := finish noiIndex final (run regionsByBank noiIndex initTracker stream) in
  nonDecreasing (events t)
  ∧ Forall closedForward (events t)
  ∧ Forall (λ e, eat e ≤ final) (events t).
Proof.
  intros Hsorted t. destruct (finished_timely regionsByBank noiIndex stream final Hsorted)
    as (He & _ & Hs & Hc).
  done.
Qed.

Lemma mathMax_snoc (l : list Z) (x : Z) :
  mathMax (l ++ [x])
  = match mathMax l with NegInf => Num x | Num y => Num (Z.max y x) end.
Proof. unfold mathMax. by rewrite foldl_snoc. Qed.

Lemma mathMax_le (l : list Z) (m y : Z) :
  Forall (λ x, x ≤ m) l → mathMax l = Num y → y ≤ m.
Proof.
  revert y. induction l as [|z l IH] using rev_ind; [done|].
  intros y [Hl Hz]%Forall_app. apply Forall_cons in Hz as [Hz _].
  rewrite mathMax_snoc.
  destruct (mathMax l) as [|y'] eqn:Hm; intros [= <-]; [done|].
  specialize (IH y' Hl eq_refl). lia.
Qed.

Lemma mathMax_bound (l : list Z) (m : Z) :
  Forall (λ x, x ≤ m) l → m ∈ l → mathMax l = Num m.
Proof.
  induction l as [|x l IH] using rev_ind; [by intros _ ?%elem_of_nil|].
  intros [Hl Hx]%Forall_app Hin. apply Forall_cons in Hx as [Hx _].
  rewrite mathMax_snoc.
  apply elem_of_app in Hin as [Hin|Hin%list_elem_of_singleton].
  - rewrite IH by done. f_equal. lia.
  - subst x. destruct (mathMax l) as [|y] eqn:Hm; [done|]. f_equal.
    pose proof (mathMax_le l m y Hl Hm). lia.
Qed.

(** X15: when the observations come in time order and the run ends at a
    time not before the last of them, [endValue] is the final time as
    soon as the tracker has recorded anything, and [-Infinity] when it
    has recorded nothing (no observation ever resolved to a region). *)
Theorem endValue_is_final_time (stream : list Obs) (final : Z) :
  StronglySorted Z.le ((otime <$> stream) ++ [final]) →
  let t := run regionsByBank noiIndex initTracker stream in
  endValue (events (finish noiIndex final t))
  = if decide (events t = []) then NegInf else Num final.
Proof.
  intros Hsorted t.
  destruct (finished_timely regionsByBank noiIndex stream final Hsorted)
    as (He & _ & _ & _).
  fold t in He.
  assert (Hst : started t) by (by apply run_started).
  rewrite finish_events in *.
  unfold started in Hst. destruct (currentFnRegion t) as [R|].
  - destruct Hst as (f & below & Hstack & _ & Hev).
    rewrite decide_False by done. unfold endValue.
    apply mathMax_bound.
    + apply Forall_fmap, Forall_forall. intros e [_ Hin]%list_elem_of_filter.
      rewrite Forall_forall in He. by apply He.
    + apply list_elem_of_fmap. exists (closeEvent noiIndex final f). split; [done|].
      apply list_elem_of_filter. split; [done|].
      apply elem_of_app. right. rewrite Hstack. apply list_elem_of_here.
  - destruct Hst as [-> ->]. by rewrite decide_True.
Qed.

End StackShape.

Lemma closes_never_precede_opens_witness :
  let table := buildRegionsByBank (functionRegions scenarioSyms) in
  let index := buildNoiIndex scenarioSyms in
  StronglySorted Z.le ((otime <$> scenarioStream) ++ [30])
  ∧ Forall closedForward
      (events (finish index 30 (run table index initTracker scenarioStream))).
Proof.
  intros table index.
  assert (Hs : StronglySorted Z.le ((otime <$> scenarioStream) ++ [30])).
  { simpl. repeat (constructor; [|repeat (constructor; [lia|]); constructor]).
    constructor. }
  split; [exact Hs|].
  exact (proj1 (proj2 (closes_never_precede_opens table index scenarioStream 30 Hs))).
Defined.

Lemma endValue_is_final_time_witness :
  let table := buildRegionsByBank (functionRegions scenarioSyms) in
  let index := buildNoiIndex scenarioSyms in
  StronglySorted Z.le ((otime <$> scenarioStream) ++ [30])
  ∧ endValue (events (finish index 30 (run table index initTracker scenarioStream)))
    = Num 30.
Proof.
  intros table index.
  assert (Hs : StronglySorted Z.le ((otime <$> scenarioStream) ++ [30])).
  { simpl. repeat (constructor; [|repeat (constructor; [lia|]); constructor]).
    constructor. }
  split; [exact Hs|].
  exact (endValue_is_final_time table index scenarioStream 30 Hs).
Defined.

(** X16: with no symbol at all (the symbol file is missing, or holds no
    retained line) no observation resolves: the tracker stays as it
    started whatever it observes, the finished trace is empty, every
    report has no row, and [endValue] is [-Infinity]. *)
Theorem no_symbols_nothing_recorded (stream : list Obs) (final wstart wend : Z) :
  trackerRun [] stream = initTracker
  ∧ events (trackerFinish [] final (trackerRun [] stream)) = []
  ∧ logFrameReport (sharedFrames [])
      (events (trackerFinish [] final (trackerRun [] stream))) wstart wend = Some []
  ∧ endValue (events (trackerFinish [] final (trackerRun [] stream))) = NegInf.
Proof.
  assert (Hrun : trackerRun [] stream = initTracker).
  { unfold trackerRun. induction stream as [|ob stream IH]; [done|].
    simpl. rewrite <- IH at 2. f_equal.
    unfold onAfterInstruction. by destruct (_ <? _). }
  split; [done|]. rewrite Hrun. done.
Qed.

(** ** The rows of a report *)

Lemma accumulate_names (frames : list string) (wstart wend : Z)
    (acts : list Active) (frameMap frameMap' : list (string * Z)) :
  accumulate frames wstart wend acts frameMap = Some frameMap' →
  (NoDup frameMap.*1 → NoDup frameMap'.*1)
  ∧ ∀ n, n ∈ frameMap'.*1 ↔
         n ∈ frameMap.*1 ∨ ∃ act, act ∈ acts ∧ frameName frames (aframe act) = Some n.
Proof.
  revert frameMap. induction acts as [|a acts IH]; intros frameMap; simpl.
  - intros [= <-]. split; [done|]. intros n. split; [by left|].
    by intros [?|(act & ?%elem_of_nil & _)].
  - destruct (frameName frames (aframe a)) as [name|] eqn:Hn; [|done].
    intros Hacc. destruct (IH _ Hacc) as [Hnd Hnames]. split.
    + intros H. by apply Hnd, addDuration_NoDup.
    + intros n. rewrite Hnames, addDuration_keys. split.
      * intros [[->|?]|(act & Hact & Hf)]; [right|by left|right].
        -- exists a. split; [apply list_elem_of_here|done].
        -- exists act. split; [by apply list_elem_of_further|done].
      * intros [?|(act & [->|Hact]%elem_of_cons & Hf)]; [left; by right| |].
        -- left. left. congruence.
        -- right. by exists act.
Qed.

Lemma insertByDuration_sorted (x : string * Z) (l : list (string * Z)) :
  StronglySorted longerFirst l → StronglySorted longerFirst (insertByDuration x l).
Proof.
  induction 1 as [|y l Hl IH Hy]; simpl.
  - repeat constructor.
  - destruct (Z.ltb_spec y.2 x.2).
    + constructor; [by constructor|]. constructor; [unfold longerFirst; lia|].
      eapply Forall_impl; [exact Hy|]. unfold longerFirst. intros; simpl in *; lia.
    + constructor; [done|]. rewrite insertByDuration_perm.
      constructor; [done|done].
Qed.

Lemma sortByDuration_sorted (l : list (string * Z)) :
  StronglySorted longerFirst (sortByDuration l).
Proof.
  unfold sortByDuration. induction l as [|x l IH] using rev_ind; [constructor|].
  rewrite foldl_snoc. by apply insertByDuration_sorted.
Qed.

(** X17: the rows of a report, whenever they are built (whether or not
    a bar then fails to format), are listed by decreasing duration, with
    one row per name, and with a row for a name exactly when an
    interval that overlaps the window carries a frame index of that
    name. *)
Theorem report_rows_sorted_unique (frames : list string) (evs : list Event)
    (wstart wend : Z) (stats : list (string * Z)) :
  frameStats frames evs wstart wend = Some stats →
  StronglySorted longerFirst stats
  ∧ NoDup stats.*1
  ∧ ∀ name, name ∈ stats.*1 ↔
            ∃ act, act ∈ eventsBetween evs wstart wend
                   ∧ frameName frames (aframe act) = Some name.
Proof.
  unfold frameStats.
  destruct (accumulate _ _ _ _ _) as [frameMap|] eqn:Hacc; [|done].
  intros [= <-]. destruct (accumulate_names _ _ _ _ _ _ Hacc) as [Hnd Hnames].
  split; [apply sortByDuration_sorted|]. split.
  - rewrite sortByDuration_perm. apply Hnd, NoDup_nil_2.
  - intros name. rewrite sortByDuration_perm, Hnames. split; [|by right].
    by intros [?%elem_of_nil|?].
Qed.

Lemma report_rows_sorted_unique_witness :
  let stats := [("main", 20); ("helper", 10)] in
  frameStats (sharedFrames scenarioSyms) scenarioClaimedEvents 0 20 = Some stats
  ∧ StronglySorted longerFirst stats
  ∧ NoDup stats.*1.
Proof.
  intros stats.
  assert (H : frameStats (sharedFrames scenarioSyms) scenarioClaimedEvents 0 20
              = Some stats) by (vm_compute; reflexivity).
  split; [exact H|].
  destruct (report_rows_sorted_unique (sharedFrames scenarioSyms) scenarioClaimedEvents
              0 20 stats H) as (Hs & Hn & _).
  exact (conj Hs Hn).
Defined.

(** X18: for events in time order and a window whose start is not after
    its end, no row built for the report shows a negative duration. *)
Theorem report_durations_nonnegative (frames : list string) (evs : list Event)
    (wstart wend : Z) (stats : list (string * Z)) :
  nonDecreasing evs → wstart ≤ wend →
  frameStats frames evs wstart wend = Some stats →
  Forall (λ row, 0 ≤ row.2) stats.
Proof.
  intros Hs Hw. unfold frameStats.
  destruct (accumulate _ _ _ _ _) as [frameMap|] eqn:Hacc; [|done].
  intros [= <-]. rewrite sortByDuration_perm.
  apply (accumulate_nonneg _ _ _ _ _ _ Hw) in Hacc; [done| |constructor].
  unfold eventsBetween. apply Forall_forall. intros a [Ho Ha]%list_elem_of_filter.
  split; [|done]. pose proof (activeEvents_good evs Hs) as Hg.
  rewrite Forall_forall in Hg. by apply Hg.
Qed.

Lemma report_durations_nonnegative_witness :
  let stats := [("main", 20); ("helper", 10)] in
  (nonDecreasing scenarioClaimedEvents
   ∧ 0 ≤ 20
   ∧ frameStats (sharedFrames scenarioSyms) scenarioClaimedEvents 0 20 = Some stats)
  ∧ Forall (λ row, 0 ≤ row.2) stats.
Proof.
  intros stats.
  assert (Hs : nonDecreasing scenarioClaimedEvents).
  { unfold nonDecreasing. simpl.
    repeat (constructor; [|repeat (constructor; [lia|]); constructor]). constructor. }
  assert (Hw : 0 ≤ 20) by lia.
  assert (H : frameStats (sharedFrames scenarioSyms) scenarioClaimedEvents 0 20
              = Some stats) by (vm_compute; reflexivity).
  split; [exact (conj Hs (conj Hw H))|].
  exact (report_durations_nonnegative (sharedFrames scenarioSyms) scenarioClaimedEvents
           0 20 stats Hs Hw H).
Defined.

(** X19: [logFrameReport] throws in exactly two cases: an interval that
    overlaps the window carries a frame that is no index of the frame
    table ([.name] is read on [undefined]); or the rows are built and
    one of them shows -1171 cycles or less, for which the bar has a
    negative length ([repeat] refuses it). An interval outside the
    window never makes it throw, and for events in time order and a
    window whose start is not after its end only the first case is
    left. *)
Theorem report_throws_iff (frames : list string) (evs : list Event) (wstart wend : Z) :
  (logFrameReport frames evs wstart wend = None
   ↔ (∃ act, act ∈ eventsBetween evs wstart wend
             ∧ frameName frames (aframe act) = None)
     ∨ (∃ stats row, frameStats frames evs wstart wend = Some stats
                     ∧ row ∈ stats ∧ row.2 ≤ -1171))
  ∧ (nonDecreasing evs → wstart ≤ wend →
     (logFrameReport frames evs wstart wend = None
      ↔ ∃ act, act ∈ eventsBetween evs wstart wend
               ∧ frameName frames (aframe act) = None)).
Proof.
  assert (Hrows : frameStats frames evs wstart wend = None
                  ↔ ∃ act, act ∈ eventsBetween evs wstart wend
                           ∧ frameName frames (aframe act) = None).
  { unfold frameStats.
    rewrite <- (accumulate_None frames wstart wend (eventsBetween evs wstart wend) []).
    destruct (accumulate _ _ _ _ _); simpl; [|done]. by split. }
  split.
  - rewrite <- Hrows. unfold logFrameReport.
    destruct (frameStats frames evs wstart wend) as [stats|]; simpl; [|by split; [left|]].
    destruct (mapM (λ row, bar row.2) stats) as [bars|] eqn:Hbars; simpl.
    + split; [done|]. intros [[=]|(stats' & row & [= <-] & Hin & Hlow)].
      assert (Hsome : is_Some (mapM (λ row, bar row.2) stats)) by (by eexists).
      apply mapM_is_Some_1 in Hsome. rewrite Forall_forall in Hsome.
      destruct (Hsome _ Hin) as [b Hb]. apply bar_None in Hlow. simpl in Hb. congruence.
    + split; [|done]. intros _. right.
      apply mapM_None_1, Exists_exists in Hbars as (row & Hin & Hnone).
      exists stats, row. split; [done|]. split; [done|]. by apply bar_None.
  - intros Hs Hw. by rewrite logFrameReport_ordered.
Qed.

Lemma running_report_total_witness :
  let t := trackerRun scenarioSyms scenarioStream in
  (Forall (λ s, symbol s ≠ "__proto__") scenarioSyms
   ∧ StronglySorted Z.le (otime <$> scenarioStream)
   ∧ 0 ≤ 20)
  ∧ ∃ stats,
      logFrameReport (sharedFrames scenarioSyms) (events t) 0 20 = Some stats
      ∧ reported "main" stats = 20.
Proof.
  intros t.
  assert (H0 : Forall (λ s, symbol s ≠ "__proto__") scenarioSyms).
  { repeat (constructor; [simpl; discriminate|]). constructor. }
  assert (H1 : StronglySorted Z.le (otime <$> scenarioStream)).
  { simpl. repeat (constructor; [|repeat (constructor; [lia|]); constructor]).
    constructor. }
  assert (H2 : 0 ≤ 20) by lia.
  split; [exact (conj H0 (conj H1 H2))|].
  destruct (running_report_total scenarioSyms scenarioStream 0 20 H0 H1 H2)
    as (stats & Hrep & Htot).
  exists stats. split; [exact Hrep|]. rewrite Htot. vm_compute. reflexivity.
Defined.

(** *** Later events and a window already past *)

Lemma matchEvents_app (evs1 evs2 : list Event) (stack : list (option nat * list Z))
    (active : list Active) :
  matchEvents (evs1 ++ evs2) stack active
  = matchEvents evs2 (matchEvents evs1 stack active).1 (matchEvents evs1 stack active).2.
Proof.
  revert stack active. induction evs1 as [|e evs1 IH]; intros stack active; simpl; [done|].
  destruct (etype e); [apply IH|].
  destruct (framePop (eframe e) stack) as [[t stack']|]; apply IH.
Qed.

Section LateEvents.

Variable frames : list string.
Variable name : string.
Variables wstart wend : Z.
Hypothesis Hwin : wstart ≤ wend.

Local Abbreviation total := (totalFor frames name wstart wend).

Lemma ongoing_cons (k : option nat) (ts : list Z) (stack : list (option nat * list Z)) :
  ongoing ((k, ts) :: stack) = ((λ t, mkActive t Inf k) <$> rev ts) ++ ongoing stack.
Proof. done. Qed.

Lemma ongoing_framePush_total (k : option nat) (t : Z) (stack : list (option nat * list Z)) :
  total (ongoing (framePush k t stack)) = total (ongoing stack) + total [mkActive t Inf k].
Proof.
  induction stack as [|[k' ts] stack IH]; [simpl; lia|].
  cbn [framePush]. destruct (decide (k' = k)) as [->|Hne].
  - rewrite !ongoing_cons. cbn [rev]. rewrite fmap_app, !totalFor_app.
    change ((λ t0, mkActive t0 Inf k) <$> [t]) with [mkActive t Inf k]. ring.
  - destruct (keyBefore k k').
    + rewrite (ongoing_cons k [t]), totalFor_app.
      change ((λ t0, mkActive t0 Inf k) <$> rev [t]) with [mkActive t Inf k]. ring.
    + rewrite !ongoing_cons, !totalFor_app, IH. ring.
Qed.

Lemma ongoing_framePop_total (k : option nat) (t : Z)
    (stack stack' : list (option nat * list Z)) :
  framePop k stack = Some (t, stack') →
  total (ongoing stack) = total (ongoing stack') + total [mkActive t Inf k].
Proof.
  revert stack'.
  induction stack as [|[k' ts] stack IH]; intros stack'; [done|].
  cbn [framePop]. destruct (decide (k' = k)) as [->|Hne].
  - destruct ts as [|t' ts]; [done|]. intros [= <- <-].
    rewrite !ongoing_cons. cbn [rev]. rewrite fmap_app, !totalFor_app.
    change ((λ t0, mkActive t0 Inf k) <$> [t']) with [mkActive t' Inf k]. ring.
  - destruct (framePop k stack) as [[t' rest']|]; [|done]. intros [= <- <-].
    rewrite !ongoing_cons, !totalFor_app, (IH rest' eq_refl). ring.
Qed.

(** An interval closed at or after the end of the window counts as one
    still open. *)
Lemma contribution_closed_late (s e : Z) (k : option nat) :
  wend ≤ e →
  contribution wstart wend (mkActive s (Fin e) k)
  = contribution wstart wend (mkActive s Inf k).
Proof.
  intros He. unfold contribution, overlaps, duration. simpl.
  destruct (Z.ltb_spec wstart e), (Z.ltb_spec s wend); simpl; lia.
Qed.

Lemma contribution_opened_late (s : Z) (e : ExtZ) (k : option nat) :
  wend ≤ s → contribution wstart wend (mkActive s e k) = 0.
Proof.
  intros Hs. unfold contribution, overlaps. simpl.
  destruct (Z.ltb_spec s wend); [lia|]. by rewrite andb_false_r.
Qed.

Lemma late_events_total (later : list Event) (stack : list (option nat * list Z))
    (active : list Active) :
  Forall (λ e, wend ≤ eat e) later →
  total (matchEvents later stack active).2
  + total (ongoing (matchEvents later stack active).1)
  = total active + total (ongoing stack).
Proof.
  intros Hlate. revert stack active.
  induction Hlate as [|e later He _ IH]; intros stack active; simpl; [done|].
  destruct (etype e).
  - rewrite IH, ongoing_framePush_total. simpl.
    rewrite contribution_opened_late by done. destruct (decide _); lia.
  - destruct (framePop (eframe e) stack) as [[t stack']|] eqn:Hpop; [|apply IH].
    rewrite IH, totalFor_app, (ongoing_framePop_total _ _ _ _ Hpop). simpl.
    rewrite contribution_closed_late by done. destruct (decide _); lia.
Qed.

Lemma activeEvents_late (evs later : list Event) :
  Forall (λ e, wend ≤ eat e) later →
  total (activeEvents (evs ++ later)) = total (activeEvents evs).
Proof.
  intros Hlate. unfold activeEvents. rewrite matchEvents_app, !totalFor_app.
  by apply late_events_total.
Qed.

End LateEvents.

Lemma run_events_late (regionsByBank : gmap Z (list RegionObj))
    (noiIndex : gmap string nat) (wend : Z) (t : Tracker) (stream : list Obs) :
  Forall (λ ob, wend ≤ otime ob) stream →
  ∃ later, events (run regionsByBank noiIndex t stream) = events t ++ later
           ∧ Forall (λ e, wend ≤ eat e) later.
Proof.
  intros Hlate. revert t. induction Hlate as [|ob stream Hob _ IH]; intros t.
  - exists []. by rewrite app_nil_r.
  - simpl. destruct (IH (onAfterInstruction regionsByBank noiIndex t ob))
      as (later & Hev & Hlater).
    destruct (step_events regionsByBank noiIndex t ob) as (new & Hnew & Hat).
    exists (new ++ later). rewrite Hev, Hnew, <- app_assoc. split; [done|].
    apply Forall_app. split; [|done].
    eapply Forall_impl; [exact Hat|]. simpl. intros; lia.
Qed.

(** X21: the report [main] prints for a window during a run observed
    in time order so far shows, name by name, what the report of the
    same window shows on the trace that is exported at the end, and both
    are produced, provided the window's start is not after its end,
    every later observation is at or after the window's end and so is
    the final time (no symbol being named [__proto__]): what happens
    after a window does not change what is reported for it. *)
Theorem live_report_matches_final (noiLookup : list Sym) (before after : list Obs)
    (final wstart wend : Z) :
  Forall (λ s, symbol s ≠ "__proto__") noiLookup →
  StronglySorted Z.le (otime <$> before) →
  wstart ≤ wend →
  Forall (λ ob, wend ≤ otime ob) after →
  wend ≤ final →
  ∃ live exported,
    logFrameReport (sharedFrames noiLookup)
      (events (trackerRun noiLookup before)) wstart wend = Some live
    ∧ logFrameReport (sharedFrames noiLookup)
        (events (trackerFinish noiLookup final (trackerRun noiLookup (before ++ after))))
        wstart wend = Some exported
    ∧ ∀ name, reported name live = reported name exported.
Proof.
  intros Hproto Hsorted Hwin Hafter Hfinal.
  destruct (trackerRun_validFrames noiLookup before final Hproto) as [Hv1 _].
  destruct (trackerRun_validFrames noiLookup (before ++ after) final Hproto) as [_ Hv2].
  pose proof (trackerRun_nonDecreasing noiLookup before Hsorted) as Hs.
  destruct (logFrameReport_total _ _ wstart wend Hv1 Hs Hwin) as (live & Hl & Hlt).
  destruct (frameStats_total (sharedFrames noiLookup)
              (events (trackerFinish noiLookup final
                         (trackerRun noiLookup (before ++ after)))) wstart wend)
    as (exported & He & Hnd & Het); [by apply validFrames_validIn|].
  assert (Hsame : ∀ name, reported name live = reported name exported).
  { intros name. rewrite Hlt, Het. symmetry.
    unfold trackerFinish. rewrite finish_events, trackerRun_app.
    destruct (run_events_late (buildRegionsByBank (functionRegions noiLookup))
                (buildNoiIndex noiLookup) wend (trackerRun noiLookup before) after Hafter)
      as (later & -> & Hlater).
    rewrite <- app_assoc. apply activeEvents_late; [done|].
    apply Forall_app. split; [done|]. apply Forall_fmap, Forall_forall. done. }
  exists live, exported. split; [done|]. split; [|done].
  apply logFrameReport_Some. split; [done|].
  apply logFrameReport_Some in Hl as [_ Hrows].
  apply Forall_forall. intros [name d] Hin. simpl.
  rewrite <- (reported_elem name d exported Hnd Hin), <- Hsame.
  by apply reported_above.
Qed.

Lemma live_report_matches_final_witness :
  let before := [mkObs 336 0 0; mkObs 512 0 10] in
  let after := [mkObs 337 0 20] in
  (Forall (λ s, symbol s ≠ "__proto__") scenarioSyms
   ∧ StronglySorted Z.le (otime <$> before)
   ∧ 0 ≤ 10
   ∧ Forall (λ ob, 10 ≤ otime ob) after
   ∧ 10 ≤ 30)
  ∧ ∃ live exported,
      logFrameReport (sharedFrames scenarioSyms)
        (events (trackerRun scenarioSyms before)) 0 10 = Some live
      ∧ logFrameReport (sharedFrames scenarioSyms)
          (events (trackerFinish scenarioSyms 30
                     (trackerRun scenarioSyms (before ++ after)))) 0 10 = Some exported
      ∧ ∀ name, reported name live = reported name exported.
Proof.
  intros before after.
  assert (H0 : Forall (λ s, symbol s ≠ "__proto__") scenarioSyms).
  { repeat (constructor; [simpl; discriminate|]). constructor. }
  assert (Hs : StronglySorted Z.le (otime <$> before)).
  { simpl. repeat (constructor; [|repeat (constructor; [lia|]); constructor]).
    constructor. }
  assert (H1 : 0 ≤ 10) by lia.
  assert (H2 : Forall (λ ob, 10 ≤ otime ob) after).
  { repeat (constructor; [simpl; lia|]). constructor. }
  assert (H3 : 10 ≤ 30) by lia.
  split; [exact (conj H0 (conj Hs (conj H1 (conj H2 H3))))|].
  exact (live_report_matches_final scenarioSyms before after 30 0 10 H0 Hs H1 H2 H3).
Defined.

(** ** The path of the symbol file *)

Example noiPath_ex :
  noiPath "game.gb" = "game.noi" ∧ noiPath "roms/Game.GBC" = "roms/Game.noi"
  ∧ noiPath "my.gb.roms/game.gbc" = "my.noi.roms/game.gbc"
  ∧ noiPath "game.gbx" = "game.noix" ∧ noiPath "game.rom" = "game.rom".
Proof. repeat split. Qed.

Lemma upperAscii_dot (c : ascii) : upperAscii c = "."%char → c = "."%char.
Proof. destruct c as [[] [] [] [] [] [] [] []]; vm_compute; congruence. Qed.

Lemma dropPrefixNoCase_GBC_GB (s : string) :
  dropPrefixNoCase ".GB" s = None → dropPrefixNoCase ".GBC" s = None.
Proof.
  destruct s as [|c1 [|c2 [|c3 s]]]; cbn [dropPrefixNoCase];
    repeat (destruct (Ascii.eqb _ (upperAscii _)); [|done]); done.
Qed.

Lemma romExtension_dot (ext : string) :
  romExtension ext → ∃ r, ext = String "." r.
Proof.
  intros [H|H]; destruct ext as [|c r]; cbn [dropPrefixNoCase] in H; try done;
    destruct (Ascii.eqb_spec "."%char (upperAscii c)) as [Heq|]; try done;
    symmetry in Heq; apply upperAscii_dot in Heq as ->; by eexists.
Qed.

Lemma romExtension_noiPath (ext : string) : romExtension ext → noiPath ext = ".noi".
Proof.
  intros Hext. destruct (romExtension_dot ext Hext) as [r ->].
  destruct Hext as [H|H]; cbn [noiPath]; rewrite ?H; [|done].
  destruct (dropPrefixNoCase ".GBC" (String "." r)) as [rest|] eqn:Hc; [|done].
  exfalso. revert H Hc.
  destruct r as [|c2 [|c3 [|c4 r]]]; cbn [dropPrefixNoCase];
    repeat (destruct (Ascii.eqb _ (upperAscii _)); [|done]); done.
Qed.

(** A match cannot straddle the end of a path that holds none and the
    extension that follows it. *)
Lemma dropPrefixNoCase_straddle (c : ascii) (s r : string) :
  dropPrefixNoCase ".GB" (String c s) = None →
  dropPrefixNoCase ".GB" (String c (s +:+ String "." r)) = None.
Proof.
  assert (Hdot : ∀ a, a ≠ "."%char → Ascii.eqb a (upperAscii ".") = false).
  { intros a Ha. by apply Ascii.eqb_neq. }
  destruct s as [|c2 [|c3 s]].
  - intros _. change (EmptyString +:+ String "." r) with (String "." r).
    cbn [dropPrefixNoCase]. rewrite (Hdot "G"%char) by done.
    by destruct (Ascii.eqb "." (upperAscii c)).
  - change (String c2 EmptyString +:+ String "." r) with (String c2 (String "." r)).
    cbn [dropPrefixNoCase]. rewrite (Hdot "B"%char) by done. intros _.
    repeat (destruct (Ascii.eqb _ (upperAscii _)); [|done]); done.
  - change (String c2 (String c3 s) +:+ String "." r)
      with (String c2 (String c3 (s +:+ String "." r))).
    cbn [dropPrefixNoCase].
    repeat (destruct (Ascii.eqb _ (upperAscii _)); [|done]); done.
Qed.

(** X22: for a ROM path made of a part that holds no [.gb] (in any
    case) followed by the extension [.gb] or [.gbc] (in any case), the
    symbol file is looked for at that part followed by [.noi]; and a
    path that holds no [.gb] at all is left as it is, so the ROM itself
    is then read as the symbol file. *)
Theorem noiPath_replaces_extension (base : string) :
  noRomExtension base = true →
  noiPath base = base
  ∧ ∀ ext, romExtension ext → noiPath (base +:+ ext) = base +:+ ".noi".
Proof.
  induction base as [|c base IH]; intros Hno.
  - split; [done|]. intros ext Hext. by apply romExtension_noiPath.
  - cbn [noRomExtension] in Hno.
    destruct (dropPrefixNoCase ".GB" (String c base)) as [rest|] eqn:Hgb; [done|].
    destruct (IH Hno) as [Hbase Hext]. split.
    + cbn [noiPath]. by rewrite Hgb, (dropPrefixNoCase_GBC_GB _ Hgb), Hbase.
    + intros ext Hx. destruct (romExtension_dot ext Hx) as [r ->].
      change (String c base +:+ String "." r) with (String c (base +:+ String "." r)).
      cbn [noiPath].
      pose proof (dropPrefixNoCase_straddle c base r Hgb) as Hs.
      rewrite Hs, (dropPrefixNoCase_GBC_GB _ Hs), (Hext _ Hx). done.
Qed.

Lemma noiPath_replaces_extension_witness :
  (noRomExtension "roms/game" = true ∧ romExtension ".GBC")
  ∧ noiPath ("roms/game" +:+ ".GBC") = "roms/game" +:+ ".noi".
Proof.
  assert (H0 : noRomExtension "roms/game" = true) by reflexivity.
  assert (H1 : romExtension ".GBC") by (right; reflexivity).
  split; [exact (conj H0 H1)|].
  exact (proj2 (noiPath_replaces_extension "roms/game" H0) ".GBC" H1).
Defined.

(** ** The capture files *)

Example captureFilename_ex :
  captureFilename 0 = "frame_0000.png" ∧ captureFilename 59 = "frame_0059.png"
  ∧ captureFilename 1234 = "frame_1234.png".
Proof. repeat split; by vm_compute. Qed.

Lemma append_cons (c : ascii) (a b : string) : String c a +:+ b = String c (a +:+ b).
Proof. done. Qed.

Lemma length_append (a b : string) :
  String.length (a +:+ b) = (String.length a + String.length b)%nat.
Proof. induction a as [|c a IH]; [done|]. rewrite append_cons. simpl. by rewrite IH. Qed.

Lemma append_assoc (a b c : string) : (a +:+ b) +:+ c = a +:+ b +:+ c.
Proof. induction a as [|x a IH]; [done|]. rewrite !append_cons. by rewrite IH. Qed.

Lemma append_inj_r (a b x : string) : a +:+ x = b +:+ x → a = b.
Proof.
  revert b. induction a as [|c a IH]; intros [|d b] H; [done| | |].
  - apply (f_equal String.length) in H. rewrite !length_append in H. simpl in H. lia.
  - apply (f_equal String.length) in H. rewrite !length_append in H. simpl in H. lia.
  - rewrite !append_cons in H. injection H as -> H. f_equal. by apply IH.
Qed.

Lemma zeros_length (n : nat) : String.length (zeros n) = n.
Proof. induction n; simpl; congruence. Qed.

Lemma zeros_add (n m : nat) : zeros (n + m) = zeros n +:+ zeros m.
Proof. induction n as [|n IH]; [done|]. simpl. rewrite append_cons. by rewrite IH. Qed.

Lemma pretty_N_go_head (x : N) (s : string) :
  (0 < x)%N → ∃ c r, pretty_N_go x s = String c r ∧ c ≠ "0"%char.
Proof.
  revert s. induction (N.lt_wf_0 x) as [x _ IH]; intros s Hx.
  rewrite pretty_N_go_step by done.
  destruct (decide (x < 10)%N) as [Hlt|Hge].
  - rewrite N.div_small, pretty_N_go_0 by done. rewrite N.mod_small by done.
    eexists _, _. split; [done|]. intros Hc.
    apply (pretty_N_char_inj x 0) in Hc; lia.
  - apply IH.
    + apply N.div_lt; lia.
    + apply N.div_str_pos. lia.
Qed.

(** A decimal numeral is not empty and has no leading zero, ["0"] apart. *)
Lemma pretty_nat_head (i : nat) :
  ∃ c r, pretty i = String c r ∧ (c = "0"%char → r = EmptyString).
Proof.
  unfold pretty, pretty_nat, pretty, pretty_N.
  destruct (decide (N.of_nat i = 0%N)) as [_|Hne]; [by eexists _, _|].
  destruct (pretty_N_go_head (N.of_nat i) "") as (c & r & -> & Hc); [lia|].
  by eexists _, _.
Qed.

Lemma padStart0_inj (n : nat) (i j : nat) :
  padStart0 n (pretty i) = padStart0 n (pretty j) → i = j.
Proof.
  assert (Hlt : ∀ a b : nat,
    (String.length (pretty a) < String.length (pretty b))%nat →
    padStart0 n (pretty a) ≠ padStart0 n (pretty b)).
  { intros a b Hlen Heq. unfold padStart0 in Heq.
    pose proof (f_equal String.length Heq) as Hl.
    rewrite !length_append, !zeros_length in Hl.
    replace (n - String.length (pretty a))%nat
      with ((n - String.length (pretty b))
            + (String.length (pretty b) - String.length (pretty a)))%nat in Heq by lia.
    rewrite zeros_add in Heq. rewrite append_assoc in Heq.
    apply (inj (String.app _)) in Heq.
    destruct (String.length (pretty b) - String.length (pretty a))%nat as [|d] eqn:Hd; [lia|].
    simpl in Heq. rewrite append_cons in Heq.
    destruct (pretty_nat_head b) as (c & r & Hb & Hzero).
    destruct (pretty_nat_head a) as (c' & r' & Ha & _).
    rewrite Hb in Heq. injection Heq as <- _. rewrite (Hzero eq_refl) in Hb.
    rewrite Ha, Hb in Hlen. simpl in Hlen. lia. }
  intros Heq.
  destruct (Nat.lt_total (String.length (pretty i)) (String.length (pretty j)))
    as [H|[H|H]].
  - by destruct (Hlt i j H).
  - unfold padStart0 in Heq. rewrite H in Heq.
    apply (inj (String.app _)) in Heq. by apply (inj pretty) in Heq.
  - by destruct (Hlt j i H).
Qed.

Lemma captureFilename_inj (i j : nat) : captureFilename i = captureFilename j → i = j.
Proof.
  unfold captureFilename. intros H.
  apply (inj (String.app _)) in H. apply append_inj_r in H.
  by apply padStart0_inj in H.
Qed.

(** X23: the capture files of a run never overwrite one another: the
    names of the files written for frames 0 to [numFrames - 1] are
    pairwise distinct, also beyond four digits. *)
Theorem capture_files_are_distinct (numFrames : nat) :
  NoDup (captureFilename <$> seq 0 numFrames).
Proof.
  apply NoDup_fmap_2_strong; [|apply NoDup_seq].
  intros i j _ _. apply captureFilename_inj.
Qed.
